(** * Authentication and session security of the bug-tracker service

    A shallow embedding of the authentication core of the service
    (app/core/security and app/services/auth_service.py) together with the
    properties its specification states about it.

    Conventions of the embedding:
    - wall-clock time is a [Z] number of whole seconds, as the code truncates
      every clock reading with [int(...)]; an operation runs at one clock
      reading [now], which is the reader component of the monad [M];
    - the Redis server is a finite map from keys to typed values with an
      optional absolute expiry time; an expired key is logically absent;
    - Python exceptions are values of type [error]; a computation returns the
      state it reached together with either a value or the raised error;
    - the random token ids drawn with [uuid.uuid4()] are explicit arguments. *)

From stdpp Require Import gmap strings list pretty sorting.
From Stdlib Require Import ZArith Lia Ascii.

Open Scope string_scope.
Open Scope Z_scope.

(** ** Configuration: app/config/settings.py *)

Record Settings := {
  access_token_expire_minutes : Z;
  refresh_token_expire_days : Z;
  rate_limit_requests : Z;
  rate_limit_window : Z;
  login_rate_limit_requests : Z;
  login_rate_limit_window : Z
}.

(** The defaults of the [Settings] class. *)
Definition default_settings : Settings := {|
  access_token_expire_minutes := 15;
  refresh_token_expire_days := 7;
  rate_limit_requests := 100;
  rate_limit_window := 60;
  login_rate_limit_requests := 5;
  login_rate_limit_window := 60
|}.

(** ** Exceptions: app/core/exceptions.py *)

Inductive error :=
  | AuthenticationError (message : string)
  | InvalidCredentialsError (message : string)
  | TokenExpiredError
  | TokenInvalidError (message : string)
  | TokenBlacklistedError
  | AccountLockedError (message : string)
  | DuplicateError (field value : string)
  | ResponseError (message : string).

(** The [code] attribute each exception class sets; [ResponseError] is the
    store client's own exception and carries no application code. *)
Definition code (e : error) : string :=
  match e with
  | AuthenticationError _ => "AUTHENTICATION_ERROR"
  | InvalidCredentialsError _ => "INVALID_CREDENTIALS"
  | TokenExpiredError => "TOKEN_EXPIRED"
  | TokenInvalidError _ => "TOKEN_INVALID"
  | TokenBlacklistedError => "TOKEN_BLACKLISTED"
  | AccountLockedError _ => "ACCOUNT_LOCKED"
  | DuplicateError _ _ => "DUPLICATE"
  | ResponseError _ => "INTERNAL_ERROR"
  end.

Inductive result (A : Type) :=
  | Ok (a : A)
  | Raise (e : error).
Arguments Ok {A} a.
Arguments Raise {A} e.

(** ** The Redis server *)

Inductive rvalue :=
  | RString (v : string)
  | RSet (members : gset string)
  | RZSet (scores : gmap string Z).

Record entry := Entry { value : rvalue; expire_at : option Z }.

Abbreviation redis := (gmap string entry).

Definition alive (now : Z) (e : entry) : bool :=
  match expire_at e with
  | Some t => now <? t
  | None => true
  end.

(** What a command sees under a key: expired entries are gone. *)
Definition lookup_live (now : Z) (db : redis) (key : string) : option entry :=
  match db !! key with
  | Some e => if alive now e then Some e else None
  | None => None
  end.

(** A command runs at a clock reading against the database and leaves a
    database and a reply or an error. *)
Definition cmd (A : Type) : Type := Z → redis → redis * result A.

Definition WRONGTYPE : error :=
  ResponseError "WRONGTYPE Operation against a key holding the wrong kind of value".

(** [SET key value [EX seconds]]; the server rejects a non-positive [EX]. *)
Definition cmd_set (key v : string) (ex : option Z) : cmd unit := λ now db,
  match ex with
  | Some seconds =>
      if seconds <=? 0
      then (db, Raise (ResponseError "invalid expire time in 'set' command"))
      else (<[key := Entry (RString v) (Some (now + seconds))]> db, Ok ())
  | None => (<[key := Entry (RString v) None]> db, Ok ())
  end.

Definition cmd_get (key : string) : cmd (option string) := λ now db,
  match lookup_live now db key with
  | None => (db, Ok None)
  | Some (Entry (RString v) _) => (db, Ok (Some v))
  | Some _ => (db, Raise WRONGTYPE)
  end.

Definition cmd_delete (key : string) : cmd unit := λ now db,
  (delete key db, Ok ()).

(** [EXISTS key] replies with the number of keys found. *)
Definition cmd_exists (key : string) : cmd Z := λ now db,
  (db, Ok (if lookup_live now db key is Some _ then 1 else 0)).

(** [TTL key]: -2 without the key, -1 without an expiry. *)
Definition cmd_ttl (key : string) : cmd Z := λ now db,
  (db, Ok match lookup_live now db key with
          | None => -2
          | Some e => match expire_at e with
                      | None => -1
                      | Some t => t - now
                      end
          end).

(** [EXPIRE key seconds]; a non-positive timeout deletes the key. *)
Definition cmd_expire (key : string) (seconds : Z) : cmd unit := λ now db,
  match lookup_live now db key with
  | None => (db, Ok ())
  | Some e =>
      if seconds <=? 0 then (delete key db, Ok ())
      else (<[key := Entry (value e) (Some (now + seconds))]> db, Ok ())
  end.

Definition cmd_sadd (key member : string) : cmd Z := λ now db,
  match lookup_live now db key with
  | None => (<[key := Entry (RSet {[member]}) None]> db, Ok 1)
  | Some (Entry (RSet s) t) =>
      (<[key := Entry (RSet (s ∪ {[member]})) t]> db,
       Ok (if decide (member ∈ s) then 0 else 1))
  | Some _ => (db, Raise WRONGTYPE)
  end.

(** [SREM key member]; a set that becomes empty is removed. *)
Definition cmd_srem (key member : string) : cmd Z := λ now db,
  match lookup_live now db key with
  | None => (db, Ok 0)
  | Some (Entry (RSet s) t) =>
      let s' := s ∖ {[member]} in
      (if decide (s' = ∅) then delete key db
       else <[key := Entry (RSet s') t]> db,
       Ok (if decide (member ∈ s) then 1 else 0))
  | Some _ => (db, Raise WRONGTYPE)
  end.

Definition cmd_smembers (key : string) : cmd (gset string) := λ now db,
  match lookup_live now db key with
  | None => (db, Ok ∅)
  | Some (Entry (RSet s) _) => (db, Ok s)
  | Some _ => (db, Raise WRONGTYPE)
  end.

Definition cmd_sismember (key member : string) : cmd bool := λ now db,
  match lookup_live now db key with
  | None => (db, Ok false)
  | Some (Entry (RSet s) _) => (db, Ok (bool_decide (member ∈ s)))
  | Some _ => (db, Raise WRONGTYPE)
  end.

Definition in_score_range (lo hi : Z) (kv : string * Z) : Prop :=
  lo ≤ kv.2 ∧ kv.2 ≤ hi.

#[global] Instance in_score_range_dec lo hi kv : Decision (in_score_range lo hi kv).
Proof. unfold in_score_range. apply _. Defined.

(** [ZREMRANGEBYSCORE key min max]; a sorted set that becomes empty is
    removed. *)
Definition cmd_zremrangebyscore (key : string) (lo hi : Z) : cmd Z := λ now db,
  match lookup_live now db key with
  | None => (db, Ok 0)
  | Some (Entry (RZSet z) t) =>
      let z' := filter (λ kv, ¬ in_score_range lo hi kv) z in
      (if decide (z' = ∅) then delete key db
       else <[key := Entry (RZSet z') t]> db,
       Ok (Z.of_nat (size z) - Z.of_nat (size z')))
  | Some _ => (db, Raise WRONGTYPE)
  end.

Definition cmd_zcard (key : string) : cmd Z := λ now db,
  match lookup_live now db key with
  | None => (db, Ok 0)
  | Some (Entry (RZSet z) _) => (db, Ok (Z.of_nat (size z)))
  | Some _ => (db, Raise WRONGTYPE)
  end.

(** [ZADD key score member]: a member already present only has its score
    updated. *)
Definition cmd_zadd (key member : string) (score : Z) : cmd Z := λ now db,
  match lookup_live now db key with
  | None => (<[key := Entry (RZSet {[member := score]}) None]> db, Ok 1)
  | Some (Entry (RZSet z) t) =>
      (<[key := Entry (RZSet (<[member := score]> z)) t]> db,
       Ok (if z !! member is Some _ then 0 else 1))
  | Some _ => (db, Raise WRONGTYPE)
  end.

(** The order of a sorted set: by score, then by member. *)
Definition zless (a b : string * Z) : bool :=
  (a.2 <? b.2) || ((a.2 =? b.2) && String.ltb a.1 b.1).

Definition zmin (l : list (string * Z)) : option (string * Z) :=
  foldr (λ x acc, match acc with
                  | None => Some x
                  | Some y => if zless x y then Some x else Some y
                  end) None l.

(** [ZRANGE key 0 0 WITHSCORES]: the first element of the sorted set. *)
Definition cmd_zrange_first (key : string) : cmd (list (string * Z)) := λ now db,
  match lookup_live now db key with
  | None => (db, Ok [])
  | Some (Entry (RZSet z) _) => (db, Ok (option_list (zmin (map_to_list z))))
  | Some _ => (db, Raise WRONGTYPE)
  end.

(** A pipeline ([MULTI]/[EXEC]): every queued command runs, also after one
    of them failed, and [execute()] raises the first error among the
    replies. *)
Definition pipe {A B} (c1 : cmd A) (c2 : cmd B) : cmd (A * B) := λ now db,
  let '(db1, r1) := c1 now db in
  let '(db2, r2) := c2 now db1 in
  (db2, match r1, r2 with
        | Ok a, Ok b => Ok (a, b)
        | Raise e, _ => Raise e
        | Ok _, Raise e => Raise e
        end).

(** ** Users: app/models/user.py and app/repositories/user_repository.py *)

Inductive UserRole := DEVELOPER | MANAGER | ADMIN.

Definition role_value (r : UserRole) : string :=
  match r with
  | DEVELOPER => "developer"
  | MANAGER => "manager"
  | ADMIN => "admin"
  end.

#[global] Instance UserRole_eq_dec : EqDecision UserRole.
Proof. solve_decision. Defined.

Module User.
Record t := {
  id : string;
  username : string;
  email : string;
  password_hash : string;
  role : UserRole;
  is_active : bool;
  last_login : option Z
}.

Definition with_last_login (u : t) (at_ : Z) : t :=
  {| id := id u; username := username u; email := email u;
     password_hash := password_hash u; role := role u;
     is_active := is_active u; last_login := Some at_ |}.

Definition with_password_hash (u : t) (h : string) : t :=
  {| id := id u; username := username u; email := email u;
     password_hash := h; role := role u;
     is_active := is_active u; last_login := last_login u |}.

Definition with_is_active (u : t) (active : bool) : t :=
  {| id := id u; username := username u; email := email u;
     password_hash := password_hash u; role := role u;
     is_active := active; last_login := last_login u |}.

(** The role properties of the model. *)
Definition is_admin (u : t) : bool := bool_decide (role u = ADMIN).

Definition is_manager (u : t) : bool := bool_decide (role u = MANAGER).

Definition is_developer (u : t) : bool := bool_decide (role u = DEVELOPER).

Definition can_create_project (u : t) : bool :=
  bool_decide (role u ∈ [MANAGER; ADMIN]).
End User.

(** ** The state of the service and the monad of its operations *)

Record state := State { redis_db : redis; users : list User.t }.

(** A computation reads the clock, transforms the state and returns a value
    or raises; the state reached before a [raise] is kept. *)
Definition M (A : Type) : Type := Z → state → state * result A.

Definition ret {A} (a : A) : M A := λ _ s, (s, Ok a).

Definition raise {A} (e : error) : M A := λ _ s, (s, Raise e).

Definition bind {A B} (m : M A) (k : A → M B) : M B := λ now s,
  match m now s with
  | (s', Ok a) => k a now s'
  | (s', Raise e) => (s', Raise e)
  end.

Notation "'let!' x ':=' m 'in' k" := (bind m (λ x, k))
  (at level 10, x pattern, m at level 100, k at level 200).

Definition time : M Z := λ now s, (s, Ok now).

(** A call of the store client. *)
Definition redis_call {A} (c : cmd A) : M A := λ now s,
  let '(db, r) := c now (redis_db s) in
  (State db (users s), r).

(** [try: body except (classes): pass]. *)
Definition try_pass (body : M unit) (caught : error → bool) : M unit := λ now s,
  match body now s with
  | (s', Raise e) => if caught e then (s', Ok ()) else (s', Raise e)
  | r => r
  end.

(** The repository: rows are found by equality on a column. *)
Definition user_repo_get (id : string) : M (option User.t) := λ _ s,
  (s, Ok (find (λ u, bool_decide (User.id u = id)) (users s))).

Definition user_repo_get_by_email (email : string) : M (option User.t) := λ _ s,
  (s, Ok (find (λ u, bool_decide (User.email u = email)) (users s))).

(** Writing back a changed row replaces the row of that id. *)
Definition save_user (u : User.t) (rows : list User.t) : list User.t :=
  map (λ r, if bool_decide (User.id r = User.id u) then u else r) rows.

Definition user_repo_update_last_login (user : User.t) : M User.t := λ now s,
  let user' := User.with_last_login user now in
  (State (redis_db s) (save_user user' (users s)), Ok user').

Definition user_repo_update_password_hash (user : User.t) (h : string) : M User.t :=
  λ _ s,
  let user' := User.with_password_hash user h in
  (State (redis_db s) (save_user user' (users s)), Ok user').

Definition user_repo_update_is_active (user : User.t) (active : bool) : M User.t :=
  λ _ s,
  let user' := User.with_is_active user active in
  (State (redis_db s) (save_user user' (users s)), Ok user').

(** The [exclude_id] filter of the two existence checks. *)
Definition excluded (exclude_id : option string) (u : User.t) : bool :=
  match exclude_id with
  | Some id => bool_decide (User.id u = id)
  | None => false
  end.

Definition user_repo_email_exists (email : string) (exclude_id : option string)
    : M bool := λ _ s,
  (s, Ok (if find (λ u, bool_decide (User.email u = email)
                        && negb (excluded exclude_id u)) (users s)
          is Some _ then true else false)).

Definition user_repo_username_exists (username : string)
    (exclude_id : option string) : M bool := λ _ s,
  (s, Ok (if find (λ u, bool_decide (User.username u = username)
                        && negb (excluded exclude_id u)) (users s)
          is Some _ then true else false)).

(** Modelled from the spec: the immutable unique id of a new row is drawn by
    the model base class, which is not part of the source tree; like the
    random ids of tokens it is an explicit argument. A column without a value
    and without a default ([last_login]) is empty. *)
Definition user_repo_create (new_id username email password_hash : string)
    (role : UserRole) (is_active : bool) : M User.t := λ _ s,
  let user := {|
    User.id := new_id;
    User.username := username;
    User.email := email;
    User.password_hash := password_hash;
    User.role := role;
    User.is_active := is_active;
    User.last_login := None |} in
  (State (redis_db s) (users s ++ [user]), Ok user).

(** ** Password hashing: app/core/security/password.py

    The Argon2 primitives are an interface; the fresh salt of [hash] is part
    of the function. *)
Class PasswordHasher := {
  hash : string → string;
  verify : string → string → bool
}.

(** ** Tokens: app/schemas/auth.py and app/core/security/jwt.py *)

Module TokenPayload.
Record t := {
  sub : string;
  email : string;
  role : string;
  type : string;
  jti : string;
  iat : Z;
  exp : Z
}.
End TokenPayload.

Record TokenResponse (token : Type) := {
  access_token : token;
  refresh_token : token;
  token_type : string;
  expires_in : Z
}.
Arguments access_token {token} _.
Arguments refresh_token {token} _.
Arguments token_type {token} _.
Arguments expires_in {token} _.

(** A token string, seen through what the codec makes of it: either it is
    not a compact signed token at all, or it carries claims and a signature
    that does or does not verify under the public key. *)
Inductive token :=
  | Malformed (why : string)
  | Signed (genuine : bool) (claims : TokenPayload.t).

Inductive decoded :=
  | Decoded (claims : TokenPayload.t)
  | ExpiredSignatureError
  | JWTError (why : string).

(** Modelled from the spec: [jwt.encode] and [jwt.decode] of the third-party
    token library, which is not part of the source tree. Signing with the
    private key makes a token whose signature verifies; decoding checks the
    signature and then the expiry, and fails with the expiry error exactly when
    [now > expires_at]. *)
Definition jwt_encode (payload : TokenPayload.t) : token := Signed true payload.

Definition jwt_decode (now : Z) (tok : token) : decoded :=
  match tok with
  | Malformed why => JWTError why
  | Signed false _ => JWTError "Signature verification failed."
  | Signed true claims =>
      if TokenPayload.exp claims <? now then ExpiredSignatureError
      else Decoded claims
  end.

Module JWTService.
Section JWTService.
Context (settings : Settings).

Definition _create_token (user_id email role token_type : string)
    (expires_delta : Z) (token_id : string) : M (token * string) :=
  let! now := time in
  let payload := {|
    TokenPayload.sub := user_id;
    TokenPayload.email := email;
    TokenPayload.role := role;
    TokenPayload.type := token_type;
    TokenPayload.jti := token_id;
    TokenPayload.iat := now;
    TokenPayload.exp := now + expires_delta |} in
  ret (jwt_encode payload, token_id).

(** [expires_delta] is left at its default by every caller. *)
Definition create_access_token (user_id email role token_id : string)
    : M (token * string) :=
  let expires_delta := access_token_expire_minutes settings * 60 in
  _create_token user_id email role "access" expires_delta token_id.

Definition create_refresh_token (user_id email role token_id : string)
    : M (token * string) :=
  let expires_delta := refresh_token_expire_days settings * 86400 in
  _create_token user_id email role "refresh" expires_delta token_id.

Definition verify_token (tok : token) : M TokenPayload.t :=
  let! now := time in
  match jwt_decode now tok with
  | Decoded payload => ret payload
  | ExpiredSignatureError => raise TokenExpiredError
  | JWTError e => raise (TokenInvalidError ("Invalid token: " +:+ e))
  end.

End JWTService.
End JWTService.

(** Python truthiness of a string and of an optional string. *)
Definition truthy (s : string) : bool :=
  match s with
  | EmptyString => false
  | String _ _ => true
  end.

(** ** The store client wrapper: app/core/redis.py *)

Module RedisClient.
Definition set (key v : string) (ex : option Z) : M unit :=
  redis_call (cmd_set key v ex).

Definition delete (key : string) : M unit := redis_call (cmd_delete key).

Definition exists_ (key : string) : M bool :=
  let! n := redis_call (cmd_exists key) in
  ret (0 <? n).

Definition expire (key : string) (seconds : Z) : M unit :=
  redis_call (cmd_expire key seconds).

Definition ttl (key : string) : M Z := redis_call (cmd_ttl key).

Definition sadd (key v : string) : M Z := redis_call (cmd_sadd key v).
End RedisClient.

(** ** Token blacklist and session sets: app/core/security/token_blacklist.py *)

Module TokenBlacklist.
Definition KEY_PREFIX : string := "token:blacklist:".
Definition USER_SESSIONS_PREFIX : string := "user:sessions:".

Section TokenBlacklist.
Context (settings : Settings).

Definition blacklist_token (jti : string) (exp : Z) (user_id : option string)
    : M unit :=
  let! now := time in
  let ttl := Z.max (exp - now) 0 in
  if 0 <? ttl then
    let key := KEY_PREFIX +:+ jti in
    let! _ := RedisClient.set key "1" (Some ttl) in
    match user_id with
    | Some uid =>
        if truthy uid then
          let sessions_key := USER_SESSIONS_PREFIX +:+ uid in
          let! _ := redis_call (cmd_srem sessions_key jti) in
          ret ()
        else ret ()
    | None => ret ()
    end
  else ret ().

Definition is_blacklisted (jti : string) : M bool :=
  let key := KEY_PREFIX +:+ jti in
  RedisClient.exists_ key.

Definition add_user_session (user_id jti : string) (ttl : Z) : M unit :=
  let key := USER_SESSIONS_PREFIX +:+ user_id in
  let! _ := RedisClient.sadd key jti in
  RedisClient.expire key ttl.

Definition get_user_sessions (user_id : string) : M (gset string) :=
  let key := USER_SESSIONS_PREFIX +:+ user_id in
  redis_call (cmd_smembers key).

(** The body of [for jti in sessions], over the members in the order the
    store returned them. *)
Fixpoint blacklist_each (sessions : list string) (count : Z) : M Z :=
  match sessions with
  | [] => ret count
  | jti :: rest =>
      let ttl := refresh_token_expire_days settings * 24 * 60 * 60 in
      let key := KEY_PREFIX +:+ jti in
      let! _ := RedisClient.set key "1" (Some ttl) in
      blacklist_each rest (count + 1)
  end.

Definition invalidate_all_user_sessions (user_id : string) : M Z :=
  let sessions_key := USER_SESSIONS_PREFIX +:+ user_id in
  let! sessions := redis_call (cmd_smembers sessions_key) in
  if decide (sessions = ∅) then ret 0
  else
    let! count := blacklist_each (elements sessions) 0 in
    let! _ := RedisClient.delete sessions_key in
    ret count.

End TokenBlacklist.
End TokenBlacklist.

(** ** Rate limiting and account lockout: app/core/security/rate_limiter.py *)

Module RateLimiter.
Definition GLOBAL_PREFIX : string := "ratelimit:global:".
Definition LOGIN_PREFIX : string := "ratelimit:login:".
Definition ACCOUNT_LOCK_PREFIX : string := "account:locked:".

Definition MAX_FAILED_ATTEMPTS : Z := 5.
Definition LOCKOUT_DURATION : Z := 900.

Section RateLimiter.
Context (settings : Settings).

(** Returns [(allowed, remaining, retry_after)]. *)
Definition check_rate_limit (key : string) (limit window : Z) (prefix : string)
    : M (bool * Z * Z) :=
  let redis_key := prefix +:+ key in
  let! current_time := time in
  let window_start := current_time - window in
  let! results := redis_call
    (pipe (pipe (pipe
       (cmd_zremrangebyscore redis_key 0 window_start)
       (cmd_zcard redis_key))
       (cmd_zadd redis_key (pretty current_time) current_time))
       (cmd_expire redis_key window)) in
  let request_count := results.1.1.2 in
  if limit <=? request_count then
    let! oldest_request := redis_call (cmd_zrange_first redis_key) in
    let retry_after :=
      match oldest_request with
      | oldest :: _ => oldest.2 + window - current_time
      | [] => window
      end in
    ret (false, 0, Z.max retry_after 1)
  else
    let remaining := limit - request_count - 1 in
    ret (true, remaining, 0).

Definition check_global_limit (identifier : string) : M (bool * Z * Z) :=
  check_rate_limit identifier (rate_limit_requests settings)
    (rate_limit_window settings) GLOBAL_PREFIX.

Definition check_login_limit (identifier : string) : M (bool * Z * Z) :=
  check_rate_limit identifier (login_rate_limit_requests settings)
    (login_rate_limit_window settings) LOGIN_PREFIX.

Definition lock_account (identifier : string) : M unit :=
  let key := ACCOUNT_LOCK_PREFIX +:+ identifier in
  RedisClient.set key "1" (Some LOCKOUT_DURATION).

(** Returns [(account_locked, attempts_remaining)]. *)
Definition record_failed_login (identifier : string) : M (bool * Z) :=
  let key := LOGIN_PREFIX +:+ "failed:" +:+ identifier in
  let! current_time := time in
  let window := login_rate_limit_window settings in
  let! results := redis_call
    (pipe (pipe (pipe
       (cmd_zremrangebyscore key 0 (current_time - window))
       (cmd_zadd key (pretty current_time) current_time))
       (cmd_zcard key))
       (cmd_expire key window)) in
  let failure_count := results.1.2 in
  if MAX_FAILED_ATTEMPTS <=? failure_count then
    let! _ := lock_account identifier in
    ret (true, 0)
  else ret (false, MAX_FAILED_ATTEMPTS - failure_count).

Definition clear_failed_logins (identifier : string) : M unit :=
  let key := LOGIN_PREFIX +:+ "failed:" +:+ identifier in
  RedisClient.delete key.

(** Returns [(is_locked, seconds_remaining)]. *)
Definition is_account_locked (identifier : string) : M (bool * option Z) :=
  let key := ACCOUNT_LOCK_PREFIX +:+ identifier in
  let! found := RedisClient.exists_ key in
  if negb found then ret (false, None)
  else
    let! ttl := RedisClient.ttl key in
    ret (true, Some (Z.max ttl 0)).

Definition unlock_account (identifier : string) : M unit :=
  let key := ACCOUNT_LOCK_PREFIX +:+ identifier in
  let! _ := RedisClient.delete key in
  clear_failed_logins identifier.

End RateLimiter.
End RateLimiter.

(** ** The authentication service: app/services/auth_service.py *)

Record LoginRequest := { login_email : string; login_password : string }.

Record RegisterRequest := {
  register_username : string;
  register_email : string;
  register_password : string
}.

(** How an f-string prints an [Optional[int]]. *)
Definition format_optional_int (n : option Z) : string :=
  match n with
  | Some n => pretty n
  | None => "None"
  end.

Module AuthService.
Section AuthService.
Context (settings : Settings) {password_hasher : PasswordHasher}.

Definition register (data : RegisterRequest) (new_id : string) : M User.t :=
  let! email_taken := user_repo_email_exists (register_email data) None in
  if email_taken then raise (DuplicateError "email" (register_email data))
  else
    let! username_taken :=
      user_repo_username_exists (register_username data) None in
    if username_taken then
      raise (DuplicateError "username" (register_username data))
    else
      let password_hash := hash (register_password data) in
      user_repo_create new_id (register_username data) (register_email data)
        password_hash DEVELOPER true.

Definition _create_tokens (user : User.t) (access_jti refresh_jti : string)
    : M (TokenResponse token) :=
  let user_id := User.id user in
  let! access := JWTService.create_access_token settings
    user_id (User.email user) (role_value (User.role user)) access_jti in
  let! refresh := JWTService.create_refresh_token settings
    user_id (User.email user) (role_value (User.role user)) refresh_jti in
  let refresh_ttl := refresh_token_expire_days settings * 24 * 60 * 60 in
  let! _ := TokenBlacklist.add_user_session user_id refresh.2 refresh_ttl in
  ret {| access_token := access.1;
         refresh_token := refresh.1;
         token_type := "bearer";
         expires_in := access_token_expire_minutes settings * 60 |}.

Definition login (data : LoginRequest) (client_ip : string)
    (access_jti refresh_jti : string) : M (User.t * TokenResponse token) :=
  let! (is_locked, remaining) :=
    RateLimiter.is_account_locked (login_email data) in
  if is_locked then
    raise (AccountLockedError
             ("Account temporarily locked. Try again in "
              +:+ format_optional_int remaining +:+ " seconds."))
  else
    let! found := user_repo_get_by_email (login_email data) in
    match found with
    | None =>
        let! _ := RateLimiter.record_failed_login settings (login_email data) in
        raise (InvalidCredentialsError "Invalid email or password")
    | Some user =>
        if negb (User.is_active user) then
          raise (AuthenticationError "Account is deactivated")
        else if negb (verify (login_password data) (User.password_hash user)) then
          let! (locked, attempts_remaining) :=
            RateLimiter.record_failed_login settings (login_email data) in
          if locked then
            raise (AccountLockedError
                     "Too many failed attempts. Account temporarily locked.")
          else raise (InvalidCredentialsError "Invalid email or password")
        else
          let! _ := RateLimiter.clear_failed_logins (login_email data) in
          let! user := user_repo_update_last_login user in
          let! tokens := _create_tokens user access_jti refresh_jti in
          ret (user, tokens)
    end.

Definition refresh_tokens (refresh_token : token)
    (access_jti refresh_jti : string) : M (TokenResponse token) :=
  let! payload := JWTService.verify_token refresh_token in
  if negb (String.eqb (TokenPayload.type payload) "refresh") then
    raise (TokenInvalidError "Invalid token type")
  else
    let! blacklisted := TokenBlacklist.is_blacklisted (TokenPayload.jti payload) in
    if blacklisted then raise TokenBlacklistedError
    else
      let! found := user_repo_get (TokenPayload.sub payload) in
      match found with
      | None => raise (TokenInvalidError "User not found or inactive")
      | Some user =>
          if negb (User.is_active user) then
            raise (TokenInvalidError "User not found or inactive")
          else
            let! _ := TokenBlacklist.blacklist_token
              (TokenPayload.jti payload) (TokenPayload.exp payload)
              (Some (TokenPayload.sub payload)) in
            _create_tokens user access_jti refresh_jti
      end.

Definition expired_or_invalid (e : error) : bool :=
  match e with
  | TokenExpiredError | TokenInvalidError _ => true
  | _ => false
  end.

(** One of the two [try] blocks of [logout]. *)
Definition logout_one (tok : token) : M unit :=
  try_pass
    (let! payload := JWTService.verify_token tok in
     TokenBlacklist.blacklist_token
       (TokenPayload.jti payload) (TokenPayload.exp payload)
       (Some (TokenPayload.sub payload)))
    expired_or_invalid.

Definition logout (access_token refresh_token : token) : M unit :=
  let! _ := logout_one access_token in
  logout_one refresh_token.

Definition logout_all_devices (user_id : string) : M Z :=
  TokenBlacklist.invalidate_all_user_sessions settings user_id.

Definition verify_token (tok : token) : M TokenPayload.t :=
  let! payload := JWTService.verify_token tok in
  if negb (String.eqb (TokenPayload.type payload) "access") then
    raise (TokenInvalidError "Invalid token type")
  else
    let! blacklisted := TokenBlacklist.is_blacklisted (TokenPayload.jti payload) in
    if blacklisted then raise TokenBlacklistedError
    else ret payload.

Definition change_password (user : User.t)
    (current_password new_password : string) : M unit :=
  if negb (verify current_password (User.password_hash user)) then
    raise (InvalidCredentialsError "Current password is incorrect")
  else
    let new_hash := hash new_password in
    let! _ := user_repo_update_password_hash user new_hash in
    let! _ := TokenBlacklist.invalidate_all_user_sessions settings (User.id user) in
    ret ().

End AuthService.
End AuthService.

(** A hasher to run the service on concrete inputs. *)
Definition plain_hasher : PasswordHasher := {|
  hash := λ password, "$argon2id$" +:+ password;
  verify := λ password digest, String.eqb digest ("$argon2id$" +:+ password)
|}.

(** ** What the layers above the core raise: app/core/exceptions.py

    The message of a core exception, which is also what [str(e)] prints. *)
Definition message (e : error) : string :=
  match e with
  | AuthenticationError m => m
  | InvalidCredentialsError m => m
  | TokenExpiredError => "Token has expired"
  | TokenInvalidError m => m
  | TokenBlacklistedError => "Token has been revoked"
  | AccountLockedError m => m
  | DuplicateError field v => field +:+ " '" +:+ v +:+ "' already exists"
  | ResponseError m => m
  end.

(** [isinstance(e, AuthenticationError)]. *)
Definition is_authentication_error (e : error) : bool :=
  match e with
  | DuplicateError _ _ | ResponseError _ => false
  | _ => true
  end.

(** The exceptions of the service and boundary layers: those of the core,
    [NotFoundError], and the framework's [HTTPException]. *)
Inductive exception :=
  | CoreError (e : error)
  | NotFoundError (resource identifier : string)
  | HTTPException (status_code : Z) (detail : string)
      (headers : option (list (string * string))).

Inductive outcome (A : Type) :=
  | Returned (a : A)
  | Thrown (x : exception).
Arguments Returned {A} a.
Arguments Thrown {A} x.

(** A computation of the boundary layer; as in [M], the state reached before
    an exception is kept. *)
Definition Handler (A : Type) : Type := Z → state → state * outcome A.

Definition hret {A} (a : A) : Handler A := λ _ s, (s, Returned a).

Definition throw {A} (x : exception) : Handler A := λ _ s, (s, Thrown x).

Definition hbind {A B} (m : Handler A) (k : A → Handler B) : Handler B := λ now s,
  match m now s with
  | (s', Returned a) => k a now s'
  | (s', Thrown x) => (s', Thrown x)
  end.

Notation "'let*' x ':=' m 'in' k" := (hbind m (λ x, k))
  (at level 10, x pattern, m at level 100, k at level 200).

(** A call into the core. *)
Definition lift {A} (m : M A) : Handler A := λ now s,
  match m now s with
  | (s', Ok a) => (s', Returned a)
  | (s', Raise e) => (s', Thrown (CoreError e))
  end.

(** [try: body except ...]: the clauses, read in order, give the handler of
    an exception or let it pass. *)
Definition try_except {A} (body : Handler A)
    (clauses : exception → option (Handler A)) : Handler A := λ now s,
  match body now s with
  | (s', Thrown x) =>
      match clauses x with
      | Some handler => handler now s'
      | None => (s', Thrown x)
      end
  | r => r
  end.

(** ** The user service: app/services/user_service.py *)

Module UserService.
Definition get_user (user_id : string) : Handler User.t :=
  let* user := lift (user_repo_get user_id) in
  match user with
  | None => throw (NotFoundError "User" user_id)
  | Some user => hret user
  end.

Definition deactivate_user (user_id : string) : Handler User.t :=
  let* user := get_user user_id in
  lift (user_repo_update_is_active user false).

Definition activate_user (user_id : string) : Handler User.t :=
  let* user := get_user user_id in
  lift (user_repo_update_is_active user true).
End UserService.

(** ** The string methods the boundary layer calls

    Header values and paths are strings of one-byte characters. *)
Module str.
Definition isspace (c : Ascii.ascii) : bool :=
  let n := Ascii.N_of_ascii c in
  ((9 <=? n) && (n <=? 13) || (28 <=? n) && (n <=? 32)
   || (n =? 133) || (n =? 160))%N.

Fixpoint lstrip (s : string) : string :=
  match s with
  | EmptyString => EmptyString
  | String c rest => if isspace c then lstrip rest else s
  end.

(** Whitespace is dropped from the right end: a character goes when it is
    white and everything after it went. *)
Fixpoint rstrip (s : string) : string :=
  match s with
  | EmptyString => EmptyString
  | String c rest =>
      match rstrip rest with
      | EmptyString => if isspace c then EmptyString else String c EmptyString
      | kept => String c kept
      end
  end.

Definition strip (s : string) : string := rstrip (lstrip s).

(** [s.split(sep)] for a separator of one character. *)
Fixpoint split (sep : Ascii.ascii) (s : string) : list string :=
  match s with
  | EmptyString => [EmptyString]
  | String c rest =>
      if Ascii.eqb c sep then EmptyString :: split sep rest
      else match split sep rest with
           | first :: others => String c first :: others
           | [] => [String c EmptyString]
           end
  end.

(** [s.replace(old, "")] for a non-empty [old]: [skip] characters of an
    occurrence that was found are still to be dropped. *)
Fixpoint remove_from (old : string) (skip : nat) (s : string) : string :=
  match s with
  | EmptyString => EmptyString
  | String c rest =>
      match skip with
      | S k => remove_from old k rest
      | O =>
          if String.prefix old s
          then remove_from old (String.length old - 1) rest
          else String c (remove_from old 0 rest)
      end
  end.

Definition remove (old s : string) : string := remove_from old 0 s.

Definition startswith (s prefix : string) : bool := String.prefix prefix s.

(** [s.lower()], on the letters of a header name. *)
Definition lower_char (c : Ascii.ascii) : Ascii.ascii :=
  let n := Ascii.N_of_ascii c in
  if ((65 <=? n) && (n <=? 90))%N then Ascii.ascii_of_N (n + 32) else c.

Fixpoint lower (s : string) : string :=
  match s with
  | EmptyString => EmptyString
  | String c rest => String (lower_char c) (lower rest)
  end.

(** [repr] of a list of plain strings, as an f-string prints it. *)
Fixpoint repr_items (items : list string) : string :=
  match items with
  | [] => ""
  | [item] => "'" +:+ item +:+ "'"
  | item :: rest => "'" +:+ item +:+ "', " +:+ repr_items rest
  end.

Definition repr_list (items : list string) : string :=
  "[" +:+ repr_items items +:+ "]".
End str.

(** ** Requests and responses

    The headers of a message are a list of pairs whose names the server
    delivers in lower case; a lookup lowers the name it is given. *)
Module Headers.
Definition get (name : string) (headers : list (string * string))
    : option string :=
  snd <$> find (λ kv, String.eqb kv.1 (str.lower name)) headers.

(** [headers[name] = value]: the first entry of that name is overwritten and
    the others are dropped; without one the entry is appended. *)
Fixpoint set_first (key v : string) (headers : list (string * string))
    : list (string * string) :=
  match headers with
  | [] => [(key, v)]
  | kv :: rest =>
      if String.eqb kv.1 key
      then (key, v) :: filter (λ kv, String.eqb kv.1 key = false) rest
      else kv :: set_first key v rest
  end.

Definition set (name v : string) (headers : list (string * string))
    : list (string * string) :=
  set_first (str.lower name) v headers.
End Headers.

Record Request := {
  url_path : string;
  request_headers : list (string * string);
  client_host : option string
}.

#[local] Unset Elimination Schemes.
Inductive json :=
  | JNull
  | JBool (b : bool)
  | JNumber (n : Z)
  | JString (s : string)
  | JArray (items : list json)
  | JObject (fields : list (string * json)).
#[local] Set Elimination Schemes.

(** A response: its status, its JSON content and the headers the code gave
    it. *)
Record Response := {
  status_code : Z;
  content : json;
  response_headers : list (string * string)
}.

(** [JSONResponse(status_code=..., content=..., headers=...)]. *)
Definition JSONResponse (status : Z) (body : json)
    (headers : list (string * string)) : Response := {|
  status_code := status;
  content := body;
  response_headers := (λ kv, (str.lower kv.1, kv.2)) <$> headers |}.

Definition with_header (name v : string) (response : Response) : Response := {|
  status_code := status_code response;
  content := content response;
  response_headers := Headers.set name v (response_headers response) |}.

(** ** The rate-limit middleware: app/middleware/rate_limit.py *)

Module RateLimitMiddleware.
Definition get_client_ip (request : Request) : string :=
  let fallback := default "unknown" (client_host request) in
  match Headers.get "X-Forwarded-For" (request_headers request) with
  | Some forwarded =>
      if truthy forwarded
      then str.strip (default "" (head (str.split ","%char forwarded)))
      else fallback
  | None => fallback
  end.

Definition EXCLUDED_PATHS : list string :=
  ["/health"; "/ready"; "/docs"; "/redoc"; "/openapi.json"].

Section RateLimitMiddleware.
Context (settings : Settings).

Definition dispatch (request : Request) (call_next : Request → Handler Response)
    : Handler Response :=
  if bool_decide (url_path request ∈ EXCLUDED_PATHS) then call_next request
  else
    let client_ip := get_client_ip request in
    let* (allowed, remaining, retry_after) :=
      lift (RateLimiter.check_global_limit settings client_ip) in
    if negb allowed then
      hret (JSONResponse 429
              (JObject [("detail",
                 JObject [("code", JString "RATE_LIMIT_EXCEEDED");
                          ("message",
                           JString "Too many requests. Please try again later.")])])
              [("Retry-After", pretty retry_after)])
    else
      let* response := call_next request in
      hret (with_header "X-RateLimit-Remaining" (pretty remaining) response).

End RateLimitMiddleware.
End RateLimitMiddleware.

(** ** The dependencies of the routes: app/api/deps.py *)

Module Deps.
Definition get_client_ip (request : Request) : string :=
  let fallback := default "unknown" (client_host request) in
  match Headers.get "X-Forwarded-For" (request_headers request) with
  | Some forwarded =>
      if truthy forwarded
      then str.strip (default "" (head (str.split ","%char forwarded)))
      else fallback
  | None => fallback
  end.

Definition WWW_AUTHENTICATE : option (list (string * string)) :=
  Some [("WWW-Authenticate", "Bearer")].

Section Deps.
(** [codec] is what the token codec makes of a token string. *)
Context (settings : Settings) (codec : string → token).

Definition get_current_user (authorization : string) : Handler User.t :=
  if negb (str.startswith authorization "Bearer ") then
    throw (HTTPException 401 "Invalid authorization header format"
             WWW_AUTHENTICATE)
  else
    let tok := nth 1 (str.split " "%char authorization) "" in
    try_except
      (let* payload := lift (AuthService.verify_token (codec tok)) in
       let* user := lift (user_repo_get (TokenPayload.sub payload)) in
       match user with
       | None => throw (HTTPException 401 "User not found" WWW_AUTHENTICATE)
       | Some user =>
           if negb (User.is_active user) then
             throw (HTTPException 401 "User account is deactivated"
                      WWW_AUTHENTICATE)
           else hret user
       end)
      (λ x, match x with
            | CoreError TokenExpiredError =>
                Some (throw (HTTPException 401 "Token has expired"
                               WWW_AUTHENTICATE))
            | CoreError TokenBlacklistedError =>
                Some (throw (HTTPException 401 "Token has been revoked"
                               WWW_AUTHENTICATE))
            | CoreError e =>
                if is_authentication_error e
                then Some (throw (HTTPException 401 (message e) WWW_AUTHENTICATE))
                else None
            | _ => None
            end).

Definition get_optional_user (authorization : option string)
    : Handler (option User.t) :=
  match authorization with
  | None => hret None
  | Some authorization =>
      if negb (truthy authorization) then hret None
      else
        try_except
          (let* user := get_current_user authorization in hret (Some user))
          (λ x, match x with
                | HTTPException _ _ _ => Some (hret None)
                | _ => None
                end)
  end.

(** The checker that [require_roles] returns for the given roles. *)
Definition require_roles (roles : list UserRole) (current_user : User.t)
    : Handler User.t :=
  if negb (bool_decide (User.role current_user ∈ roles)) then
    throw (HTTPException 403
             ("Requires one of roles: "
              +:+ str.repr_list (role_value <$> roles))
             None)
  else hret current_user.

Definition RequireAdmin : User.t → Handler User.t := require_roles [ADMIN].

Definition RequireManager : User.t → Handler User.t :=
  require_roles [MANAGER; ADMIN].

Definition RequireDeveloper : User.t → Handler User.t :=
  require_roles [DEVELOPER; MANAGER; ADMIN].

Definition rate_limit_check (request : Request) : Handler unit :=
  let client_ip := get_client_ip request in
  let* (allowed, remaining, retry_after) :=
    lift (RateLimiter.check_global_limit settings client_ip) in
  if negb allowed then
    throw (HTTPException 429 "Rate limit exceeded"
             (Some [("Retry-After", pretty retry_after)]))
  else hret ().

Definition login_rate_limit_check (request : Request) : Handler unit :=
  let client_ip := get_client_ip request in
  let* (allowed, remaining, retry_after) :=
    lift (RateLimiter.check_login_limit settings client_ip) in
  if negb allowed then
    throw (HTTPException 429 "Too many login attempts"
             (Some [("Retry-After", pretty retry_after)]))
  else hret ().

End Deps.
End Deps.

(** ** The authentication routes: app/api/v1/auth.py

    A route function takes what the framework resolved for it: the parsed
    body, the request, the current user. *)
Module AuthRouter.
Section AuthRouter.
Context (settings : Settings) {password_hasher : PasswordHasher}
  (codec : string → token).

Definition register (data : RegisterRequest) (new_id : string) : Handler User.t :=
  try_except
    (lift (AuthService.register data new_id))
    (λ x, match x with
          | CoreError (DuplicateError field v) =>
              Some (throw (HTTPException 409 (message (DuplicateError field v))
                             None))
          | _ => None
          end).

Definition login (request : Request) (data : LoginRequest)
    (access_jti refresh_jti : string) : Handler (TokenResponse token) :=
  try_except
    (let client_ip := Deps.get_client_ip request in
     let* (user, tokens) :=
       lift (AuthService.login settings data client_ip access_jti refresh_jti) in
     hret tokens)
    (λ x, match x with
          | CoreError (AccountLockedError m) =>
              Some (throw (HTTPException 423 m None))
          | CoreError (InvalidCredentialsError m) =>
              Some (throw (HTTPException 401 m None))
          | CoreError e =>
              if is_authentication_error e
              then Some (throw (HTTPException 401 (message e) None))
              else None
          | _ => None
          end).

Definition refresh_token (refresh_token : string)
    (access_jti refresh_jti : string) : Handler (TokenResponse token) :=
  try_except
    (lift (AuthService.refresh_tokens settings (codec refresh_token)
             access_jti refresh_jti))
    (λ x, match x with
          | CoreError TokenExpiredError =>
              Some (throw (HTTPException 401 "Refresh token has expired" None))
          | CoreError (TokenInvalidError m) =>
              Some (throw (HTTPException 401 m None))
          | CoreError TokenBlacklistedError =>
              Some (throw (HTTPException 401 (message TokenBlacklistedError)
                             None))
          | _ => None
          end).

Definition logout (request : Request) (refresh_token : string)
    (current_user : User.t) : Handler unit :=
  let auth_header :=
    default "" (Headers.get "Authorization" (request_headers request)) in
  let access_token := str.remove "Bearer " auth_header in
  lift (AuthService.logout (codec access_token) (codec refresh_token)).

Definition get_me (current_user : User.t) : Handler User.t := hret current_user.

Definition change_password (current_password new_password : string)
    (current_user : User.t) : Handler unit :=
  try_except
    (lift (AuthService.change_password settings current_user
             current_password new_password))
    (λ x, match x with
          | CoreError (InvalidCredentialsError _) =>
              Some (throw (HTTPException 401 "Current password is incorrect"
                             None))
          | _ => None
          end).

Definition logout_all_devices (current_user : User.t) : Handler unit :=
  let* _ := lift (AuthService.logout_all_devices settings (User.id current_user)) in
  hret ().

End AuthRouter.
End AuthRouter.

(** * Observations on a state and auxiliary definitions *)

(** The tombstone of a token id is in force. *)
Definition blacklisted (now : Z) (s : state) (jti : string) : bool :=
  if lookup_live now (redis_db s) (TokenBlacklist.KEY_PREFIX +:+ jti) is Some _
  then true else false.

(** The live session set of a user; empty without the key. *)
Definition sessions_of (now : Z) (s : state) (user_id : string) : gset string :=
  match lookup_live now (redis_db s) (TokenBlacklist.USER_SESSIONS_PREFIX +:+ user_id) with
  | Some (Entry (RSet members) _) => members
  | _ => ∅
  end.

(** The key of a user's session set does not hold a value of another type. *)
Definition sessions_well_typed (now : Z) (s : state) (user_id : string) : Prop :=
  match lookup_live now (redis_db s) (TokenBlacklist.USER_SESSIONS_PREFIX +:+ user_id) with
  | Some (Entry (RSet _) _) | None => True
  | Some _ => False
  end.

(** The lock flag of an account is in force. *)
Definition locked (now : Z) (s : state) (identifier : string) : bool :=
  if lookup_live now (redis_db s) (RateLimiter.ACCOUNT_LOCK_PREFIX +:+ identifier) is Some _
  then true else false.

Arguments blacklisted : simpl never.
Arguments sessions_of : simpl never.
Arguments locked : simpl never.

(** The payloads of the pair that [_create_tokens] signs. *)
Definition issued_payload (user : User.t) (token_type token_id : string)
    (now lifetime : Z) : TokenPayload.t := {|
  TokenPayload.sub := User.id user;
  TokenPayload.email := User.email user;
  TokenPayload.role := role_value (User.role user);
  TokenPayload.type := token_type;
  TokenPayload.jti := token_id;
  TokenPayload.iat := now;
  TokenPayload.exp := now + lifetime |}.

(** The tombstones that the loop of [invalidate_all_user_sessions] writes. *)
Definition tombstones (jtis : list string) (expiry : Z) (db : redis) : redis :=
  foldl (λ db jti,
           <[TokenBlacklist.KEY_PREFIX +:+ jti := Entry (RString "1") (Some expiry)]> db)
        db jtis.

(** The lifetime of a refresh token and of a session set, in seconds. *)
Definition refresh_lifetime (settings : Settings) : Z :=
  refresh_token_expire_days settings * 24 * 60 * 60.

(** The pair that [_create_tokens] returns. *)
Definition issued_pair (settings : Settings) (user : User.t)
    (access_jti refresh_jti : string) (now : Z) : TokenResponse token := {|
  access_token := Signed true (issued_payload user "access" access_jti now
                    (access_token_expire_minutes settings * 60));
  refresh_token := Signed true (issued_payload user "refresh" refresh_jti now
                     (refresh_token_expire_days settings * 86400));
  token_type := "bearer";
  expires_in := access_token_expire_minutes settings * 60 |}.

(** The sorted set under a key; empty without the key. *)
Definition zset_at (now : Z) (db : redis) (key : string) : gmap string Z :=
  match lookup_live now db key with
  | Some (Entry (RZSet z) _) => z
  | _ => ∅
  end.

(** The key of a window does not hold a value of another type. *)
Definition zset_well_typed (now : Z) (db : redis) (key : string) : Prop :=
  match lookup_live now db key with
  | Some (Entry (RZSet _) _) | None => True
  | Some _ => False
  end.

(** What [ZREMRANGEBYSCORE key lo hi] keeps. *)
Definition purge (lo hi : Z) (z : gmap string Z) : gmap string Z :=
  filter (λ kv, ¬ in_score_range lo hi kv) z.

(** The window after a request at [now]: purged, then with the entry of
    this second. *)
Definition window_after (now window : Z) (z : gmap string Z) : gmap string Z :=
  <[pretty now := now]> (purge 0 (now - window) z).

(** The database after the four commands of either pipeline. *)
Definition db_after_window (key : string) (now window : Z) (db : redis) : redis :=
  if window <=? 0 then delete key db
  else <[key := Entry (RZSet (window_after now window (zset_at now db key)))
                      (Some (now + window))]> db.

(** The key of the failed-attempt window of an account. *)
Definition failed_key (identifier : string) : string :=
  RateLimiter.LOGIN_PREFIX +:+ "failed:" +:+ identifier.

(** The key of the lock flag of an account. *)
Definition lock_key (identifier : string) : string :=
  RateLimiter.ACCOUNT_LOCK_PREFIX +:+ identifier.

(** The number of failures that [record_failed_login] counts at [now]. *)
Definition failure_count (settings : Settings) (now : Z) (s : state)
    (identifier : string) : Z :=
  Z.of_nat (size (window_after now (login_rate_limit_window settings)
                    (zset_at now (redis_db s) (failed_key identifier)))).

(** The reply of [TTL] on the lock flag of an account. *)
Definition lock_ttl (now : Z) (s : state) (identifier : string) : Z :=
  match lookup_live now (redis_db s) (lock_key identifier) with
  | None => -2
  | Some e => match expire_at e with
              | None => -1
              | Some t => t - now
              end
  end.

(** The row the repository finds for an email. *)
Definition user_by_email (s : state) (email : string) : option User.t :=
  find (λ u, bool_decide (User.email u = email)) (users s).

(** The first element of a sorted set, the one [ZRANGE key 0 0] returns. *)
Definition oldest (z : gmap string Z) : option (string * Z) :=
  zmin (map_to_list z).

(** The [retry_after] that [check_rate_limit] computes for a denied request,
    before it is floored at 1. *)
Definition retry_after_of (now window : Z) (z : gmap string Z) : Z :=
  if window <=? 0 then window
  else match oldest (window_after now window z) with
       | Some first => first.2 + window - now
       | None => window
       end.

(** The window that holds exactly one entry for each of the given seconds,
    as [check_rate_limit] and [record_failed_login] write them. *)
Definition entries (seconds : list Z) : gmap string Z :=
  list_to_map ((λ t, (pretty t, t)) <$> seconds).

(** What a sliding window of [limit] requests answers to requests at the
    given seconds when [count] requests since [first] are already counted. *)
Fixpoint expected_results (limit window first : Z) (count : nat) (times : list Z)
    : list (result (bool * Z * Z)) :=
  match times with
  | [] => []
  | now :: rest =>
      (if limit <=? Z.of_nat count
       then Ok (false, 0, first + window - now)
       else Ok (true, limit - Z.of_nat count - 1, 0))
      :: expected_results limit window first (S count) rest
  end.

(** At each of the seconds [times] the window under [key] is the one with
    the entries [counted]. *)
Definition window_tracks (key : string) (db : redis) (counted times : list Z)
    : Prop :=
  ∀ t, t ∈ times → zset_well_typed t db key ∧ zset_at t db key = entries counted.

(** The seconds of a window that are younger than [window] at [now]. *)
Definition recent (now window : Z) (counted : list Z) : list Z :=
  filter (λ t, now - window < t) counted.

(** At [now] the window under [key] holds one entry per second, for seconds
    between 0 and [now]: what the limiter leaves when the clock does not go
    back. *)
Definition tidy (now : Z) (db : redis) (key : string) : Prop :=
  zset_well_typed now db key
  ∧ ∃ counted, zset_at now db key = entries counted
               ∧ ∀ c, c ∈ counted → 0 ≤ c ≤ now.

(** A request was allowed. *)
Definition allowed (r : result (bool * Z * Z)) : Prop :=
  ∃ remaining, r = Ok (true, remaining, 0).

(** What [login] raises for wrong passwords at the given seconds when
    [count] failures are already counted. *)
Fixpoint expected_failures {A} (count : nat) (times : list Z) : list (result A) :=
  match times with
  | [] => []
  | _ :: rest =>
      Raise (if RateLimiter.MAX_FAILED_ATTEMPTS <=? Z.of_nat (S count)
             then AccountLockedError
                    "Too many failed attempts. Account temporarily locked."
             else InvalidCredentialsError "Invalid email or password")
      :: expected_failures (S count) rest
  end.

(** ** Histories of calls *)

(** What the service can be asked to do. The change of the user table
    stands for whatever the user-management collaborator does to it. *)
Inductive call :=
  | CallLogin (data : LoginRequest) (client_ip access_jti refresh_jti : string)
  | CallRefresh (tok : token) (access_jti refresh_jti : string)
  | CallLogout (access_token refresh_token : token)
  | CallLogoutAll (user_id : string)
  | CallVerify (tok : token)
  | CallChangePassword (user : User.t) (current new : string)
  | CallGlobalLimit (identifier : string)
  | CallLoginLimit (identifier : string)
  | CallUnlock (identifier : string)
  | CallRepository (change : list User.t → list User.t).

(** The state a call leaves, whatever it returns or raises. *)
Definition after (settings : Settings) {hasher : PasswordHasher}
    (c : call) (now : Z) (s : state) : state :=
  match c with
  | CallLogin data client_ip a r =>
      (AuthService.login settings data client_ip a r now s).1
  | CallRefresh tok a r => (AuthService.refresh_tokens settings tok a r now s).1
  | CallLogout access refresh => (AuthService.logout access refresh now s).1
  | CallLogoutAll user_id => (AuthService.logout_all_devices settings user_id now s).1
  | CallVerify tok => (AuthService.verify_token tok now s).1
  | CallChangePassword user current new =>
      (AuthService.change_password settings user current new now s).1
  | CallGlobalLimit identifier =>
      (RateLimiter.check_global_limit settings identifier now s).1
  | CallLoginLimit identifier =>
      (RateLimiter.check_login_limit settings identifier now s).1
  | CallUnlock identifier => (RateLimiter.unlock_account identifier now s).1
  | CallRepository change => State (redis_db s) (change (users s))
  end.

(** A history: timed calls, one after the other. *)
Definition run_calls (settings : Settings) {hasher : PasswordHasher}
    (calls : list (Z * call)) (s : state) : state :=
  foldl (λ s tc, after settings tc.2 tc.1 s) s calls.

(** The tokens a call presents. *)
Definition presented (c : call) : list token :=
  match c with
  | CallRefresh tok _ _ => [tok]
  | CallLogout access refresh => [access; refresh]
  | CallVerify tok => [tok]
  | _ => []
  end.

(** No genuinely signed token that a call presents carries the id of
    [payload] with an earlier expiry: token ids are unique and signatures
    cannot be forged, so such a token is the one of [payload] itself. *)
Definition honest (payload : TokenPayload.t) (c : call) : Prop :=
  ∀ q, Signed true q ∈ presented c →
       TokenPayload.jti q = TokenPayload.jti payload →
       TokenPayload.exp payload ≤ TokenPayload.exp q.

(** The token id has a tombstone that stays in force at least until
    [expiry]. *)
Definition tombstoned_until (expiry : Z) (s : state) (jti : string) : Prop :=
  ∃ v x, redis_db s !! (TokenBlacklist.KEY_PREFIX +:+ jti) = Some (Entry v x)
         ∧ ∀ t, x = Some t → expiry ≤ t.

(** The token id is in the user's session set, which lives at least until
    [expiry]. *)
Definition tracked_until (expiry : Z) (s : state) (user_id jti : string) : Prop :=
  ∃ members x,
    redis_db s !! (TokenBlacklist.USER_SESSIONS_PREFIX +:+ user_id)
      = Some (Entry (RSet members) x)
    ∧ jti ∈ members
    ∧ ∀ t, x = Some t → expiry ≤ t.

(** The token can still be refused: it is tracked in its owner's session
    set or already has its tombstone. *)
Definition revocable (expiry : Z) (s : state) (user_id jti : string) : Prop :=
  tracked_until expiry s user_id jti ∨ tombstoned_until expiry s jti.

(** A computation run at [now] preserves a property of the state, whether it
    returns or raises. *)
Definition keeps {A} (inv : state → Prop) (now : Z) (m : M A) : Prop :=
  ∀ s, inv s → inv (m now s).1.

(** A computation leaves the entry under [key] as it is. *)
Definition avoids {A} (key : string) (m : M A) : Prop :=
  ∀ now s, redis_db (m now s).1 !! key = redis_db s !! key.

Definition cmd_avoids {A} (key : string) (c : cmd A) : Prop :=
  ∀ now db, (c now db).1 !! key = db !! key.

(** ** Concrete inputs *)

(** Runs timed calls one after the other and collects what they return. *)
Fixpoint run_all {A} (calls : list (Z * M A)) (s : state)
    : state * list (result A) :=
  match calls with
  | [] => (s, [])
  | (now, call) :: rest =>
      let '(s1, r) := call now s in
      let '(s2, rs) := run_all rest s1 in
      (s2, r :: rs)
  end.

Definition alice : User.t := {|
  User.id := "7c9e6679-7425-40de-944b-e07fc1f90ae7";
  User.username := "alice";
  User.email := "alice@x.com";
  User.password_hash := "$argon2id$Str0ng!Pass";
  User.role := DEVELOPER;
  User.is_active := true;
  User.last_login := None |}.

(** A service with one registered user and an empty store. *)
Definition registered : state := State ∅ [alice].

Definition right_password : LoginRequest :=
  {| login_email := "alice@x.com"; login_password := "Str0ng!Pass" |}.

Definition wrong_password : LoginRequest :=
  {| login_email := "alice@x.com"; login_password := "letmein" |}.

Definition unknown_email : LoginRequest :=
  {| login_email := "ghost@x.com"; login_password := "letmein" |}.

Definition alice_login (data : LoginRequest) (access_jti refresh_jti : string)
    : M (User.t * TokenResponse token) :=
  AuthService.login default_settings (password_hasher := plain_hasher)
    data "203.0.113.9" access_jti refresh_jti.

(** Alice logged in at second 1000 and got the tokens [a0] and [r0]. *)
Definition logged_in : state :=
  (alice_login right_password "a0" "r0" 1000 registered).1.

Definition alice_access : TokenPayload.t :=
  issued_payload alice "access" "a0" 1000 900.

Definition alice_refresh : TokenPayload.t :=
  issued_payload alice "refresh" "r0" 1000 604800.

(** Alice refreshed [r0] at second 2000. *)
Definition rotated : state :=
  (AuthService.refresh_tokens default_settings (Signed true alice_refresh)
     "a1" "r1" 2000 logged_in).1.

(** Alice refreshed [r0] in its last second. *)
Definition rotated_late : state :=
  (AuthService.refresh_tokens default_settings (Signed true alice_refresh)
     "a1" "r1" 605800 logged_in).1.

(** Alice logged in a second time, at second 1500, with [a1] and [r1]. *)
Definition logged_in_twice : state :=
  (alice_login right_password "a1" "r1" 1500 logged_in).1.

(** Alice changed her password at second 2000. *)
Definition password_changed : state :=
  (AuthService.change_password default_settings (password_hasher := plain_hasher)
     alice "Str0ng!Pass" "N3w!Passw0rd" 2000 logged_in).1.

(** A history after second 2000: Alice logs in again, somebody presents [r0]
    once more, all her devices are logged out, and a request is counted. *)
Definition busy_history : list (Z * call) :=
  [(2100, CallLogin right_password "203.0.113.9" "a3" "r3");
   (2200, CallRefresh (Signed true alice_refresh) "a4" "r4");
   (2300, CallLogoutAll (User.id alice));
   (2400, CallGlobalLimit "203.0.113.9")].

(** Four failed logins for an unknown email, one per second. *)
Definition four_failures : state :=
  (run_all [(1000, alice_login unknown_email "a" "r");
            (1001, alice_login unknown_email "a" "r");
            (1002, alice_login unknown_email "a" "r");
            (1003, alice_login unknown_email "a" "r")] registered).1.

(** The fifth one, at second 1004. *)
Definition five_failures : state :=
  (alice_login unknown_email "a" "r" 1004 four_failures).1.

(** ** Further observations and inputs *)

(** Alice's account after five wrong passwords in five seconds. *)
Definition alice_locked : state :=
  (run_all [(1000, alice_login wrong_password "a" "r");
            (1001, alice_login wrong_password "a" "r");
            (1002, alice_login wrong_password "a" "r");
            (1003, alice_login wrong_password "a" "r");
            (1004, alice_login wrong_password "a" "r")] registered).1.

(** Alice as [login] returned her at second 1000. *)
Definition alice_at_1000 : User.t := User.with_last_login alice 1000.


(** The row the repository finds for a username. *)
Definition user_by_username (s : state) (username : string) : option User.t :=
  find (λ u, bool_decide (User.username u = username)) (users s).

(** The row that [register] creates. *)
Definition registered_user {hasher : PasswordHasher} (data : RegisterRequest)
    (new_id : string) : User.t := {|
  User.id := new_id;
  User.username := register_username data;
  User.email := register_email data;
  User.password_hash := hash (register_password data);
  User.role := DEVELOPER;
  User.is_active := true;
  User.last_login := None |}.

(** No two rows share an email or a username. *)
Definition unique_identities (rows : list User.t) : Prop :=
  NoDup (User.email <$> rows) ∧ NoDup (User.username <$> rows).

(** Bob asks for an account. *)
Definition bob_request : RegisterRequest := {|
  register_username := "bob";
  register_email := "bob@x.com";
  register_password := "C0rrect!Horse" |}.

Definition bob_id : string := "16fd2706-8baf-433b-82eb-8c7fada847da".

(** The character occurs in the string. *)
Fixpoint occurs (c : Ascii.ascii) (s : string) : bool :=
  match s with
  | EmptyString => false
  | String c' rest => Ascii.eqb c' c || occurs c rest
  end.

(** A string that [strip] has nothing to take from at the left end. *)
Definition clean_left (s : string) : Prop :=
  match s with
  | EmptyString => True
  | String c _ => str.isspace c = false
  end.

(** A request from a peer that names another address in its
    [X-Forwarded-For] header. *)
Definition forwarded_request : Request := {|
  url_path := "/api/v1/projects";
  request_headers := [("x-forwarded-for", " 198.51.100.7 , 203.0.113.9")];
  client_host := Some "203.0.113.9" |}.

(** A handler that answers every request with an empty 200. *)
Definition ok_handler (request : Request) : Handler Response :=
  hret {| status_code := 200; content := JNull; response_headers := [] |}.

(** The store after three requests of one client within second 1000. *)
Definition three_requests : state :=
  (run_all [(1000, RateLimiter.check_global_limit default_settings "198.51.100.7");
            (1000, RateLimiter.check_global_limit default_settings "198.51.100.7");
            (1000, RateLimiter.check_global_limit default_settings "198.51.100.7")]
     registered).1.

(** A codec for concrete runs: it knows Alice's two tokens by the strings
    ["alice.access"] and ["alice.refresh"] and takes every other string for
    malformed. *)
Definition toy_codec (text : string) : token :=
  if String.eqb text "alice.access" then Signed true alice_access
  else if String.eqb text "alice.refresh" then Signed true alice_refresh
  else Malformed "Not enough segments".

(** A logout request that carries Alice's access token. *)
Definition logout_request : Request := {|
  url_path := "/api/v1/auth/logout";
  request_headers := [("authorization", "Bearer alice.access")];
  client_host := Some "203.0.113.9" |}.

(** * Properties *)

(** ** The store: lookups after updates *)

Lemma state_eta (s : state) : State (redis_db s) (users s) = s.
Proof. by destruct s. Qed.

Lemma lookup_live_insert_eq now (db : redis) key e :
  lookup_live now (<[key := e]> db) key = if alive now e then Some e else None.
Proof. unfold lookup_live. by rewrite lookup_insert_eq. Qed.

Lemma lookup_live_insert_ne now (db : redis) key key' e :
  key ≠ key' → lookup_live now (<[key := e]> db) key' = lookup_live now db key'.
Proof. intros Hne. unfold lookup_live. by rewrite lookup_insert_ne. Qed.

Lemma lookup_live_delete_eq now (db : redis) key :
  lookup_live now (delete key db) key = None.
Proof. unfold lookup_live. by rewrite lookup_delete_eq. Qed.

Lemma lookup_live_delete_ne now (db : redis) key key' :
  key ≠ key' → lookup_live now (delete key db) key' = lookup_live now db key'.
Proof. intros Hne. unfold lookup_live. by rewrite lookup_delete_ne. Qed.

Lemma lookup_live_Some now (db : redis) key e :
  lookup_live now db key = Some e → db !! key = Some e ∧ alive now e = true.
Proof.
  unfold lookup_live. destruct (db !! key) as [e'|]; [|done].
  destruct (alive now e') eqn:Halive; [|done]. by intros [= <-].
Qed.

Lemma lookup_live_None now (db : redis) key :
  db !! key = None → lookup_live now db key = None.
Proof. unfold lookup_live. by intros ->. Qed.

(** A key of one family is never a key of another: the prefixes differ. *)
Lemma blacklist_key_ne_sessions_key jti user_id :
  TokenBlacklist.KEY_PREFIX +:+ jti ≠ TokenBlacklist.USER_SESSIONS_PREFIX +:+ user_id.
Proof. discriminate. Qed.

Lemma blacklist_key_inj jti jti' :
  TokenBlacklist.KEY_PREFIX +:+ jti = TokenBlacklist.KEY_PREFIX +:+ jti' → jti = jti'.
Proof. intros H. by simplify_eq/=. Qed.

Lemma sessions_key_inj u u' :
  TokenBlacklist.USER_SESSIONS_PREFIX +:+ u = TokenBlacklist.USER_SESSIONS_PREFIX +:+ u' →
  u = u'.
Proof. intros H. by simplify_eq/=. Qed.

Lemma lock_key_ne_failed_key identifier identifier' :
  RateLimiter.ACCOUNT_LOCK_PREFIX +:+ identifier
  ≠ RateLimiter.LOGIN_PREFIX +:+ "failed:" +:+ identifier'.
Proof. discriminate. Qed.

Lemma lock_key_ne_sessions_key identifier user_id :
  RateLimiter.ACCOUNT_LOCK_PREFIX +:+ identifier
  ≠ TokenBlacklist.USER_SESSIONS_PREFIX +:+ user_id.
Proof. discriminate. Qed.

(** ** The codec and the blacklist lookup, as equations *)

Lemma jwt_verify_token_eq tok now s :
  JWTService.verify_token tok now s =
  (s, match jwt_decode now tok with
      | Decoded payload => Ok payload
      | ExpiredSignatureError => Raise TokenExpiredError
      | JWTError e => Raise (TokenInvalidError ("Invalid token: " +:+ e))
      end).
Proof.
  unfold JWTService.verify_token, bind, time.
  by destruct (jwt_decode now tok).
Qed.

Lemma is_blacklisted_eq jti now s :
  TokenBlacklist.is_blacklisted jti now s = (s, Ok (blacklisted now s jti)).
Proof.
  unfold TokenBlacklist.is_blacklisted, RedisClient.exists_, blacklisted,
    bind, redis_call, cmd_exists, ret.
  rewrite state_eta.
  by destruct (lookup_live now (redis_db s) _).
Qed.

(** The decoder accepts exactly the genuine, unexpired tokens. *)
Lemma jwt_decode_Decoded now tok payload :
  jwt_decode now tok = Decoded payload ↔
  tok = Signed true payload ∧ now ≤ TokenPayload.exp payload.
Proof.
  destruct tok as [why | [] claims]; simpl.
  - split; [discriminate | intros [? _]; discriminate].
  - destruct (Z.ltb_spec (TokenPayload.exp claims) now).
    + split; [discriminate | intros [[= ->] ?]; lia].
    + split; [intros [= ->]; split; [done | lia] | by intros [[= ->] ?]].
  - split; [discriminate | intros [? _]; discriminate].
Qed.

(** ** Verification of access tokens *)

Lemma verify_token_eq tok now s :
  AuthService.verify_token tok now s =
  (s, match jwt_decode now tok with
      | Decoded payload =>
          if negb (String.eqb (TokenPayload.type payload) "access")
          then Raise (TokenInvalidError "Invalid token type")
          else if blacklisted now s (TokenPayload.jti payload)
               then Raise TokenBlacklistedError
               else Ok payload
      | ExpiredSignatureError => Raise TokenExpiredError
      | JWTError e => Raise (TokenInvalidError ("Invalid token: " +:+ e))
      end).
Proof.
  unfold AuthService.verify_token, bind.
  rewrite jwt_verify_token_eq.
  destruct (jwt_decode now tok) as [payload| |e]; try done.
  destruct (negb _); [done|].
  rewrite is_blacklisted_eq.
  by destruct (blacklisted now s _).
Qed.

(** C2. [verify_token] of the service leaves the state alone and returns the
    decoded payload exactly when the signature verifies, the token is
    unexpired, its type is "access" and its id is not blacklisted. Otherwise
    it raises one of three errors, decided in this order: a token that is not
    genuinely signed is invalid; a genuine token past its expiry is expired,
    whatever its type and revocation; an unexpired genuine token of another
    type is invalid, whatever its revocation; an unexpired genuine access token
    with a tombstone is blacklisted. *)
Theorem verify_access_token_outcome now s tok :
  let r := AuthService.verify_token tok now s in
  r.1 = s
  ∧ (∀ payload, r.2 = Ok payload ↔
       tok = Signed true payload
       ∧ now ≤ TokenPayload.exp payload
       ∧ TokenPayload.type payload = "access"
       ∧ blacklisted now s (TokenPayload.jti payload) = false)
  ∧ ((∀ payload, tok ≠ Signed true payload) →
       ∃ message, r.2 = Raise (TokenInvalidError message))
  ∧ (∀ payload, tok = Signed true payload →
       TokenPayload.exp payload < now →
       r.2 = Raise TokenExpiredError)
  ∧ (∀ payload, tok = Signed true payload →
       now ≤ TokenPayload.exp payload →
       TokenPayload.type payload ≠ "access" →
       r.2 = Raise (TokenInvalidError "Invalid token type"))
  ∧ (∀ payload, tok = Signed true payload →
       now ≤ TokenPayload.exp payload →
       TokenPayload.type payload = "access" →
       blacklisted now s (TokenPayload.jti payload) = true →
       r.2 = Raise TokenBlacklistedError)
  ∧ (∀ e, r.2 = Raise e →
       code e = "TOKEN_EXPIRED" ∨ code e = "TOKEN_INVALID"
       ∨ code e = "TOKEN_BLACKLISTED").
Proof.
  intros r. subst r. rewrite verify_token_eq. simpl.
  split; [done|].
  split.
  { intros payload. split.
    - destruct (jwt_decode now tok) as [p| |e] eqn:Hdec; try done.
      destruct (String.eqb_spec (TokenPayload.type p) "access") as [Hty|Hty];
        simpl; [|done].
      destruct (blacklisted now s (TokenPayload.jti p)) eqn:Hbl; [done|].
      intros [= ->]. apply jwt_decode_Decoded in Hdec as [-> Hexp]. done.
    - intros (-> & Hexp & Hty & Hbl).
      assert (jwt_decode now (Signed true payload) = Decoded payload) as ->
        by by apply jwt_decode_Decoded.
      rewrite Hty, Hbl. done. }
  split.
  { intros Hforged. destruct tok as [why | [] claims]; simpl; eauto.
    by destruct (Hforged claims). }
  split.
  { intros payload -> Hexp. simpl.
    destruct (Z.ltb_spec (TokenPayload.exp payload) now); [done | lia]. }
  split.
  { intros payload -> Hexp Hty. simpl.
    destruct (Z.ltb_spec (TokenPayload.exp payload) now); [lia|].
    by destruct (String.eqb_spec (TokenPayload.type payload) "access"). }
  split.
  { intros payload -> Hexp Hty Hbl. simpl.
    destruct (Z.ltb_spec (TokenPayload.exp payload) now); [lia|].
    rewrite Hty, Hbl. done. }
  intros e.
  destruct (jwt_decode now tok) as [p| |why].
  - destruct (negb _); [intros [= <-]; auto|].
    destruct (blacklisted now s _); [intros [= <-]; auto | done].
  - intros [= <-]; auto.
  - intros [= <-]; auto.
Qed.

(** ** Blacklisting one token *)

Lemma cmd_srem_other key member now (db : redis) key' :
  key ≠ key' → (cmd_srem key member now db).1 !! key' = db !! key'.
Proof.
  intros Hne. unfold cmd_srem.
  destruct (lookup_live now db key) as [[[v|members|z] t]|]; simpl; try done.
  case_decide; simpl.
  - by rewrite lookup_delete_ne.
  - by rewrite lookup_insert_ne.
Qed.

(** After [SREM] on a key that holds a set (or nothing), the member is gone
    and the other members stay. *)
Lemma cmd_srem_members user_id jti now (s : state) db' r :
  sessions_well_typed now s user_id →
  cmd_srem (TokenBlacklist.USER_SESSIONS_PREFIX +:+ user_id) jti now (redis_db s)
    = (db', r) →
  (∃ n, r = Ok n)
  ∧ sessions_of now (State db' (users s)) user_id = sessions_of now s user_id ∖ {[jti]}.
Proof.
  unfold sessions_well_typed, sessions_of, cmd_srem. simpl.
  destruct (lookup_live now (redis_db s) _) as [[[v|members|z] t]|] eqn:Hlive;
    try done; intros _ [= <- <-].
  - split; [eauto|]. destruct (decide _) as [Hempty|Hempty].
    + by rewrite lookup_live_delete_eq, Hempty.
    + rewrite lookup_live_insert_eq.
      apply lookup_live_Some in Hlive as [_ Halive].
      unfold alive in *. simpl in *. by rewrite Halive.
  - split; [eauto|]. rewrite Hlive. set_solver.
Qed.

(** What [blacklist_token] does to a token with lifetime left. *)
Lemma blacklist_token_unexpired jti exp owner now s :
  now < exp →
  TokenBlacklist.blacklist_token jti exp owner now s =
  let db1 := <[TokenBlacklist.KEY_PREFIX +:+ jti := Entry (RString "1") (Some exp)]>
               (redis_db s) in
  match owner with
  | Some uid =>
      if truthy uid then
        let '(db2, r) :=
          cmd_srem (TokenBlacklist.USER_SESSIONS_PREFIX +:+ uid) jti now db1 in
        (State db2 (users s), match r with Ok _ => Ok () | Raise e => Raise e end)
      else (State db1 (users s), Ok ())
  | None => (State db1 (users s), Ok ())
  end.
Proof.
  intros Hlt.
  unfold TokenBlacklist.blacklist_token, bind, time, RedisClient.set, redis_call,
    cmd_set, ret.
  replace (Z.max (exp - now) 0) with (exp - now) by lia.
  destruct (Z.ltb_spec 0 (exp - now)); [|lia].
  destruct (Z.leb_spec (exp - now) 0); [lia|].
  replace (now + (exp - now)) with exp by lia. simpl.
  destruct owner as [uid|]; [|done].
  destruct (truthy uid); [|done].
  by destruct (cmd_srem _ jti now _) as [db2 [n|e]].
Qed.

Lemma blacklist_token_expired jti exp owner now s :
  exp ≤ now → TokenBlacklist.blacklist_token jti exp owner now s = (s, Ok ()).
Proof.
  intros Hle.
  unfold TokenBlacklist.blacklist_token, bind, time, ret.
  replace (Z.max (exp - now) 0) with 0 by lia. done.
Qed.

(** The tombstone that [blacklist_token] writes for a token with lifetime
    left, whatever else the call does. *)
Lemma blacklist_token_tombstone jti exp owner now s :
  now < exp →
  redis_db (TokenBlacklist.blacklist_token jti exp owner now s).1
    !! (TokenBlacklist.KEY_PREFIX +:+ jti)
  = Some (Entry (RString "1") (Some exp)).
Proof.
  intros Hlt. rewrite blacklist_token_unexpired by done. simpl.
  destruct owner as [uid|]; [destruct (truthy uid)|]; simpl;
    try by rewrite lookup_insert_eq.
  pose proof (cmd_srem_other (TokenBlacklist.USER_SESSIONS_PREFIX +:+ uid) jti now
    (<[TokenBlacklist.KEY_PREFIX +:+ jti := Entry (RString "1") (Some exp)]> (redis_db s))
    (TokenBlacklist.KEY_PREFIX +:+ jti)) as Hother.
  destruct (cmd_srem _ jti now _) as [db2 r]. simpl in *.
  rewrite Hother by done. by rewrite lookup_insert_eq.
Qed.

(** A tombstone expiring at [exp] is in force strictly before [exp] only. *)
Lemma blacklisted_tombstone now s jti exp v :
  redis_db s !! (TokenBlacklist.KEY_PREFIX +:+ jti) = Some (Entry v (Some exp)) →
  blacklisted now s jti = bool_decide (now < exp).
Proof.
  intros Hkey. unfold blacklisted, lookup_live. rewrite Hkey.
  unfold alive. simpl.
  destruct (Z.ltb_spec now exp).
  - by rewrite bool_decide_eq_true_2.
  - rewrite bool_decide_eq_false_2; [done | lia].
Qed.

Lemma truthy_nonempty (s : string) : s ≠ "" → truthy s = true.
Proof. by destruct s. Qed.

(** The whole effect of [blacklist_token] on a token with lifetime left. *)
Lemma blacklist_token_writes jti exp owner now s :
  now < exp →
  let r := TokenBlacklist.blacklist_token jti exp owner now s in
  (cmd_ttl (TokenBlacklist.KEY_PREFIX +:+ jti) now (redis_db r.1)).2
    = Ok (exp - now)
  ∧ (∀ later, blacklisted later r.1 jti = bool_decide (later < exp))
  ∧ users r.1 = users s
  ∧ (∀ uid, owner = Some uid → uid ≠ "" → sessions_well_typed now s uid →
       r.2 = Ok ()
       ∧ sessions_of now r.1 uid = sessions_of now s uid ∖ {[jti]}).
Proof.
  intros Hlt r.
  pose proof (blacklist_token_tombstone jti exp owner now s Hlt) as Htomb.
  fold r in Htomb.
  split; [|split; [|split]].
  - unfold cmd_ttl, lookup_live. rewrite Htomb. unfold alive. simpl.
    destruct (Z.ltb_spec now exp); [done | lia].
  - intros later. by eapply blacklisted_tombstone.
  - subst r. rewrite blacklist_token_unexpired by done. simpl.
    destruct owner as [uid|]; [destruct (truthy uid)|]; try done.
    by destruct (cmd_srem _ jti now _).
  - intros uid -> Huid Htyped. subst r.
    rewrite blacklist_token_unexpired by done. simpl.
    rewrite truthy_nonempty by done.
    set (db1 := <[_ := _]> (redis_db s)).
    assert (lookup_live now db1 (TokenBlacklist.USER_SESSIONS_PREFIX +:+ uid)
            = lookup_live now (redis_db s) (TokenBlacklist.USER_SESSIONS_PREFIX +:+ uid))
      as Hsame by (apply lookup_live_insert_ne, blacklist_key_ne_sessions_key).
    destruct (cmd_srem _ jti now db1) as [db2 r] eqn:Hsrem.
    destruct (cmd_srem_members uid jti now (State db1 (users s)) db2 r)
      as [[n ->] Hmem].
    + unfold sessions_well_typed. simpl. by rewrite Hsame.
    + done.
    + split; [done|]. simpl in *. rewrite Hmem.
      unfold sessions_of. simpl. by rewrite Hsame.
Qed.

(** C7, as the code has it. Blacklisting a token that is already expired
    ([expires_at ≤ now]) never raises and changes nothing: no tombstone is
    written and no session set is touched. Blacklisting a token with lifetime
    left writes a tombstone whose time-to-live is [max(expires_at - now, 0)],
    so that it is in force exactly until [expires_at], and, when a non-empty
    owner is given, removes the token id from that owner's session set and
    from nothing else. *)
Theorem blacklist_token_effect jti exp owner now s :
  (exp ≤ now → TokenBlacklist.blacklist_token jti exp owner now s = (s, Ok ()))
  ∧ (now < exp →
     let r := TokenBlacklist.blacklist_token jti exp owner now s in
     (cmd_ttl (TokenBlacklist.KEY_PREFIX +:+ jti) now (redis_db r.1)).2
       = Ok (Z.max (exp - now) 0)
     ∧ (∀ later, blacklisted later r.1 jti = bool_decide (later < exp))
     ∧ users r.1 = users s
     ∧ (∀ uid, owner = Some uid → uid ≠ "" → sessions_well_typed now s uid →
          r.2 = Ok ()
          ∧ sessions_of now r.1 uid = sessions_of now s uid ∖ {[jti]})).
Proof.
  split; [apply blacklist_token_expired|].
  intros Hlt r.
  destruct (blacklist_token_writes jti exp owner now s Hlt)
    as (Httl & Hbl & Husers & Hsess).
  split; [|split; [done|split; [done|]]].
  - fold r in Httl. rewrite Httl. f_equal. lia.
  - intros uid Howner Huid Htyped. by apply Hsess.
Qed.

(** ** Issuing a token pair *)

Lemma cmd_sadd_other key member now (db : redis) key' :
  key ≠ key' → (cmd_sadd key member now db).1 !! key' = db !! key'.
Proof.
  intros Hne. unfold cmd_sadd.
  destruct (lookup_live now db key) as [[[v|members|z] t]|]; simpl; try done;
    by rewrite lookup_insert_ne.
Qed.

Lemma cmd_expire_other key seconds now (db : redis) key' :
  key ≠ key' → (cmd_expire key seconds now db).1 !! key' = db !! key'.
Proof.
  intros Hne. unfold cmd_expire.
  destruct (lookup_live now db key) as [e|]; simpl; [|done].
  destruct (seconds <=? 0); simpl.
  - by rewrite lookup_delete_ne.
  - by rewrite lookup_insert_ne.
Qed.

Lemma add_user_session_other user_id jti ttl now s key' :
  TokenBlacklist.USER_SESSIONS_PREFIX +:+ user_id ≠ key' →
  redis_db (TokenBlacklist.add_user_session user_id jti ttl now s).1 !! key'
  = redis_db s !! key'.
Proof.
  intros Hne.
  unfold TokenBlacklist.add_user_session, RedisClient.sadd, RedisClient.expire,
    bind, redis_call.
  pose proof (cmd_sadd_other _ jti now (redis_db s) key' Hne) as Hsadd.
  destruct (cmd_sadd _ jti now (redis_db s)) as [db1 [n|e]]; simpl in *; [|done].
  pose proof (cmd_expire_other _ ttl now db1 key' Hne) as Hexpire.
  destruct (cmd_expire _ ttl now db1) as [db2 r]; simpl in *. congruence.
Qed.

Lemma create_tokens_eq settings user access_jti refresh_jti now s :
  AuthService._create_tokens settings user access_jti refresh_jti now s =
  let r := TokenBlacklist.add_user_session (User.id user) refresh_jti
             (refresh_token_expire_days settings * 24 * 60 * 60) now s in
  (r.1,
   match r.2 with
   | Ok _ => Ok {|
       access_token := Signed true (issued_payload user "access" access_jti now
                         (access_token_expire_minutes settings * 60));
       refresh_token := Signed true (issued_payload user "refresh" refresh_jti now
                          (refresh_token_expire_days settings * 86400));
       token_type := "bearer";
       expires_in := access_token_expire_minutes settings * 60 |}
   | Raise e => Raise e
   end).
Proof.
  unfold AuthService._create_tokens, JWTService.create_access_token,
    JWTService.create_refresh_token, JWTService._create_token, bind, time, ret,
    jwt_encode.
  simpl.
  by destruct (TokenBlacklist.add_user_session _ _ _ now s) as [s' [[]|e]].
Qed.

Lemma create_tokens_other settings user access_jti refresh_jti now s key' :
  TokenBlacklist.USER_SESSIONS_PREFIX +:+ User.id user ≠ key' →
  redis_db (AuthService._create_tokens settings user access_jti refresh_jti now s).1
    !! key'
  = redis_db s !! key'.
Proof.
  intros Hne. rewrite create_tokens_eq. simpl.
  by apply add_user_session_other.
Qed.

Lemma create_tokens_users settings user access_jti refresh_jti now s :
  users (AuthService._create_tokens settings user access_jti refresh_jti now s).1
  = users s.
Proof.
  rewrite create_tokens_eq. simpl.
  unfold TokenBlacklist.add_user_session, RedisClient.sadd, RedisClient.expire,
    bind, redis_call.
  destruct (cmd_sadd _ _ now (redis_db s)) as [db1 [n|e]]; simpl; [|done].
  by destruct (cmd_expire _ _ now db1) as [db2 r].
Qed.

(** ** Refresh-token rotation *)

(** What a successful [refresh_tokens] call established and did. *)
Lemma refresh_tokens_Ok settings tok access_jti refresh_jti now s s1 response :
  AuthService.refresh_tokens settings tok access_jti refresh_jti now s
    = (s1, Ok response) →
  ∃ payload user,
    tok = Signed true payload
    ∧ now ≤ TokenPayload.exp payload
    ∧ TokenPayload.type payload = "refresh"
    ∧ blacklisted now s (TokenPayload.jti payload) = false
    ∧ find (λ u, bool_decide (User.id u = TokenPayload.sub payload)) (users s)
        = Some user
    ∧ User.is_active user = true
    ∧ (s1, Ok response) =
        AuthService._create_tokens settings user access_jti refresh_jti now
          (TokenBlacklist.blacklist_token (TokenPayload.jti payload)
             (TokenPayload.exp payload) (Some (TokenPayload.sub payload)) now s).1.
Proof.
  unfold AuthService.refresh_tokens, bind.
  rewrite jwt_verify_token_eq.
  destruct (jwt_decode now tok) as [payload| |why] eqn:Hdec; try done.
  apply jwt_decode_Decoded in Hdec as [-> Hexp].
  destruct (String.eqb_spec (TokenPayload.type payload) "refresh") as [Hty|];
    cbn [negb]; [|done].
  rewrite is_blacklisted_eq.
  destruct (blacklisted now s _) eqn:Hbl; [done|].
  unfold user_repo_get.
  destruct (find _ (users s)) as [user|] eqn:Hfind; [|done].
  destruct (User.is_active user) eqn:Hactive; cbn [negb]; [|done].
  destruct (TokenBlacklist.blacklist_token _ _ _ now s) as [s' [[]|e]] eqn:Hbt;
    [|done].
  intros Hissued. exists payload, user. rewrite Hbt, <- Hissued. by repeat split.
Qed.

(** ** Logout *)

Lemma cmd_srem_Raise key member now (db : redis) db' e :
  cmd_srem key member now db = (db', Raise e) → e = WRONGTYPE.
Proof.
  unfold cmd_srem.
  destruct (lookup_live now db key) as [[[v|members|z] t]|]; by intros [= <- <-].
Qed.

(** The store is the only source of errors in [blacklist_token]. *)
Lemma blacklist_token_Raise jti exp owner now s s' e :
  TokenBlacklist.blacklist_token jti exp owner now s = (s', Raise e) →
  e = WRONGTYPE.
Proof.
  destruct (Z.lt_ge_cases now exp) as [Hlt|Hge].
  - rewrite blacklist_token_unexpired by done. simpl.
    destruct owner as [uid|]; [destruct (truthy uid)|]; try done.
    destruct (cmd_srem _ jti now _) as [db2 [n|e']] eqn:Hsrem; [done|].
    intros [= <- <-]. by eapply cmd_srem_Raise.
  - by rewrite blacklist_token_expired.
Qed.

Lemma logout_one_eq tok now s :
  AuthService.logout_one tok now s =
  match jwt_decode now tok with
  | Decoded payload =>
      TokenBlacklist.blacklist_token (TokenPayload.jti payload)
        (TokenPayload.exp payload) (Some (TokenPayload.sub payload)) now s
  | _ => (s, Ok ())
  end.
Proof.
  unfold AuthService.logout_one, try_pass, bind.
  rewrite jwt_verify_token_eq.
  destruct (jwt_decode now tok) as [payload| |why]; try done.
  destruct (TokenBlacklist.blacklist_token _ _ _ now s) as [s' [[]|e]] eqn:Hbt;
    [done|].
  apply blacklist_token_Raise in Hbt as ->. done.
Qed.

Lemma logout_eq access_token refresh_token now s :
  AuthService.logout access_token refresh_token now s =
  match AuthService.logout_one access_token now s with
  | (s1, Ok _) => AuthService.logout_one refresh_token now s1
  | (s1, Raise e) => (s1, Raise e)
  end.
Proof. done. Qed.

(** C8, as the code has it. [logout] never raises [TokenExpiredError] or
    [TokenInvalidError]. It handles the access token and then the refresh
    token, each in the state the previous step left. A token that fails
    verification is skipped without any change. A token that verifies with
    lifetime left ([now < expires_at]) has its id blacklisted until
    [expires_at] and removed from its owner's session set. A token that
    verifies in its last second ([expires_at = now]) is left as it is: no
    tombstone, and the session set keeps its id. *)
Theorem logout_best_effort access_token refresh_token now s :
  (∀ e, (AuthService.logout access_token refresh_token now s).2 = Raise e →
     AuthService.expired_or_invalid e = false)
  ∧ (∃ s1,
       (AuthService.logout_one access_token now s).1 = s1
       ∧ ((AuthService.logout_one access_token now s).2 = Ok () →
          AuthService.logout access_token refresh_token now s
            = AuthService.logout_one refresh_token now s1))
  ∧ (∀ tok st,
       (∀ payload, jwt_decode now tok ≠ Decoded payload) →
       AuthService.logout_one tok now st = (st, Ok ()))
  ∧ (∀ payload st,
       now < TokenPayload.exp payload →
       TokenPayload.sub payload ≠ "" →
       sessions_well_typed now st (TokenPayload.sub payload) →
       let r := AuthService.logout_one (Signed true payload) now st in
       r.2 = Ok ()
       ∧ (cmd_ttl (TokenBlacklist.KEY_PREFIX +:+ TokenPayload.jti payload) now
            (redis_db r.1)).2 = Ok (TokenPayload.exp payload - now)
       ∧ (∀ later, blacklisted later r.1 (TokenPayload.jti payload)
                   = bool_decide (later < TokenPayload.exp payload))
       ∧ sessions_of now r.1 (TokenPayload.sub payload)
         = sessions_of now st (TokenPayload.sub payload) ∖ {[TokenPayload.jti payload]})
  ∧ (∀ payload st,
       TokenPayload.exp payload = now →
       jwt_decode now (Signed true payload) = Decoded payload
       ∧ AuthService.logout_one (Signed true payload) now st = (st, Ok ())).
Proof.
  split; [|split; [|split; [|split]]].
  - intros e. rewrite logout_eq, !logout_one_eq.
    assert (∀ tok st st' e',
      match jwt_decode now tok with
      | Decoded payload =>
          TokenBlacklist.blacklist_token (TokenPayload.jti payload)
            (TokenPayload.exp payload) (Some (TokenPayload.sub payload)) now st
      | _ => (st, Ok ())
      end = (st', Raise e') → e' = WRONGTYPE) as Hone.
    { intros tok st st' e'.
      destruct (jwt_decode now tok); try done. apply blacklist_token_Raise. }
    destruct (match jwt_decode now access_token with
              | Decoded _ => _ | _ => _ end) as [s1 [[]|e1]] eqn:Hfirst.
    + rewrite logout_one_eq.
      destruct (match jwt_decode now refresh_token with
                | Decoded _ => _ | _ => _ end) as [s2 [[]|e2]] eqn:Hsecond;
        [done|].
      apply Hone in Hsecond as ->. by intros [= <-].
    + apply Hone in Hfirst as ->. by intros [= <-].
  - eexists. split; [done|]. rewrite logout_eq.
    destruct (AuthService.logout_one access_token now s) as [s1 [[]|e1]]; done.
  - intros tok st Hfails. rewrite logout_one_eq.
    destruct (jwt_decode now tok) as [payload| |why] eqn:Hdec; try done.
    by destruct (Hfails payload).
  - intros payload st Hlt Hsub Htyped r. subst r. rewrite logout_one_eq.
    assert (jwt_decode now (Signed true payload) = Decoded payload) as ->
      by (apply jwt_decode_Decoded; split; [done | lia]).
    destruct (blacklist_token_writes (TokenPayload.jti payload)
      (TokenPayload.exp payload) (Some (TokenPayload.sub payload)) now st Hlt)
      as (Httl & Hbl & _ & Hsess).
    destruct (Hsess _ eq_refl Hsub Htyped) as [Hok Hmem].
    by repeat split.
  - intros payload st Hexp.
    assert (jwt_decode now (Signed true payload) = Decoded payload) as Hdec
      by (apply jwt_decode_Decoded; split; [done | lia]).
    split; [done|]. rewrite logout_one_eq, Hdec.
    apply blacklist_token_expired. lia.
Qed.

(** ** Invalidating all sessions of a user *)

Lemma tombstones_lookup jtis expiry (db : redis) key :
  tombstones jtis expiry db !! key =
  if bool_decide (key ∈ (λ jti, TokenBlacklist.KEY_PREFIX +:+ jti) <$> jtis)
  then Some (Entry (RString "1") (Some expiry))
  else db !! key.
Proof.
  revert db. induction jtis as [|jti jtis IH]; intros db; [done|].
  unfold tombstones in *. cbn [foldl]. rewrite IH, fmap_cons.
  destruct (decide (key ∈ (λ jti, TokenBlacklist.KEY_PREFIX +:+ jti) <$> jtis))
    as [Hin|Hnotin].
  - rewrite !bool_decide_eq_true_2; [done | by apply list_elem_of_further | done].
  - rewrite (bool_decide_eq_false_2 _ Hnotin).
    destruct (decide ("token:blacklist:" +:+ jti = key)) as [<-|Hne].
    + rewrite lookup_insert_eq.
      rewrite bool_decide_eq_true_2; [done | apply list_elem_of_here].
    + rewrite lookup_insert_ne by done.
      rewrite bool_decide_eq_false_2; [done|].
      intros [?|?]%elem_of_cons; done.
Qed.

Lemma tombstones_lookup_in jtis expiry (db : redis) jti :
  jti ∈ jtis →
  tombstones jtis expiry db !! (TokenBlacklist.KEY_PREFIX +:+ jti)
  = Some (Entry (RString "1") (Some expiry)).
Proof.
  intros Hin. rewrite tombstones_lookup.
  rewrite bool_decide_eq_true_2; [done|].
  apply list_elem_of_fmap. eauto.
Qed.

Lemma tombstones_lookup_notin jtis expiry (db : redis) jti :
  jti ∉ jtis →
  tombstones jtis expiry db !! (TokenBlacklist.KEY_PREFIX +:+ jti)
  = db !! (TokenBlacklist.KEY_PREFIX +:+ jti).
Proof.
  intros Hnotin. rewrite tombstones_lookup.
  rewrite bool_decide_eq_false_2; [done|].
  intros (jti' & Heq & Hin)%list_elem_of_fmap.
  apply blacklist_key_inj in Heq as ->. done.
Qed.

Lemma tombstones_lookup_sessions jtis expiry (db : redis) user_id :
  tombstones jtis expiry db !! (TokenBlacklist.USER_SESSIONS_PREFIX +:+ user_id)
  = db !! (TokenBlacklist.USER_SESSIONS_PREFIX +:+ user_id).
Proof.
  rewrite tombstones_lookup.
  rewrite bool_decide_eq_false_2; [done|].
  intros (jti' & Heq & Hin)%list_elem_of_fmap. discriminate.
Qed.

Lemma blacklist_each_eq settings jtis count now s :
  0 < refresh_lifetime settings →
  TokenBlacklist.blacklist_each settings jtis count now s =
  (State (tombstones jtis (now + refresh_lifetime settings) (redis_db s)) (users s),
   Ok (count + Z.of_nat (length jtis))).
Proof.
  intros Hpos. revert count s.
  induction jtis as [|jti jtis IH]; intros count s.
  - simpl. unfold ret. rewrite state_eta. do 2 f_equal. lia.
  - cbn [TokenBlacklist.blacklist_each].
    unfold bind, RedisClient.set, redis_call, cmd_set.
    fold (refresh_lifetime settings).
    destruct (Z.leb_spec (refresh_lifetime settings) 0); [lia|].
    rewrite IH. simpl. do 2 f_equal. lia.
Qed.

Lemma invalidate_all_eq settings user_id now s :
  0 < refresh_lifetime settings →
  sessions_well_typed now s user_id →
  TokenBlacklist.invalidate_all_user_sessions settings user_id now s =
  let members := sessions_of now s user_id in
  if decide (members = ∅) then (s, Ok 0)
  else
    (State (delete (TokenBlacklist.USER_SESSIONS_PREFIX +:+ user_id)
              (tombstones (elements members) (now + refresh_lifetime settings)
                 (redis_db s)))
           (users s),
     Ok (Z.of_nat (size members))).
Proof.
  intros Hpos Htyped.
  unfold TokenBlacklist.invalidate_all_user_sessions, bind, redis_call,
    cmd_smembers, sessions_of, ret.
  unfold sessions_well_typed in Htyped.
  destruct (lookup_live now (redis_db s) _) as [[[v|members|z] t]|];
    try done; rewrite state_eta.
  - destruct (decide (members = ∅)); [done|].
    rewrite blacklist_each_eq by done. simpl. done.
  - done.
Qed.

Lemma alive_expire_at now v v' t :
  alive now (Entry v t) = alive now (Entry v' t).
Proof. done. Qed.

(** Recording a session: the member is added and the set lives for [ttl]
    seconds from now. *)
Lemma add_user_session_eq user_id jti ttl now s :
  sessions_well_typed now s user_id →
  0 < ttl →
  TokenBlacklist.add_user_session user_id jti ttl now s =
  (State (<[TokenBlacklist.USER_SESSIONS_PREFIX +:+ user_id :=
             Entry (RSet (sessions_of now s user_id ∪ {[jti]})) (Some (now + ttl))]>
            (redis_db s))
         (users s),
   Ok ()).
Proof.
  intros Htyped Hpos.
  unfold TokenBlacklist.add_user_session, RedisClient.sadd, RedisClient.expire,
    bind, redis_call, cmd_sadd, cmd_expire, sessions_of.
  unfold sessions_well_typed in Htyped.
  destruct (lookup_live now (redis_db s) _) as [[[v|members|z] t]|] eqn:Hlive;
    try done; simpl; rewrite lookup_live_insert_eq.
  - apply lookup_live_Some in Hlive as [_ Halive].
    rewrite (alive_expire_at now _ (RSet members)), Halive.
    destruct (Z.leb_spec ttl 0); [lia|].
    simpl. by rewrite insert_insert_eq.
  - simpl. destruct (Z.leb_spec ttl 0); [lia|].
    simpl. rewrite insert_insert_eq. by rewrite (left_id_L ∅ (∪)).
Qed.

Lemma sessions_of_entry now s user_id members t :
  redis_db s !! (TokenBlacklist.USER_SESSIONS_PREFIX +:+ user_id)
    = Some (Entry (RSet members) (Some t)) →
  sessions_of now s user_id = if bool_decide (now < t) then members else ∅.
Proof.
  intros Hkey. unfold sessions_of, lookup_live. rewrite Hkey. unfold alive. simpl.
  destruct (Z.ltb_spec now t).
  - by rewrite bool_decide_eq_true_2.
  - rewrite bool_decide_eq_false_2; [done | lia].
Qed.

Lemma sessions_well_typed_entry now s user_id members t :
  redis_db s !! (TokenBlacklist.USER_SESSIONS_PREFIX +:+ user_id)
    = Some (Entry (RSet members) t) →
  sessions_well_typed now s user_id.
Proof.
  intros Hkey. unfold sessions_well_typed, lookup_live. rewrite Hkey.
  by destruct (alive now _).
Qed.

(** What [invalidate_all_user_sessions] leaves behind: the members of the
    session set are blacklisted for a full refresh lifetime, no other token
    id gains a tombstone, and the session set is gone. *)
Lemma invalidate_all_effect settings user_id now s :
  0 < refresh_lifetime settings →
  sessions_well_typed now s user_id →
  ∃ s',
    TokenBlacklist.invalidate_all_user_sessions settings user_id now s
      = (s', Ok (Z.of_nat (size (sessions_of now s user_id))))
    ∧ users s' = users s
    ∧ sessions_of now s' user_id = ∅
    ∧ (∀ jti, jti ∈ sessions_of now s user_id →
         redis_db s' !! (TokenBlacklist.KEY_PREFIX +:+ jti)
         = Some (Entry (RString "1") (Some (now + refresh_lifetime settings))))
    ∧ (∀ jti, jti ∉ sessions_of now s user_id →
         redis_db s' !! (TokenBlacklist.KEY_PREFIX +:+ jti)
         = redis_db s !! (TokenBlacklist.KEY_PREFIX +:+ jti)).
Proof.
  intros Hpos Htyped. rewrite invalidate_all_eq by done. simpl.
  destruct (decide (sessions_of now s user_id = ∅)) as [Hempty|Hne].
  - exists s. rewrite Hempty. by repeat split.
  - eexists. split; [done|]. simpl. split; [done|]. split; [|split].
    + unfold sessions_of. simpl. by rewrite lookup_live_delete_eq.
    + intros jti Hin.
      rewrite lookup_delete_ne by (apply not_eq_sym, blacklist_key_ne_sessions_key).
      apply tombstones_lookup_in. by apply elem_of_elements.
    + intros jti Hnotin.
      rewrite lookup_delete_ne by (apply not_eq_sym, blacklist_key_ne_sessions_key).
      apply tombstones_lookup_notin. by rewrite elem_of_elements.
Qed.

Lemma blacklisted_absent now s jti :
  redis_db s !! (TokenBlacklist.KEY_PREFIX +:+ jti) = None →
  blacklisted now s jti = false.
Proof. intros Hkey. unfold blacklisted. by rewrite lookup_live_None. Qed.

Lemma blacklisted_same_entry now s s' jti :
  redis_db s' !! (TokenBlacklist.KEY_PREFIX +:+ jti)
    = redis_db s !! (TokenBlacklist.KEY_PREFIX +:+ jti) →
  blacklisted now s' jti = blacklisted now s jti.
Proof. intros Hkey. unfold blacklisted, lookup_live. by rewrite Hkey. Qed.

(** ** Password change *)

Lemma change_password_eq settings {hasher : PasswordHasher} user current new now s :
  verify current (User.password_hash user) = true →
  AuthService.change_password settings user current new now s =
  let s1 := State (redis_db s)
              (save_user (User.with_password_hash user (hash new)) (users s)) in
  let r := TokenBlacklist.invalidate_all_user_sessions settings (User.id user) now s1 in
  (r.1, match r.2 with Ok _ => Ok () | Raise e => Raise e end).
Proof.
  intros Hverify.
  unfold AuthService.change_password, bind, user_repo_update_password_hash, ret.
  rewrite Hverify. simpl.
  by destruct (TokenBlacklist.invalidate_all_user_sessions _ _ now _) as [s' [n|e]].
Qed.

(** What a successful password change leaves behind. *)
Lemma change_password_effect settings {hasher : PasswordHasher} user current new now s :
  verify current (User.password_hash user) = true →
  0 < refresh_lifetime settings →
  sessions_well_typed now s (User.id user) →
  ∃ s',
    AuthService.change_password settings user current new now s = (s', Ok ())
    ∧ users s' = save_user (User.with_password_hash user (hash new)) (users s)
    ∧ sessions_of now s' (User.id user) = ∅
    ∧ (∀ jti, jti ∈ sessions_of now s (User.id user) →
         redis_db s' !! (TokenBlacklist.KEY_PREFIX +:+ jti)
         = Some (Entry (RString "1") (Some (now + refresh_lifetime settings))))
    ∧ (∀ jti, jti ∉ sessions_of now s (User.id user) →
         redis_db s' !! (TokenBlacklist.KEY_PREFIX +:+ jti)
         = redis_db s !! (TokenBlacklist.KEY_PREFIX +:+ jti)).
Proof.
  intros Hverify Hpos Htyped. rewrite change_password_eq by done.
  set (s1 := State (redis_db s) _).
  destruct (invalidate_all_effect settings (User.id user) now s1 Hpos Htyped)
    as (s' & Hrun & Husers & Hgone & Hin & Hnotin).
  exists s'. simpl. rewrite Hrun. simpl. by repeat split.
Qed.

(** ** What issuance tracks *)

Lemma create_tokens_effect settings user access_jti refresh_jti now s :
  sessions_well_typed now s (User.id user) →
  0 < refresh_lifetime settings →
  AuthService._create_tokens settings user access_jti refresh_jti now s =
  (State (<[TokenBlacklist.USER_SESSIONS_PREFIX +:+ User.id user :=
             Entry (RSet (sessions_of now s (User.id user) ∪ {[refresh_jti]}))
                   (Some (now + refresh_lifetime settings))]>
            (redis_db s))
         (users s),
   Ok (issued_pair settings user access_jti refresh_jti now)).
Proof.
  intros Htyped Hpos. rewrite create_tokens_eq.
  fold (refresh_lifetime settings).
  by rewrite add_user_session_eq.
Qed.

(** C9. [_create_tokens] adds the refresh token's id, and nothing else, to the
    user's session set, so an access token id that was not in the set is not
    in it afterwards. [invalidate_all_user_sessions], reached through
    [logout_all_devices] or [change_password], gives a tombstone only to
    members of that set. Hence an access token issued with a fresh id (unlike
    the refresh id, in no session set, without a tombstone) still passes
    [verify_token] after either of them, as long as it is unexpired. *)
Theorem access_token_survives_invalidation settings {hasher : PasswordHasher}
    user access_jti refresh_jti issued invalidated checked s :
  0 < refresh_lifetime settings →
  sessions_well_typed issued s (User.id user) →
  access_jti ≠ refresh_jti →
  access_jti ∉ sessions_of issued s (User.id user) →
  redis_db s !! (TokenBlacklist.KEY_PREFIX +:+ access_jti) = None →
  issued ≤ invalidated →
  invalidated ≤ checked →
  checked ≤ issued + access_token_expire_minutes settings * 60 →
  ∃ s1,
    AuthService._create_tokens settings user access_jti refresh_jti issued s
      = (s1, Ok (issued_pair settings user access_jti refresh_jti issued))
    ∧ sessions_of issued s1 (User.id user)
      = sessions_of issued s (User.id user) ∪ {[refresh_jti]}
    ∧ (access_jti ∉ sessions_of invalidated s1 (User.id user))
    ∧ (∃ s2 count,
         AuthService.logout_all_devices settings (User.id user) invalidated s1
           = (s2, Ok count)
         ∧ (∀ jti, jti ∉ sessions_of invalidated s1 (User.id user) →
              ∀ later, blacklisted later s2 jti = blacklisted later s1 jti)
         ∧ AuthService.verify_token
             (access_token (issued_pair settings user access_jti refresh_jti issued))
             checked s2
           = (s2, Ok (issued_payload user "access" access_jti issued
                        (access_token_expire_minutes settings * 60))))
    ∧ (∀ current new,
         verify current (User.password_hash user) = true →
         ∃ s2,
           AuthService.change_password settings user current new invalidated s1
             = (s2, Ok ())
           ∧ (∀ jti, jti ∉ sessions_of invalidated s1 (User.id user) →
                ∀ later, blacklisted later s2 jti = blacklisted later s1 jti)
           ∧ AuthService.verify_token
               (access_token (issued_pair settings user access_jti refresh_jti issued))
               checked s2
             = (s2, Ok (issued_payload user "access" access_jti issued
                          (access_token_expire_minutes settings * 60)))).
Proof.
  intros Hpos Htyped Hdistinct Hfresh Hclean Ht1 Ht2 Hunexpired.
  rewrite create_tokens_effect by done.
  set (s1 := State _ (users s)).
  assert (redis_db s1 !! (TokenBlacklist.USER_SESSIONS_PREFIX +:+ User.id user)
          = Some (Entry (RSet (sessions_of issued s (User.id user) ∪ {[refresh_jti]}))
                        (Some (issued + refresh_lifetime settings)))) as Hkey.
  { subst s1. simpl. by rewrite lookup_insert_eq. }
  assert (access_jti ∉ sessions_of invalidated s1 (User.id user)) as Hout.
  { rewrite (sessions_of_entry _ _ _ _ _ Hkey). case_bool_decide; set_solver. }
  assert (sessions_well_typed invalidated s1 (User.id user)) as Htyped1
    by by eapply sessions_well_typed_entry.
  assert (blacklisted checked s1 access_jti = false) as Hclean1.
  { apply blacklisted_absent. subst s1. simpl.
    rewrite lookup_insert_ne by (apply not_eq_sym, blacklist_key_ne_sessions_key).
    done. }
  assert (∀ s2, blacklisted checked s2 access_jti = false →
    AuthService.verify_token
      (access_token (issued_pair settings user access_jti refresh_jti issued))
      checked s2
    = (s2, Ok (issued_payload user "access" access_jti issued
                 (access_token_expire_minutes settings * 60)))) as Hverifies.
  { intros s2 Hbl. rewrite verify_token_eq. simpl.
    destruct (Z.ltb_spec (issued + access_token_expire_minutes settings * 60) checked);
      [lia|].
    simpl. by rewrite Hbl. }
  exists s1. split; [done|]. split.
  { rewrite (sessions_of_entry _ _ _ _ _ Hkey).
    rewrite bool_decide_eq_true_2; [done | lia]. }
  split; [done|]. split.
  - destruct (invalidate_all_effect settings (User.id user) invalidated s1 Hpos Htyped1)
      as (s2 & Hrun & _ & _ & _ & Hnotin).
    exists s2, (Z.of_nat (size (sessions_of invalidated s1 (User.id user)))).
    split; [done|]. split.
    + intros jti Hjti later. apply blacklisted_same_entry. by apply Hnotin.
    + apply Hverifies.
      rewrite (blacklisted_same_entry checked s1 s2) by by apply Hnotin. done.
  - intros current new Hverify.
    destruct (change_password_effect settings user current new invalidated s1
                Hverify Hpos Htyped1)
      as (s2 & Hrun & _ & _ & _ & Hnotin).
    exists s2. split; [done|]. split.
    + intros jti Hjti later. apply blacklisted_same_entry. by apply Hnotin.
    + apply Hverifies.
      rewrite (blacklisted_same_entry checked s1 s2) by by apply Hnotin. done.
Qed.

(** ** The sliding windows *)

Lemma purge_empty lo hi : purge lo hi ∅ = ∅.
Proof. apply map_filter_empty. Qed.

(** Runs the lookups of a pipeline whose earlier commands wrote the key. *)
Ltac run_lookups :=
  simpl;
  repeat (first [ rewrite lookup_live_insert_eq
                | rewrite lookup_live_delete_eq ];
          simpl).

(** The pipeline of [record_failed_login]: purge, add, count, expire. *)
Lemma failed_pipeline key now window (db : redis) :
  zset_well_typed now db key →
  ∃ removed added,
    pipe (pipe (pipe
      (cmd_zremrangebyscore key 0 (now - window))
      (cmd_zadd key (pretty now) now))
      (cmd_zcard key))
      (cmd_expire key window) now db
    = (db_after_window key now window db,
       Ok (removed, added,
           Z.of_nat (size (window_after now window (zset_at now db key))), ())).
Proof.
  unfold zset_well_typed, db_after_window, window_after, zset_at, pipe,
    cmd_zremrangebyscore, cmd_zadd, cmd_zcard, cmd_expire.
  destruct (lookup_live now db key) as [[[v|members|z] t]|] eqn:Hlive;
    try done; intros _.
  - fold (purge 0 (now - window) z).
    apply lookup_live_Some in Hlive as [_ Halive].
    assert (∀ v, alive now (Entry v t) = true) as Hstill by (intros; exact Halive).
    destruct (decide (purge 0 (now - window) z = ∅)) as [Hempty|Hne].
    + rewrite Hempty. run_lookups.
      destruct (window <=? 0); do 2 eexists.
      * by rewrite delete_insert_eq, delete_delete_eq.
      * by rewrite insert_insert_eq, insert_delete_eq, insert_empty.
    + repeat (rewrite lookup_live_insert_eq, Hstill; simpl).
      destruct (window <=? 0); do 2 eexists.
      * by rewrite !delete_insert_eq.
      * by rewrite !insert_insert_eq.
  - rewrite purge_empty. simpl. rewrite Hlive. run_lookups.
    destruct (window <=? 0); do 2 eexists.
    + by rewrite delete_insert_eq.
    + by rewrite insert_insert_eq, insert_empty.
Qed.

(** The pipeline of [check_rate_limit]: purge, count, add, expire. *)
Lemma rate_pipeline key now window (db : redis) :
  zset_well_typed now db key →
  ∃ removed added,
    pipe (pipe (pipe
      (cmd_zremrangebyscore key 0 (now - window))
      (cmd_zcard key))
      (cmd_zadd key (pretty now) now))
      (cmd_expire key window) now db
    = (db_after_window key now window db,
       Ok (removed,
           Z.of_nat (size (purge 0 (now - window) (zset_at now db key))),
           added, ())).
Proof.
  unfold zset_well_typed, db_after_window, window_after, zset_at, pipe,
    cmd_zremrangebyscore, cmd_zadd, cmd_zcard, cmd_expire.
  destruct (lookup_live now db key) as [[[v|members|z] t]|] eqn:Hlive;
    try done; intros _.
  - fold (purge 0 (now - window) z).
    apply lookup_live_Some in Hlive as [_ Halive].
    assert (∀ v, alive now (Entry v t) = true) as Hstill by (intros; exact Halive).
    destruct (decide (purge 0 (now - window) z = ∅)) as [Hempty|Hne].
    + rewrite Hempty. run_lookups.
      destruct (window <=? 0); do 2 eexists.
      * by rewrite delete_insert_eq, delete_delete_eq.
      * by rewrite insert_insert_eq, insert_delete_eq, insert_empty.
    + repeat (rewrite lookup_live_insert_eq, Hstill; simpl).
      destruct (window <=? 0); do 2 eexists.
      * by rewrite !delete_insert_eq.
      * by rewrite !insert_insert_eq.
  - rewrite purge_empty. simpl. rewrite !Hlive. run_lookups.
    destruct (window <=? 0); do 2 eexists.
    + by rewrite delete_insert_eq.
    + by rewrite insert_insert_eq, insert_empty.
Qed.

(** [record_failed_login], one call: the window is purged, gets the entry of
    this second and a fresh expiry; at five or more entries the lock flag is
    set for 900 seconds. *)
Lemma record_failed_login_eq settings identifier now s :
  zset_well_typed now (redis_db s) (failed_key identifier) →
  RateLimiter.record_failed_login settings identifier now s =
  let count := failure_count settings now s identifier in
  let db1 := db_after_window (failed_key identifier) now
               (login_rate_limit_window settings) (redis_db s) in
  if RateLimiter.MAX_FAILED_ATTEMPTS <=? count then
    (State (<[lock_key identifier :=
               Entry (RString "1") (Some (now + RateLimiter.LOCKOUT_DURATION))]> db1)
           (users s),
     Ok (true, 0))
  else (State db1 (users s), Ok (false, RateLimiter.MAX_FAILED_ATTEMPTS - count)).
Proof.
  intros Htyped.
  unfold RateLimiter.record_failed_login, bind, time, redis_call.
  destruct (failed_pipeline (failed_key identifier) now
              (login_rate_limit_window settings) (redis_db s) Htyped)
    as (removed & added & Hpipe).
  unfold failed_key in *. rewrite Hpipe. cbn [fst snd].
  unfold failure_count, failed_key.
  destruct (_ <=? _); [|done].
  unfold RateLimiter.lock_account, RedisClient.set, redis_call, cmd_set, ret.
  done.
Qed.

(** [check_rate_limit], one call: the count is taken after the purge and
    before the insertion; a request under the limit is allowed and reports
    [limit - count - 1], a request at the limit is denied and reports the
    time until the oldest entry leaves the window, at least 1. Either way the
    entry of this second is written. *)
Lemma check_rate_limit_eq key limit window prefix now s :
  zset_well_typed now (redis_db s) (prefix +:+ key) →
  RateLimiter.check_rate_limit key limit window prefix now s =
  let z := zset_at now (redis_db s) (prefix +:+ key) in
  let count := Z.of_nat (size (purge 0 (now - window) z)) in
  (State (db_after_window (prefix +:+ key) now window (redis_db s)) (users s),
   if limit <=? count
   then Ok (false, 0, Z.max (retry_after_of now window z) 1)
   else Ok (true, limit - count - 1, 0)).
Proof.
  intros Htyped.
  unfold RateLimiter.check_rate_limit, bind, time, redis_call.
  destruct (rate_pipeline (prefix +:+ key) now window (redis_db s) Htyped)
    as (removed & added & Hpipe).
  rewrite Hpipe. cbn [fst snd].
  destruct (limit <=? _); [|done].
  unfold cmd_zrange_first, db_after_window, retry_after_of, oldest, ret.
  destruct (Z.leb_spec window 0); simpl.
  - by rewrite lookup_live_delete_eq.
  - rewrite lookup_live_insert_eq. unfold alive. simpl.
    destruct (Z.ltb_spec now (now + window)); [|lia].
    by destruct (zmin _).
Qed.

(** *** Requests in pairwise distinct seconds *)

Lemma zmin_elem l m : zmin l = Some m → m ∈ l.
Proof.
  revert m. induction l as [|x l IH]; intros m; [done|].
  simpl. destruct (zmin l) as [y|].
  - destruct (zless x y); intros [= <-].
    + apply list_elem_of_here.
    + apply list_elem_of_further. by apply IH.
  - intros [= <-]. apply list_elem_of_here.
Qed.

Lemma zmin_least l m : zmin l = Some m → ∀ x, x ∈ l → m.2 ≤ x.2.
Proof.
  revert m. induction l as [|y l IH]; intros m Hmin x Hin.
  { by apply elem_of_nil in Hin. }
  simpl in Hmin.
  destruct (zmin l) as [least|] eqn:Hl.
  - pose proof (IH least eq_refl) as Hleast.
    assert (m.2 ≤ y.2 ∧ m.2 ≤ least.2) as [Hy Hrest].
    { unfold zless in Hmin.
      destruct (Z.ltb_spec y.2 least.2); simpl in Hmin.
      - injection Hmin as <-. lia.
      - destruct (Z.eqb_spec y.2 least.2); simpl in Hmin.
        + destruct (String.ltb y.1 least.1); injection Hmin as <-; lia.
        + injection Hmin as <-. lia. }
    apply elem_of_cons in Hin as [->|Hin]; [done|].
    specialize (Hleast x Hin). lia.
  - destruct l as [|z l];
      [|simpl in Hl; destruct (zmin l) as [w|]; [destruct (zless z w)|]; done].
    injection Hmin as <-.
    apply elem_of_cons in Hin as [->|Hin]; [lia | by apply elem_of_nil in Hin].
Qed.

Lemma zmin_is_Some l x : x ∈ l → is_Some (zmin l).
Proof.
  destruct l as [|y l]; [by intros ?%elem_of_nil|].
  intros _. simpl. destruct (zmin l) as [least|]; [|eauto].
  destruct (zless y least); eauto.
Qed.

Lemma entries_lookup_Some seconds member score :
  entries seconds !! member = Some score →
  member = pretty score ∧ score ∈ seconds.
Proof.
  unfold entries. induction seconds as [|t seconds IH]; [done|].
  rewrite fmap_cons, list_to_map_cons.
  destruct (decide (pretty t = member)) as [<-|Hne].
  - rewrite lookup_insert_eq. intros [= <-]. split; [done | apply list_elem_of_here].
  - rewrite lookup_insert_ne by done. intros [-> Hin]%IH.
    split; [done | by apply list_elem_of_further].
Qed.

Lemma entries_lookup_elem seconds t :
  t ∈ seconds → entries seconds !! pretty t = Some t.
Proof.
  unfold entries. induction seconds as [|t' seconds IH]; [by intros ?%elem_of_nil|].
  rewrite fmap_cons, list_to_map_cons.
  destruct (decide (t' = t)) as [->|Hne].
  - intros _. by rewrite lookup_insert_eq.
  - intros [?|Hin]%elem_of_cons; [done|].
    rewrite lookup_insert_ne; [by apply IH|].
    intros Heq. by apply (inj pretty) in Heq.
Qed.

Lemma entries_lookup_fresh seconds t :
  t ∉ seconds → entries seconds !! pretty t = None.
Proof.
  intros Hfresh. destruct (entries seconds !! pretty t) as [score|] eqn:Hl; [|done].
  apply entries_lookup_Some in Hl as [Heq Hin].
  apply (inj pretty) in Heq as ->. done.
Qed.

Lemma size_entries seconds : NoDup seconds → size (entries seconds) = length seconds.
Proof.
  induction 1 as [|t seconds Hfresh Hnodup IH]; [done|].
  unfold entries in *. rewrite fmap_cons, list_to_map_cons.
  rewrite map_size_insert_None by by apply entries_lookup_fresh.
  simpl. by rewrite IH.
Qed.

(** Entries younger than the window survive the purge. *)
Lemma purge_entries now window seconds :
  (∀ t, t ∈ seconds → now - window < t) →
  purge 0 (now - window) (entries seconds) = entries seconds.
Proof.
  intros Hyoung. apply map_filter_id. intros member score Hl.
  apply entries_lookup_Some in Hl as [_ Hin].
  unfold in_score_range. simpl. specialize (Hyoung score Hin). lia.
Qed.

(** The oldest entry of a window carries the least of its seconds. *)
Lemma oldest_entries seconds first :
  first ∈ seconds → (∀ t, t ∈ seconds → first ≤ t) →
  ∃ m, oldest (entries seconds) = Some m ∧ m.2 = first.
Proof.
  intros Hin Hleast. unfold oldest.
  assert ((pretty first, first) ∈ map_to_list (entries seconds)) as Hfirst
    by by apply elem_of_map_to_list, entries_lookup_elem.
  destruct (zmin_is_Some _ _ Hfirst) as [m Hm].
  exists m. split; [done|].
  pose proof (zmin_least _ _ Hm _ Hfirst) as Hle. simpl in Hle.
  apply zmin_elem, elem_of_map_to_list' in Hm.
  apply entries_lookup_Some in Hm as [_ Hm]. specialize (Hleast _ Hm). lia.
Qed.

Lemma window_after_entries now window counted :
  (∀ t, t ∈ counted → now - window < t) →
  window_after now window (entries counted) = entries (now :: counted).
Proof. intros Hyoung. unfold window_after. by rewrite purge_entries. Qed.

(** After a request at [now] the window tracks one more second, for as long
    as its new expiry allows. *)
Lemma window_tracks_step key now window (db : redis) counted rest :
  0 < window →
  zset_at now db key = entries counted →
  (∀ t, t ∈ counted → now - window < t) →
  (∀ t, t ∈ rest → t < now + window) →
  window_tracks key (db_after_window key now window db) (now :: counted) rest.
Proof.
  intros Hpos Hz Hyoung Hsoon t Hin.
  unfold db_after_window, zset_well_typed, zset_at.
  destruct (Z.leb_spec window 0); [lia|].
  rewrite lookup_live_insert_eq. unfold alive. simpl.
  destruct (Z.ltb_spec t (now + window)); [|specialize (Hsoon t Hin); lia].
  split; [done|]. fold (zset_at now db key). rewrite Hz.
  by apply window_after_entries.
Qed.

(** The least second of a run is among those counted after its first
    request. *)
Lemma first_is_counted first now (counted rest : list Z) :
  first ∈ (counted ++ now :: rest)%list →
  first ≤ now →
  (∀ t, t ∈ rest → now < t) →
  first ∈ now :: counted.
Proof.
  intros [Hin|[->|Hin]%elem_of_cons]%elem_of_app Hle Hsorted.
  - by apply list_elem_of_further.
  - apply list_elem_of_here.
  - specialize (Hsorted first Hin). lia.
Qed.

(** Requests of one client at strictly increasing seconds inside one window:
    the sliding window counts every one of them. *)
Lemma rate_limit_run key limit window prefix first :
  0 < window →
  ∀ times counted s,
    window_tracks (prefix +:+ key) (redis_db s) counted times →
    StronglySorted Z.lt times →
    NoDup counted →
    (∀ d t, d ∈ counted → t ∈ times → d < t) →
    (∀ t, t ∈ (counted ++ times)%list → first ≤ t < first + window) →
    first ∈ (counted ++ times)%list →
    (run_all ((λ t, (t, RateLimiter.check_rate_limit key limit window prefix))
                <$> times) s).2
    = expected_results limit window first (length counted) times.
Proof.
  intros Hpos times.
  induction times as [|now rest IH];
    intros counted s Htracks Hsorted Hnodup Hbefore Hwithin Hfirst; [done|].
  apply StronglySorted_inv in Hsorted as [Hsorted Hnow].
  rewrite Forall_forall in Hnow.
  destruct (Htracks now) as [Htyped Hz]; [apply list_elem_of_here|].
  assert (first ≤ now < first + window) as Hnow_in
    by (apply Hwithin, elem_of_app; right; apply list_elem_of_here).
  assert (∀ t, t ∈ counted → now - window < t) as Hyoung.
  { intros t Hin.
    assert (first ≤ t < first + window) by (apply Hwithin, elem_of_app; by left).
    lia. }
  rewrite fmap_cons. cbn [run_all].
  rewrite check_rate_limit_eq by done. rewrite Hz. cbv zeta.
  rewrite purge_entries, size_entries by done.
  set (s1 := State _ (users s)).
  specialize (IH (now :: counted) s1).
  destruct (run_all _ s1) as [s2 results]. cbn [snd expected_results].
  f_equal.
  - destruct (limit <=? _); [|done].
    do 3 f_equal. unfold retry_after_of.
    destruct (Z.leb_spec window 0); [lia|].
    rewrite window_after_entries by done.
    destruct (oldest_entries (now :: counted) first) as (m & -> & ->).
    + apply (first_is_counted first now counted rest); [done | lia | done].
    + intros t [->|Hin]%elem_of_cons; [lia|].
      apply Hwithin, elem_of_app. by left.
    + lia.
  - apply IH.
    + subst s1. simpl. apply window_tracks_step; try done.
      intros t Hin.
      assert (first ≤ t < first + window)
        by (apply Hwithin, elem_of_app; right; by apply list_elem_of_further).
      lia.
    + done.
    + apply NoDup_cons. split; [|done].
      intros Hin. specialize (Hbefore now now Hin (list_elem_of_here _ _)). lia.
    + intros d t [->|Hin]%elem_of_cons Ht; [by apply Hnow|].
      apply Hbefore; [done | by apply list_elem_of_further].
    + intros t Hin. apply Hwithin.
      rewrite elem_of_app, elem_of_cons.
      apply elem_of_cons in Hin as [->|Hin]; [by right; left|].
      apply elem_of_app in Hin as [?|?]; [by left | by right; right].
    + apply elem_of_cons.
      apply elem_of_app in Hfirst as [?|[->|?]%elem_of_cons].
      * right. apply elem_of_app. by left.
      * by left.
      * right. apply elem_of_app. by right.
Qed.

Lemma lookup_live_None_later now later (db : redis) key :
  lookup_live now db key = None → now ≤ later → lookup_live later db key = None.
Proof.
  unfold lookup_live, alive. intros Hnone Hle.
  destruct (db !! key) as [[v [t|]]|]; simpl in *; try done.
  destruct (Z.ltb_spec now t); [done|].
  destruct (Z.ltb_spec later t); [lia | done].
Qed.

Lemma expected_results_lookup limit window first count times i :
  expected_results limit window first count times !! i
  = (λ t, if limit <=? Z.of_nat (count + i)
          then Ok (false, 0, first + window - t)
          else Ok (true, limit - Z.of_nat (count + i) - 1, 0)) <$> times !! i.
Proof.
  revert count i. induction times as [|now rest IH]; intros count i; [done|].
  destruct i as [|i]; simpl.
  - by rewrite Nat.add_0_r.
  - rewrite IH. by replace (S count + i)%nat with (count + S i)%nat by lia.
Qed.

(** X1. The part of C3 that holds. For one client without tracked entries, and
    requests at strictly increasing seconds inside one window, request number
    [i] (from 0) is allowed exactly when [i < limit] and then reports
    [remaining = limit - i - 1]; every later one is denied with
    [retry_after = first + window - now], which is positive. *)
Lemma sliding_window_distinct_seconds key limit window prefix first rest s :
  0 < window →
  lookup_live first (redis_db s) (prefix +:+ key) = None →
  StronglySorted Z.lt (first :: rest) →
  (∀ t, t ∈ rest → t < first + window) →
  ∀ i now,
    (first :: rest) !! i = Some now →
    (run_all ((λ t, (t, RateLimiter.check_rate_limit key limit window prefix))
                <$> first :: rest) s).2 !! i
    = Some (if limit <=? Z.of_nat i
            then Ok (false, 0, first + window - now)
            else Ok (true, limit - Z.of_nat i - 1, 0))
    ∧ 0 < first + window - now.
Proof.
  intros Hpos Hnone Hsorted Hwithin i now Hi.
  assert (∀ t, t ∈ first :: rest → first ≤ t < first + window) as Hin_window.
  { apply StronglySorted_inv in Hsorted as [_ Hfirst].
    rewrite Forall_forall in Hfirst.
    intros t [->|Hin]%elem_of_cons; [lia|].
    specialize (Hfirst t Hin). specialize (Hwithin t Hin). lia. }
  split.
  - rewrite (rate_limit_run key limit window prefix first Hpos (first :: rest) [] s).
    + rewrite expected_results_lookup, Hi. done.
    + intros t Hin.
      assert (lookup_live t (redis_db s) (prefix +:+ key) = None) as Hgone
        by (apply (lookup_live_None_later first); [done | apply Hin_window, Hin]).
      unfold zset_well_typed, zset_at. by rewrite Hgone.
    + done.
    + apply NoDup_nil_2.
    + by intros d t ?%elem_of_nil.
    + done.
    + apply list_elem_of_here.
  - apply list_elem_of_lookup_2 in Hi. specialize (Hin_window now Hi). lia.
Qed.

(** *** Requests within the same second *)

(** A second request in the same second leaves the window as the first one
    left it: it is not counted. *)
Lemma same_second_request_not_counted now window z :
  0 < window →
  window_after now window (window_after now window z) = window_after now window z.
Proof.
  intros Hpos. unfold window_after, purge.
  rewrite map_filter_insert_True by (unfold in_score_range; simpl; lia).
  rewrite insert_insert_eq. f_equal.
  apply map_filter_id. intros member score Hl.
  by apply map_lookup_filter_Some in Hl as [_ Hkept].
Qed.

Lemma purge_entries_recent now window counted :
  (∀ c, c ∈ counted → 0 ≤ c) →
  purge 0 (now - window) (entries counted) = entries (recent now window counted).
Proof.
  intros Hnonneg. apply map_eq. intros member. apply option_eq. intros score.
  unfold purge. rewrite map_lookup_filter_Some. unfold in_score_range. simpl.
  split.
  - intros [Hl Hout]. apply entries_lookup_Some in Hl as [-> Hin].
    apply entries_lookup_elem, list_elem_of_filter. split; [|done].
    specialize (Hnonneg score Hin). lia.
  - intros Hl. apply entries_lookup_Some in Hl as [-> Hin].
    apply list_elem_of_filter in Hin as [Hyoung Hin].
    split; [by apply entries_lookup_elem | lia].
Qed.

(** A window with one entry per second holds at most as many entries as the
    stretch of time its seconds come from is long. *)
Lemma size_entries_bound counted lo n :
  (∀ c, c ∈ counted → lo < c ≤ lo + n) →
  Z.of_nat (size (entries counted)) ≤ Z.max n 0.
Proof.
  intros Hrange.
  rewrite <- (size_dom (D := gset string)).
  assert (dom (entries counted) ⊆
          (list_to_set (pretty <$> seqZ (lo + 1) n) : gset string)) as Hsub.
  { intros member [score Hl]%elem_of_dom.
    apply entries_lookup_Some in Hl as [-> Hin].
    apply elem_of_list_to_set, list_elem_of_fmap_2, elem_of_seqZ.
    specialize (Hrange score Hin). lia. }
  apply subseteq_size in Hsub.
  rewrite size_list_to_set in Hsub
    by (apply (NoDup_fmap_2 _), NoDup_seqZ).
  rewrite length_fmap, length_seqZ in Hsub. lia.
Qed.

Lemma tidy_absent now (db : redis) key :
  lookup_live now db key = None → tidy now db key.
Proof.
  intros Hnone. unfold tidy, zset_well_typed, zset_at. rewrite Hnone.
  split; [done|]. exists []. split; [done|]. by intros c ?%elem_of_nil.
Qed.

(** The windows that the limiter writes stay tidy as time goes on. *)
Lemma tidy_step key now later window (db : redis) :
  tidy now db key → 0 ≤ now → now ≤ later →
  tidy later (db_after_window key now window db) key.
Proof.
  intros (Htyped & counted & Hz & Hrange) Hnonneg Hlater.
  unfold db_after_window.
  destruct (Z.leb_spec window 0).
  { apply tidy_absent, lookup_live_delete_eq. }
  rewrite Hz. unfold tidy, zset_well_typed, zset_at.
  rewrite lookup_live_insert_eq. unfold alive. simpl.
  destruct (Z.ltb_spec later (now + window)).
  - split; [done|]. exists (now :: recent now window counted). split.
    + unfold window_after.
      rewrite purge_entries_recent; [done|].
      intros c Hc. by apply Hrange.
    + intros c [->|Hc]%elem_of_cons; [lia|].
      apply list_elem_of_filter in Hc as [_ Hc]. specialize (Hrange c Hc). lia.
  - split; [done|]. exists []. split; [done|]. by intros c ?%elem_of_nil.
Qed.

(** On a tidy window a limit above the number of seconds of the window is
    never reached. *)
Lemma check_rate_limit_never_full key limit window prefix now s :
  tidy now (redis_db s) (prefix +:+ key) →
  0 < window < limit →
  allowed (RateLimiter.check_rate_limit key limit window prefix now s).2.
Proof.
  intros (Htyped & counted & Hz & Hrange) Hlimit.
  rewrite check_rate_limit_eq by done. cbv zeta. rewrite Hz. simpl.
  rewrite purge_entries_recent by (intros c Hc; by apply Hrange).
  pose proof (size_entries_bound (recent now window counted) (now - window) window)
    as Hbound.
  destruct (Z.leb_spec limit (Z.of_nat (size (entries (recent now window counted)))))
    as [Hfull|_]; [|by eexists].
  exfalso. apply Z.le_ngt in Hfull. apply Hfull.
  eapply Z.le_lt_trans; [apply Hbound|lia].
  intros c [Hyoung Hc]%list_elem_of_filter. specialize (Hrange c Hc). lia.
Qed.

(** So a limiter whose limit exceeds its window in seconds admits every
    request of every run that starts without entries, however many requests
    arrive. The default global limit, 100 requests in 60 seconds, is one. *)
Lemma rate_limit_never_denies key limit window prefix :
  0 < window < limit →
  ∀ times s,
    (∀ t, t ∈ times → tidy t (redis_db s) (prefix +:+ key)) →
    Sorted Z.le times →
    (∀ t, t ∈ times → 0 ≤ t) →
    Forall allowed
      (run_all ((λ t, (t, RateLimiter.check_rate_limit key limit window prefix))
                  <$> times) s).2.
Proof.
  intros Hlimit times.
  induction times as [|now rest IH]; intros s Htidy Hsorted Hnonneg.
  { constructor. }
  rewrite fmap_cons. cbn [run_all].
  pose proof (check_rate_limit_never_full key limit window prefix now s
                (Htidy now (list_elem_of_here _ _)) Hlimit) as Hallowed.
  assert ((RateLimiter.check_rate_limit key limit window prefix now s).1
          = State (db_after_window (prefix +:+ key) now window (redis_db s)) (users s))
    as Hstate.
  { destruct (Htidy now (list_elem_of_here _ _)) as [Htyped _].
    by rewrite check_rate_limit_eq. }
  destruct (RateLimiter.check_rate_limit key limit window prefix now s) as [s1 r].
  simpl in Hallowed, Hstate. subst s1.
  apply Sorted_StronglySorted in Hsorted; [|intros x y z; apply Z.le_trans].
  apply StronglySorted_inv in Hsorted as [Hsorted Hnow].
  rewrite Forall_forall in Hnow.
  specialize (IH (State (db_after_window (prefix +:+ key) now window (redis_db s))
                        (users s))).
  destruct (run_all _ _) as [s2 results]. simpl in *.
  constructor; [done|]. apply IH.
  - intros t Hin. apply tidy_step.
    + apply Htidy, list_elem_of_here.
    + apply Hnonneg, list_elem_of_here.
    + by apply Hnow.
  - by apply StronglySorted_Sorted.
  - intros t Hin. by apply Hnonneg, list_elem_of_further.
Qed.

(** X2. With the default settings (100 requests per 60 seconds) the global
    limit never denies a request: for one client whose window is not tracked
    yet, every request of a run at non-decreasing times is allowed, however
    many there are, since a window of 60 seconds cannot hold 100 entries of one
    per second. *)
Lemma default_global_limit_never_denies identifier times s :
  lookup_live (default 0 (head times)) (redis_db s)
    (RateLimiter.GLOBAL_PREFIX +:+ identifier) = None →
  Sorted Z.le times →
  (∀ t, t ∈ times → 0 ≤ t) →
  Forall allowed
    (run_all ((λ t, (t, RateLimiter.check_global_limit default_settings identifier))
                <$> times) s).2.
Proof.
  intros Hnone Hsorted Hnonneg.
  apply (rate_limit_never_denies identifier 100 60 RateLimiter.GLOBAL_PREFIX);
    [lia | | done | done].
  intros t Hin. apply tidy_absent.
  destruct times as [|first rest]; [by apply elem_of_nil in Hin|].
  simpl in Hnone. apply (lookup_live_None_later first); [done|].
  apply elem_of_cons in Hin as [->|Hin]; [lia|].
  apply Sorted_StronglySorted in Hsorted; [|intros x y z; apply Z.le_trans].
  apply StronglySorted_inv in Hsorted as [_ Hfirst].
  rewrite Forall_forall in Hfirst. by apply Hfirst.
Qed.

(** ** Login *)

Lemma is_account_locked_eq identifier now s :
  RateLimiter.is_account_locked identifier now s =
  (s, Ok (if locked now s identifier
          then (true, Some (Z.max (lock_ttl now s identifier) 0))
          else (false, None))).
Proof.
  unfold RateLimiter.is_account_locked, RedisClient.exists_, RedisClient.ttl,
    bind, redis_call, cmd_exists, cmd_ttl, ret, locked, lock_ttl, lock_key.
  rewrite state_eta.
  destruct (lookup_live now (redis_db s) _) as [e|] eqn:Hlive; simpl; [|done].
  by rewrite state_eta, Hlive.
Qed.

Lemma login_locked settings {hasher : PasswordHasher} data client_ip a r now s :
  locked now s (login_email data) = true →
  AuthService.login settings data client_ip a r now s =
  (s, Raise (AccountLockedError
       ("Account temporarily locked. Try again in "
        +:+ pretty (Z.max (lock_ttl now s (login_email data)) 0) +:+ " seconds."))).
Proof.
  intros Hlocked. unfold AuthService.login, bind.
  rewrite is_account_locked_eq, Hlocked. done.
Qed.

(** [login] on an account that is not locked, up to the password check. *)
Lemma login_unlocked settings {hasher : PasswordHasher} data client_ip a r now s :
  locked now s (login_email data) = false →
  AuthService.login settings data client_ip a r now s =
  match user_by_email s (login_email data) with
  | None =>
      match RateLimiter.record_failed_login settings (login_email data) now s with
      | (s1, Ok _) => (s1, Raise (InvalidCredentialsError "Invalid email or password"))
      | (s1, Raise e) => (s1, Raise e)
      end
  | Some user =>
      if negb (User.is_active user) then
        (s, Raise (AuthenticationError "Account is deactivated"))
      else if negb (verify (login_password data) (User.password_hash user)) then
        match RateLimiter.record_failed_login settings (login_email data) now s with
        | (s1, Ok (true, _)) =>
            (s1, Raise (AccountLockedError
                          "Too many failed attempts. Account temporarily locked."))
        | (s1, Ok (false, _)) =>
            (s1, Raise (InvalidCredentialsError "Invalid email or password"))
        | (s1, Raise e) => (s1, Raise e)
        end
      else
        let user' := User.with_last_login user now in
        let cleared :=
          State (delete (failed_key (login_email data)) (redis_db s))
                (save_user user' (users s)) in
        let issued := AuthService._create_tokens settings user' a r now cleared in
        (issued.1, match issued.2 with
                   | Ok tokens => Ok (user', tokens)
                   | Raise e => Raise e
                   end)
  end.
Proof.
  intros Hlocked. unfold AuthService.login, bind.
  rewrite is_account_locked_eq, Hlocked.
  unfold user_repo_get_by_email, user_by_email.
  destruct (find _ (users s)) as [user|].
  - destruct (negb (User.is_active user)); [done|].
    destruct (negb (verify _ _)).
    + by destruct (RateLimiter.record_failed_login _ _ now s)
        as [s1 [[[] remaining]|e]].
    + unfold RateLimiter.clear_failed_logins, RedisClient.delete, redis_call,
        cmd_delete, user_repo_update_last_login, ret, failed_key.
      simpl.
      by destruct (AuthService._create_tokens _ _ a r now _) as [s2 [tokens|e]].
  - by destruct (RateLimiter.record_failed_login _ _ now s) as [s1 [res|e]].
Qed.

Lemma sessions_key_ne_failed_key user_id identifier :
  TokenBlacklist.USER_SESSIONS_PREFIX +:+ user_id ≠ failed_key identifier.
Proof. discriminate. Qed.

Lemma db_after_window_other key now window (db : redis) key' :
  key ≠ key' → db_after_window key now window db !! key' = db !! key'.
Proof.
  intros Hne. unfold db_after_window. destruct (window <=? 0).
  - by rewrite lookup_delete_ne.
  - by rewrite lookup_insert_ne.
Qed.

(** What a recorded failure leaves: the window holds the entry of this
    second and has as many entries as were counted, and the lock flag is in
    force exactly when the count reached the maximum. *)
Lemma recorded_failure settings identifier now s :
  let window := login_rate_limit_window settings in
  let count := failure_count settings now s identifier in
  let recorded :=
    db_after_window (failed_key identifier) now window (redis_db s) in
  let flag := Entry (RString "1") (Some (now + RateLimiter.LOCKOUT_DURATION)) in
  let left :=
    State (if RateLimiter.MAX_FAILED_ATTEMPTS <=? count
           then <[lock_key identifier := flag]> recorded else recorded)
          (users s) in
  (0 < window →
     zset_at now (redis_db left) (failed_key identifier) !! pretty now = Some now
     ∧ Z.of_nat (size (zset_at now (redis_db left) (failed_key identifier))) = count)
  ∧ (locked now s identifier = false →
     locked now left identifier = (RateLimiter.MAX_FAILED_ATTEMPTS <=? count)).
Proof.
  intros window count recorded flag left. split.
  - intros Hpos.
    assert (zset_at now (redis_db left) (failed_key identifier)
            = window_after now window
                (zset_at now (redis_db s) (failed_key identifier))) as ->.
    { subst left recorded. cbn [redis_db].
      assert (zset_at now
                (db_after_window (failed_key identifier) now window (redis_db s))
                (failed_key identifier)
              = window_after now window
                  (zset_at now (redis_db s) (failed_key identifier))) as Hwin.
      { unfold db_after_window.
        destruct (Z.leb_spec window 0) as [|_]; [lia|].
        unfold zset_at at 1. rewrite lookup_live_insert_eq.
        unfold alive. cbn [expire_at].
        by destruct (Z.ltb_spec now (now + window)); [|lia]. }
      destruct (_ <=? count); [|done].
      unfold zset_at at 1.
      rewrite lookup_live_insert_ne by apply lock_key_ne_failed_key.
      exact Hwin. }
    split; [|done]. unfold window_after. apply lookup_insert_eq.
  - intros Hunlocked. subst left. unfold locked in *. cbn [redis_db].
    fold (lock_key identifier) in *.
    destruct (_ <=? count).
    + rewrite lookup_live_insert_eq. subst flag. unfold alive. cbn [expire_at].
      unfold RateLimiter.LOCKOUT_DURATION.
      by destruct (Z.ltb_spec now (now + 900)); [|lia].
    + subst recorded. unfold lookup_live in *.
      rewrite db_after_window_other
        by (apply not_eq_sym, lock_key_ne_failed_key).
      exact Hunlocked.
Qed.

(** C5. [login] decides in a fixed order. A locked account raises
    [AccountLockedError] with the remaining seconds and touches nothing. An
    unknown email records a failed attempt and raises
    [InvalidCredentialsError]. An inactive user raises [AuthenticationError]
    and nothing is recorded. A wrong password records a failed attempt and
    raises [AccountLockedError] exactly when that attempt locks the account,
    [InvalidCredentialsError] otherwise. Recording means: the window of the
    email is left purged, with the entry of this second and a fresh expiry,
    and the lock flag is set for 900 seconds exactly when the window then
    holds five entries or more; the state [login] leaves is this one, whenever
    the key of the window holds a sorted set or nothing. On success the
    failed-attempt window is deleted and the last login stored before the
    pair is issued, and the window is still absent afterwards. *)
Theorem login_order settings {hasher : PasswordHasher} data client_ip a r now s :
  let email := login_email data in
  let outcome := AuthService.login settings data client_ip a r now s in
  let window := login_rate_limit_window settings in
  let count := failure_count settings now s email in
  let recorded := db_after_window (failed_key email) now window (redis_db s) in
  let flag := Entry (RString "1") (Some (now + RateLimiter.LOCKOUT_DURATION)) in
  let locks := RateLimiter.MAX_FAILED_ATTEMPTS <=? count in
  let left :=
    State (if locks then <[lock_key email := flag]> recorded else recorded)
          (users s) in
  (locked now s email = true →
     outcome =
     (s, Raise (AccountLockedError
          ("Account temporarily locked. Try again in "
           +:+ pretty (Z.max (lock_ttl now s email) 0) +:+ " seconds."))))
  ∧ (locked now s email = false →
     (user_by_email s email = None →
        zset_well_typed now (redis_db s) (failed_key email) →
        outcome = (left, Raise (InvalidCredentialsError "Invalid email or password")))
     ∧ (∀ user,
          user_by_email s email = Some user →
          User.is_active user = false →
          outcome = (s, Raise (AuthenticationError "Account is deactivated")))
     ∧ (∀ user,
          user_by_email s email = Some user →
          User.is_active user = true →
          verify (login_password data) (User.password_hash user) = false →
          zset_well_typed now (redis_db s) (failed_key email) →
          outcome =
          (left, Raise (if locks
                        then AccountLockedError
                               "Too many failed attempts. Account temporarily locked."
                        else InvalidCredentialsError "Invalid email or password")))
     ∧ (∀ user,
          user_by_email s email = Some user →
          User.is_active user = true →
          verify (login_password data) (User.password_hash user) = true →
          let user' := User.with_last_login user now in
          let cleared :=
            State (delete (failed_key email) (redis_db s))
                  (save_user user' (users s)) in
          let issued := AuthService._create_tokens settings user' a r now cleared in
          outcome = (issued.1, match issued.2 with
                               | Ok tokens => Ok (user', tokens)
                               | Raise e => Raise e
                               end)
          ∧ redis_db outcome.1 !! failed_key email = None)
     ∧ locked now left email = locks
     ∧ (0 < window →
        zset_at now (redis_db left) (failed_key email) !! pretty now = Some now
        ∧ Z.of_nat (size (zset_at now (redis_db left) (failed_key email))) = count)).
Proof.
  intros email outcome window count recorded flag locks left.
  subst email outcome. split.
  - apply login_locked.
  - intros Hunlocked. rewrite login_unlocked by done.
    destruct (recorded_failure settings (login_email data) now s)
      as [Hstored Hflag].
    split; [|split; [|split; [|split; [|split]]]].
    + intros -> Htyped. rewrite record_failed_login_eq by done.
      cbv zeta. fold count recorded flag locks. subst left.
      by destruct locks.
    + intros user -> ->. done.
    + intros user -> -> -> Htyped. cbn [negb].
      rewrite record_failed_login_eq by done.
      cbv zeta. fold count recorded flag locks. subst left.
      by destruct locks.
    + intros user -> -> ->. simpl. split; [done|].
      rewrite create_tokens_other by apply sessions_key_ne_failed_key.
      simpl. apply lookup_delete_eq.
    + by apply Hflag.
    + exact Hstored.
Qed.

(** A call of [record_failed_login] that reports the lock has set the flag. *)
Lemma record_failed_login_locks settings identifier now s s1 remaining :
  RateLimiter.record_failed_login settings identifier now s
    = (s1, Ok (true, remaining)) →
  redis_db s1 !! lock_key identifier
  = Some (Entry (RString "1") (Some (now + RateLimiter.LOCKOUT_DURATION))).
Proof.
  unfold RateLimiter.record_failed_login, bind, time, redis_call.
  destruct (pipe _ _ now (redis_db s)) as [db1 [results|e]]; [|done].
  cbn [fst snd].
  destruct (_ <=? _); [|done].
  unfold RateLimiter.lock_account, RedisClient.set, redis_call, cmd_set, ret.
  simpl. intros [= <- _]. simpl. apply lookup_insert_eq.
Qed.

(** While the lock flag written at [since] is in force, [login] refuses. *)
Lemma login_while_locked settings {hasher : PasswordHasher} data client_ip a r since later s :
  redis_db s !! lock_key (login_email data)
    = Some (Entry (RString "1") (Some (since + RateLimiter.LOCKOUT_DURATION))) →
  later < since + RateLimiter.LOCKOUT_DURATION →
  AuthService.login settings data client_ip a r later s =
  (s, Raise (AccountLockedError
       ("Account temporarily locked. Try again in "
        +:+ pretty (since + RateLimiter.LOCKOUT_DURATION - later) +:+ " seconds."))).
Proof.
  intros Hflag Hlater.
  assert (lookup_live later (redis_db s) (lock_key (login_email data))
          = Some (Entry (RString "1") (Some (since + RateLimiter.LOCKOUT_DURATION))))
    as Hlive.
  { unfold lookup_live. rewrite Hflag. unfold alive. simpl.
    destruct (Z.ltb_spec later (since + RateLimiter.LOCKOUT_DURATION)); [done | lia]. }
  rewrite login_locked.
  - unfold lock_ttl. rewrite Hlive. simpl.
    by replace (Z.max (since + RateLimiter.LOCKOUT_DURATION - later) 0)
      with (since + RateLimiter.LOCKOUT_DURATION - later) by lia.
  - unfold locked. fold (lock_key (login_email data)). by rewrite Hlive.
Qed.

(** C10. When [login] is called with an email that no user has and the failed
    attempt it records is the one that sets the lock, this call still raises
    [InvalidCredentialsError]; the lock shows from the next call on: any
    [login] for that email made while the 900-second flag is in force raises
    [AccountLockedError], whatever password it carries. *)
Theorem unknown_email_lock_is_deferred settings {hasher : PasswordHasher}
    data client_ip a r now s s1 remaining :
  locked now s (login_email data) = false →
  user_by_email s (login_email data) = None →
  RateLimiter.record_failed_login settings (login_email data) now s
    = (s1, Ok (true, remaining)) →
  AuthService.login settings data client_ip a r now s
    = (s1, Raise (InvalidCredentialsError "Invalid email or password"))
  ∧ ∀ data' client_ip' a' r' later s2,
      login_email data' = login_email data →
      redis_db s2 !! lock_key (login_email data)
        = redis_db s1 !! lock_key (login_email data) →
      later < now + RateLimiter.LOCKOUT_DURATION →
      AuthService.login settings data' client_ip' a' r' later s2
      = (s2, Raise (AccountLockedError
           ("Account temporarily locked. Try again in "
            +:+ pretty (now + RateLimiter.LOCKOUT_DURATION - later)
            +:+ " seconds."))).
Proof.
  intros Hunlocked Hunknown Hrecord. split.
  - rewrite login_unlocked by done. by rewrite Hunknown, Hrecord.
  - intros data' client_ip' a' r' later s2 Hemail Hkept Hlater.
    apply login_while_locked; [|done].
    rewrite Hemail, Hkept. by eapply record_failed_login_locks.
Qed.

(** ** Failed logins in pairwise distinct seconds *)

(** A failed login on a window of [counted] earlier seconds counts one more
    and locks at five. *)
Lemma record_failed_login_counts settings identifier now s counted :
  0 < login_rate_limit_window settings →
  zset_well_typed now (redis_db s) (failed_key identifier) →
  zset_at now (redis_db s) (failed_key identifier) = entries counted →
  NoDup counted →
  (∀ c, c ∈ counted → now - login_rate_limit_window settings < c < now) →
  RateLimiter.record_failed_login settings identifier now s =
  let db1 := db_after_window (failed_key identifier) now
               (login_rate_limit_window settings) (redis_db s) in
  if RateLimiter.MAX_FAILED_ATTEMPTS <=? Z.of_nat (S (length counted)) then
    (State (<[lock_key identifier :=
               Entry (RString "1") (Some (now + RateLimiter.LOCKOUT_DURATION))]> db1)
           (users s),
     Ok (true, 0))
  else (State db1 (users s),
        Ok (false, RateLimiter.MAX_FAILED_ATTEMPTS - Z.of_nat (S (length counted)))).
Proof.
  intros Hpos Htyped Hz Hnodup Hyoung.
  rewrite record_failed_login_eq by done. cbv zeta.
  unfold failure_count. rewrite Hz.
  rewrite window_after_entries by (intros c Hc; specialize (Hyoung c Hc); lia).
  rewrite size_entries; [done|].
  apply NoDup_cons. split; [|done].
  intros Hin. specialize (Hyoung now Hin). lia.
Qed.

Lemma failed_logins_run settings {hasher : PasswordHasher}
    data client_ip a r user first :
  0 < login_rate_limit_window settings →
  User.is_active user = true →
  verify (login_password data) (User.password_hash user) = false →
  ∀ times counted s,
    user_by_email s (login_email data) = Some user →
    window_tracks (failed_key (login_email data)) (redis_db s) counted times →
    (∀ t, t ∈ times → locked t s (login_email data) = false) →
    StronglySorted Z.lt times →
    NoDup counted →
    (∀ d t, d ∈ counted → t ∈ times → d < t) →
    (∀ t, t ∈ (counted ++ times)%list →
          first ≤ t < first + login_rate_limit_window settings) →
    (length counted + length times ≤ 5)%nat →
    let run := run_all ((λ t, (t, AuthService.login settings data client_ip a r))
                          <$> times) s in
    run.2 = expected_failures (length counted) times
    ∧ ∀ final,
        last times = Some final →
        (length counted + length times = 5)%nat →
        redis_db run.1 !! lock_key (login_email data)
        = Some (Entry (RString "1") (Some (final + RateLimiter.LOCKOUT_DURATION))).
Proof.
  intros Hpos Hactive Hwrong times.
  induction times as [|now rest IH];
    intros counted s Huser Htracks Hunlocked Hsorted Hnodup Hbefore Hwithin Hlen run.
  { split; [done|]. by intros final [=]. }
  subst run.
  apply StronglySorted_inv in Hsorted as [Hsorted Hnow].
  rewrite Forall_forall in Hnow.
  destruct (Htracks now) as [Htyped Hz]; [apply list_elem_of_here|].
  assert (first ≤ now < first + login_rate_limit_window settings) as Hnow_in
    by (apply Hwithin, elem_of_app; right; apply list_elem_of_here).
  assert (∀ c, c ∈ counted → now - login_rate_limit_window settings < c < now)
    as Hyoung.
  { intros c Hin.
    assert (first ≤ c < first + login_rate_limit_window settings)
      by (apply Hwithin, elem_of_app; by left).
    specialize (Hbefore c now Hin (list_elem_of_here _ _)). lia. }
  rewrite fmap_cons. cbn [run_all].
  rewrite login_unlocked by apply Hunlocked, list_elem_of_here.
  rewrite Huser, Hactive, Hwrong. cbn [negb].
  rewrite (record_failed_login_counts settings _ now s counted) by done.
  cbv zeta. cbn [expected_failures].
  set (db1 := db_after_window _ now _ (redis_db s)).
  assert (window_tracks (failed_key (login_email data)) db1 (now :: counted) rest)
    as Htracks1.
  { apply window_tracks_step; try done.
    - intros c Hc. specialize (Hyoung c Hc). lia.
    - intros t Hin.
      assert (first ≤ t < first + login_rate_limit_window settings)
        by (apply Hwithin, elem_of_app; right; by apply list_elem_of_further).
      lia. }
  destruct (Z.leb_spec RateLimiter.MAX_FAILED_ATTEMPTS (Z.of_nat (S (length counted))))
    as [Hfull|Hroom].
  - assert (rest = []) as ->.
    { unfold RateLimiter.MAX_FAILED_ATTEMPTS in Hfull. simpl in Hlen.
      destruct rest; [done | simpl in Hlen; lia]. }
    simpl. split; [done|]. intros final [= <-] _. apply lookup_insert_eq.
  - specialize (IH (now :: counted) (State db1 (users s))).
    destruct (run_all _ (State db1 (users s))) as [s2 results] eqn:Hrun.
    destruct IH as [Hresults Hlock].
    + done.
    + done.
    + intros t Hin. unfold locked. simpl. fold (lock_key (login_email data)).
      unfold lookup_live. subst db1.
      rewrite db_after_window_other
        by (apply not_eq_sym, lock_key_ne_failed_key).
      apply (Hunlocked t). by apply list_elem_of_further.
    + done.
    + apply NoDup_cons. split; [|done].
      intros Hin. specialize (Hyoung now Hin). lia.
    + intros d t [->|Hin]%elem_of_cons Ht; [by apply Hnow|].
      apply Hbefore; [done | by apply list_elem_of_further].
    + intros t Hin. apply Hwithin.
      rewrite elem_of_app, elem_of_cons.
      apply elem_of_cons in Hin as [->|Hin]; [by right; left|].
      apply elem_of_app in Hin as [?|?]; [by left | by right; right].
    + simpl in *. lia.
    + simpl in *. split; [by rewrite Hresults|].
      intros final Hlast Hfive. apply Hlock; [|lia].
      destruct rest as [|t rest]; [|done].
      unfold RateLimiter.MAX_FAILED_ATTEMPTS in Hroom. simpl in Hfive. lia.
Qed.

(** X3. The part of C4 that holds. Five failed logins with a wrong password for
    one active user, at strictly increasing seconds inside the login window
    and starting without failed attempts or lock, raise
    [InvalidCredentialsError] four times and then [AccountLockedError]; from
    then on, for 900 seconds, every login for that email raises
    [AccountLockedError], also with the right password. *)
Lemma five_distinct_failures_lock settings {hasher : PasswordHasher}
    data client_ip a r user t1 t2 t3 t4 t5 s :
  0 < login_rate_limit_window settings →
  user_by_email s (login_email data) = Some user →
  User.is_active user = true →
  verify (login_password data) (User.password_hash user) = false →
  lookup_live t1 (redis_db s) (failed_key (login_email data)) = None →
  lookup_live t1 (redis_db s) (lock_key (login_email data)) = None →
  t1 < t2 < t3 ∧ t3 < t4 < t5 →
  t5 < t1 + login_rate_limit_window settings →
  let run := run_all ((λ t, (t, AuthService.login settings data client_ip a r))
                        <$> [t1; t2; t3; t4; t5]) s in
  run.2 = [Raise (InvalidCredentialsError "Invalid email or password");
           Raise (InvalidCredentialsError "Invalid email or password");
           Raise (InvalidCredentialsError "Invalid email or password");
           Raise (InvalidCredentialsError "Invalid email or password");
           Raise (AccountLockedError
                    "Too many failed attempts. Account temporarily locked.")]
  ∧ ∀ data' client_ip' a' r' later,
      login_email data' = login_email data →
      later < t5 + RateLimiter.LOCKOUT_DURATION →
      AuthService.login settings data' client_ip' a' r' later run.1
      = (run.1, Raise (AccountLockedError
           ("Account temporarily locked. Try again in "
            +:+ pretty (t5 + RateLimiter.LOCKOUT_DURATION - later)
            +:+ " seconds."))).
Proof.
  intros Hpos Huser Hactive Hwrong Hclean Hfree Horder Hwithin run.
  assert (∀ t, t ∈ [t1; t2; t3; t4; t5] → t1 ≤ t < t1 + login_rate_limit_window settings)
    as Hin_window.
  { intros t Hin. repeat (apply elem_of_cons in Hin as [->|Hin]; [lia|]).
    by apply elem_of_nil in Hin. }
  destruct (failed_logins_run settings data client_ip a r user t1
              Hpos Hactive Hwrong [t1; t2; t3; t4; t5] [] s) as [Hresults Hlock].
  - done.
  - intros t Hin.
    assert (lookup_live t (redis_db s) (failed_key (login_email data)) = None) as Hgone
      by (apply (lookup_live_None_later t1); [done | apply Hin_window, Hin]).
    unfold zset_well_typed, zset_at. by rewrite Hgone.
  - intros t Hin. unfold locked. fold (lock_key (login_email data)).
    by rewrite (lookup_live_None_later t1) by (done || apply Hin_window, Hin).
  - repeat (apply SSorted_cons; [|repeat constructor; lia]). constructor.
  - apply NoDup_nil_2.
  - by intros d t ?%elem_of_nil.
  - done.
  - done.
  - fold run in Hresults, Hlock. split; [done|].
    intros data' client_ip' a' r' later Hemail Hlater.
    apply login_while_locked; [|done].
    rewrite Hemail. by apply Hlock.
Qed.

(** ** What a computation leaves alone *)

Lemma avoids_ret {A} key (a : A) : avoids key (ret a).
Proof. by intros now s. Qed.

Lemma avoids_raise {A} key e : avoids key (raise (A := A) e).
Proof. by intros now s. Qed.

Lemma avoids_time key : avoids key time.
Proof. by intros now s. Qed.

Lemma avoids_bind {A B} key (m : M A) (k : A → M B) :
  avoids key m → (∀ a, avoids key (k a)) → avoids key (bind m k).
Proof.
  intros Hm Hk now s. unfold bind.
  specialize (Hm now s). destruct (m now s) as [s1 [a|e]]; simpl in *.
  - by rewrite Hk.
  - done.
Qed.

Lemma avoids_try_pass key body caught :
  avoids key body → avoids key (try_pass body caught).
Proof.
  intros Hbody now s. unfold try_pass.
  specialize (Hbody now s). destruct (body now s) as [s1 [[]|e]]; simpl in *;
    [done|]. by destruct (caught e).
Qed.

Lemma avoids_redis_call {A} key (c : cmd A) :
  cmd_avoids key c → avoids key (redis_call c).
Proof.
  intros Hc now s. unfold redis_call.
  specialize (Hc now (redis_db s)). by destruct (c now (redis_db s)).
Qed.

Lemma avoids_repository {A} key (m : M A) :
  (∀ now s, redis_db (m now s).1 = redis_db s) → avoids key m.
Proof. intros Hm now s. by rewrite Hm. Qed.

Lemma cmd_avoids_read {A} key (c : cmd A) :
  (∀ now db, (c now db).1 = db) → cmd_avoids key c.
Proof. intros Hc now db. by rewrite Hc. Qed.

Lemma cmd_avoids_pipe {A B} key (c1 : cmd A) (c2 : cmd B) :
  cmd_avoids key c1 → cmd_avoids key c2 → cmd_avoids key (pipe c1 c2).
Proof.
  intros H1 H2 now db. unfold pipe.
  specialize (H1 now db). destruct (c1 now db) as [db1 r1].
  specialize (H2 now db1). destruct (c2 now db1) as [db2 r2].
  simpl in *. congruence.
Qed.

Lemma cmd_avoids_set key key' v ex : key' ≠ key → cmd_avoids key (cmd_set key' v ex).
Proof.
  intros Hne now db. unfold cmd_set.
  destruct ex as [seconds|]; [destruct (seconds <=? 0)|]; simpl;
    by rewrite ?lookup_insert_ne.
Qed.

Lemma cmd_avoids_delete key key' : key' ≠ key → cmd_avoids key (cmd_delete key').
Proof. intros Hne now db. simpl. by rewrite lookup_delete_ne. Qed.

Lemma cmd_avoids_exists key key' : cmd_avoids key (cmd_exists key').
Proof. by apply cmd_avoids_read. Qed.

Lemma cmd_avoids_ttl key key' : cmd_avoids key (cmd_ttl key').
Proof. by apply cmd_avoids_read. Qed.

Lemma cmd_avoids_expire key key' seconds :
  key' ≠ key → cmd_avoids key (cmd_expire key' seconds).
Proof. intros Hne now db. by apply cmd_expire_other. Qed.

Lemma cmd_avoids_sadd key key' member :
  key' ≠ key → cmd_avoids key (cmd_sadd key' member).
Proof. intros Hne now db. by apply cmd_sadd_other. Qed.

Lemma cmd_avoids_srem key key' member :
  key' ≠ key → cmd_avoids key (cmd_srem key' member).
Proof. intros Hne now db. by apply cmd_srem_other. Qed.

Lemma cmd_avoids_smembers key key' : cmd_avoids key (cmd_smembers key').
Proof.
  apply cmd_avoids_read. intros now db. unfold cmd_smembers.
  by destruct (lookup_live now db key') as [[[v|members|z] t]|].
Qed.

Lemma cmd_avoids_zremrangebyscore key key' lo hi :
  key' ≠ key → cmd_avoids key (cmd_zremrangebyscore key' lo hi).
Proof.
  intros Hne now db. unfold cmd_zremrangebyscore.
  destruct (lookup_live now db key') as [[[v|members|z] t]|]; simpl; try done.
  destruct (decide _); simpl.
  - by rewrite lookup_delete_ne.
  - by rewrite lookup_insert_ne.
Qed.

Lemma cmd_avoids_zcard key key' : cmd_avoids key (cmd_zcard key').
Proof.
  apply cmd_avoids_read. intros now db. unfold cmd_zcard.
  by destruct (lookup_live now db key') as [[[v|members|z] t]|].
Qed.

Lemma cmd_avoids_zadd key key' member score :
  key' ≠ key → cmd_avoids key (cmd_zadd key' member score).
Proof.
  intros Hne now db. unfold cmd_zadd.
  destruct (lookup_live now db key') as [[[v|members|z] t]|]; simpl; try done;
    by rewrite lookup_insert_ne.
Qed.

Lemma cmd_avoids_zrange_first key key' : cmd_avoids key (cmd_zrange_first key').
Proof.
  apply cmd_avoids_read. intros now db. unfold cmd_zrange_first.
  by destruct (lookup_live now db key') as [[[v|members|z] t]|].
Qed.

(** Decomposes a computation into its store commands and shows that each
    of them works on another key. *)
Ltac solve_avoids :=
  repeat first
    [ apply avoids_ret
    | apply avoids_raise
    | apply avoids_time
    | apply avoids_try_pass
    | apply avoids_bind; [|intros ?]
    | apply avoids_redis_call
    | apply cmd_avoids_pipe
    | apply cmd_avoids_exists
    | apply cmd_avoids_ttl
    | apply cmd_avoids_smembers
    | apply cmd_avoids_zcard
    | apply cmd_avoids_zrange_first
    | apply cmd_avoids_set
    | apply cmd_avoids_delete
    | apply cmd_avoids_expire
    | apply cmd_avoids_sadd
    | apply cmd_avoids_srem
    | apply cmd_avoids_zremrangebyscore
    | apply cmd_avoids_zadd
    | discriminate
    | match goal with
      | |- avoids _ (if ?b then _ else _) => destruct b
      | |- avoids _ (match ?x with _ => _ end) => destruct x
      | |- avoids _ (let '(_, _) := ?x in _) => destruct x
      end ].

Lemma is_account_locked_avoids key identifier :
  avoids key (RateLimiter.is_account_locked identifier).
Proof.
  unfold RateLimiter.is_account_locked, RedisClient.exists_, RedisClient.ttl.
  solve_avoids.
Qed.

Lemma record_failed_login_avoids_tombstone settings identifier jti :
  avoids (TokenBlacklist.KEY_PREFIX +:+ jti)
    (RateLimiter.record_failed_login settings identifier).
Proof.
  unfold RateLimiter.record_failed_login, RateLimiter.lock_account, RedisClient.set.
  solve_avoids.
Qed.

Lemma record_failed_login_avoids_sessions settings identifier user_id :
  avoids (TokenBlacklist.USER_SESSIONS_PREFIX +:+ user_id)
    (RateLimiter.record_failed_login settings identifier).
Proof.
  unfold RateLimiter.record_failed_login, RateLimiter.lock_account, RedisClient.set.
  solve_avoids.
Qed.

(** ** What a computation preserves *)

Lemma keeps_ret {A} inv now (a : A) : keeps inv now (ret a).
Proof. by intros s. Qed.

Lemma keeps_raise {A} inv now e : keeps inv now (raise (A := A) e).
Proof. by intros s. Qed.

Lemma keeps_time inv now : keeps inv now time.
Proof. by intros s. Qed.

Lemma keeps_bind {A B} inv now (m : M A) (k : A → M B) :
  keeps inv now m → (∀ a, keeps inv now (k a)) → keeps inv now (bind m k).
Proof.
  intros Hm Hk s Hinv. unfold bind.
  specialize (Hm s Hinv). destruct (m now s) as [s1 [a|e]]; simpl in *.
  - by apply Hk.
  - done.
Qed.

Lemma keeps_try_pass inv now body caught :
  keeps inv now body → keeps inv now (try_pass body caught).
Proof.
  intros Hbody s Hinv. unfold try_pass.
  specialize (Hbody s Hinv). destruct (body now s) as [s1 [[]|e]]; simpl in *;
    [done|]. by destruct (caught e).
Qed.

(** Under the continuation of [verify_token] the token is known to be
    genuine. *)
Lemma keeps_bind_verify {B} inv now tok (k : TokenPayload.t → M B) :
  (∀ q, tok = Signed true q → keeps inv now (k q)) →
  keeps inv now (bind (JWTService.verify_token tok) k).
Proof.
  intros Hk s Hinv. unfold bind. rewrite jwt_verify_token_eq.
  destruct (jwt_decode now tok) as [q| |why] eqn:Hdec; try done.
  apply jwt_decode_Decoded in Hdec as [-> _]. by apply Hk.
Qed.

Lemma keeps_tombstone_avoids {A} expiry jti now (m : M A) :
  avoids (TokenBlacklist.KEY_PREFIX +:+ jti) m →
  keeps (λ s, tombstoned_until expiry s jti) now m.
Proof.
  intros Havoids s (v & x & Hkey & Hlong). exists v, x.
  by rewrite Havoids.
Qed.

Lemma keeps_revocable_avoids {A} expiry user_id jti now (m : M A) :
  avoids (TokenBlacklist.KEY_PREFIX +:+ jti) m →
  avoids (TokenBlacklist.USER_SESSIONS_PREFIX +:+ user_id) m →
  keeps (λ s, revocable expiry s user_id jti) now m.
Proof.
  intros Htomb Hsess s [(members & x & Hkey & Hin & Hlong)|Hdone].
  - left. exists members, x. by rewrite Hsess.
  - right. by apply (keeps_tombstone_avoids expiry jti now m Htomb).
Qed.

(** *** Blacklisting one token *)

Lemma blacklist_token_keeps_tombstone expiry jti now jti' exp' owner :
  (jti' = jti → expiry ≤ exp') →
  keeps (λ s, tombstoned_until expiry s jti) now
    (TokenBlacklist.blacklist_token jti' exp' owner).
Proof.
  intros Hsame s (v & x & Hkey & Hlong).
  destruct (Z.lt_ge_cases now exp') as [Hlt|Hge];
    [|rewrite blacklist_token_expired by lia; by exists v, x].
  destruct (decide (jti' = jti)) as [->|Hne].
  - exists (RString "1"), (Some exp').
    split; [by apply blacklist_token_tombstone|].
    intros t [= <-]. by apply Hsame.
  - exists v, x. split; [|done]. rewrite <- Hkey.
    assert (TokenBlacklist.KEY_PREFIX +:+ jti' ≠ TokenBlacklist.KEY_PREFIX +:+ jti)
      as Hkeys by (intros ?%blacklist_key_inj; done).
    rewrite blacklist_token_unexpired by done. simpl.
    destruct owner as [uid|]; [destruct (truthy uid)|]; simpl;
      try by rewrite lookup_insert_ne.
    pose proof (cmd_srem_other (TokenBlacklist.USER_SESSIONS_PREFIX +:+ uid) jti' now
      (<[TokenBlacklist.KEY_PREFIX +:+ jti' := Entry (RString "1") (Some exp')]>
         (redis_db s))
      (TokenBlacklist.KEY_PREFIX +:+ jti)) as Hother.
    destruct (cmd_srem _ jti' now _) as [db2 r]. simpl in *.
    rewrite Hother by done. by rewrite lookup_insert_ne.
Qed.

(** A tracked token stays tracked when another id is removed from the set
    and when the set of another user is touched. *)
Lemma cmd_srem_keeps_tracked expiry user_id jti now user_id' jti' (db : redis) us :
  now < expiry →
  jti' ≠ jti →
  tracked_until expiry (State db us) user_id jti →
  tracked_until expiry
    (State (cmd_srem (TokenBlacklist.USER_SESSIONS_PREFIX +:+ user_id') jti' now db).1 us)
    user_id jti.
Proof.
  intros Hnow Hne (members & x & Hkey & Hin & Hlong). simpl in Hkey.
  destruct (decide (user_id' = user_id)) as [->|Hother].
  - unfold cmd_srem, lookup_live. rewrite Hkey.
    assert (alive now (Entry (RSet members) x) = true) as ->.
    { unfold alive. simpl. destruct x as [t|]; [|done].
      specialize (Hlong t eq_refl). destruct (Z.ltb_spec now t); [done | lia]. }
    destruct (decide (members ∖ {[jti']} = ∅)) as [Hempty|_]; [set_solver|].
    exists (members ∖ {[jti']}), x. simpl. rewrite lookup_insert_eq.
    split; [done|]. split; [set_solver | done].
  - exists members, x. simpl. rewrite cmd_srem_other; [done|].
    intros ?%sessions_key_inj. done.
Qed.

Lemma blacklist_token_keeps_revocable expiry user_id jti now jti' exp' owner :
  (jti' = jti → expiry ≤ exp') →
  now < expiry →
  keeps (λ s, revocable expiry s user_id jti) now
    (TokenBlacklist.blacklist_token jti' exp' owner).
Proof.
  intros Hsame Hnow s [Htracked|Hdone];
    [|right; by apply blacklist_token_keeps_tombstone].
  destruct (Z.lt_ge_cases now exp') as [Hlt|Hge];
    [|rewrite blacklist_token_expired by lia; by left].
  destruct (decide (jti' = jti)) as [->|Hne].
  { right. exists (RString "1"), (Some exp').
    split; [by apply blacklist_token_tombstone|].
    intros t [= <-]. by apply Hsame. }
  left. rewrite blacklist_token_unexpired by done. simpl.
  set (db1 := <[_ := _]> (redis_db s)).
  assert (tracked_until expiry (State db1 (users s)) user_id jti) as Htracked1.
  { destruct Htracked as (members & x & Hkey & Hin & Hlong).
    exists members, x. subst db1. simpl.
    by rewrite lookup_insert_ne by apply blacklist_key_ne_sessions_key. }
  destruct owner as [uid|]; [destruct (truthy uid)|]; try done.
  pose proof (cmd_srem_keeps_tracked expiry user_id jti now uid jti' db1 (users s)
                Hnow Hne Htracked1) as Hkept.
  by destruct (cmd_srem _ jti' now db1) as [db2 r].
Qed.

(** *** Recording a session *)

Lemma add_user_session_keeps_revocable expiry user_id jti now user_id' jti' ttl :
  expiry ≤ now + ttl →
  now < expiry →
  keeps (λ s, revocable expiry s user_id jti) now
    (TokenBlacklist.add_user_session user_id' jti' ttl).
Proof.
  intros Hlong Hnow s [Htracked|Hdone].
  - left. destruct Htracked as (members & x & Hkey & Hin & Hx).
    destruct (decide (user_id' = user_id)) as [->|Hother].
    + assert (sessions_of now s user_id = members) as Hmembers.
      { unfold sessions_of, lookup_live. rewrite Hkey.
        assert (alive now (Entry (RSet members) x) = true) as ->; [|done].
        unfold alive. simpl. destruct x as [t|]; [|done].
        specialize (Hx t eq_refl). destruct (Z.ltb_spec now t); [done | lia]. }
      rewrite add_user_session_eq; [|by eapply sessions_well_typed_entry | lia].
      rewrite Hmembers. eexists _, _. simpl. rewrite lookup_insert_eq.
      split; [done|]. split; [set_solver|]. intros t [= <-]. done.
    + exists members, x.
      rewrite add_user_session_other; [done|].
      intros ?%sessions_key_inj. done.
  - right. destruct Hdone as (v & x & Hkey & Hx). exists v, x.
    rewrite add_user_session_other; [done|].
    apply not_eq_sym, blacklist_key_ne_sessions_key.
Qed.

Lemma add_user_session_avoids_tombstone user_id jti ttl jti' :
  avoids (TokenBlacklist.KEY_PREFIX +:+ jti')
    (TokenBlacklist.add_user_session user_id jti ttl).
Proof.
  intros now s. apply add_user_session_other.
  apply not_eq_sym, blacklist_key_ne_sessions_key.
Qed.

(** *** Invalidating all sessions *)

Lemma tracked_is_live expiry user_id jti now s :
  tracked_until expiry s user_id jti →
  now < expiry →
  jti ∈ sessions_of now s user_id ∧ sessions_well_typed now s user_id.
Proof.
  intros (members & x & Hkey & Hin & Hlong) Hnow.
  split; [|by eapply sessions_well_typed_entry].
  unfold sessions_of, lookup_live. rewrite Hkey.
  assert (alive now (Entry (RSet members) x) = true) as ->; [|done].
  unfold alive. simpl. destruct x as [t|]; [|done].
  specialize (Hlong t eq_refl). destruct (Z.ltb_spec now t); [done | lia].
Qed.

(** With a non-positive lifetime the loop writes nothing: the store refuses
    the first [SET]. *)
Lemma blacklist_each_refused settings jtis count now s :
  refresh_lifetime settings ≤ 0 →
  redis_db (TokenBlacklist.blacklist_each settings jtis count now s).1 = redis_db s
  ∧ (jtis ≠ [] →
     ∃ e, (TokenBlacklist.blacklist_each settings jtis count now s).2 = Raise e).
Proof.
  intros Hbad. destruct jtis as [|jti jtis]; [done|].
  cbn [TokenBlacklist.blacklist_each].
  unfold bind, RedisClient.set, redis_call, cmd_set.
  fold (refresh_lifetime settings).
  destruct (Z.leb_spec (refresh_lifetime settings) 0); [|lia].
  simpl. eauto.
Qed.

(** Every entry that [invalidate_all_user_sessions] leaves under a tombstone
    key is the one that was there or a tombstone for a full refresh
    lifetime; apart from tombstones only the session set of the user is
    touched. *)
Lemma invalidate_all_writes settings user_id now s :
  let s' := (TokenBlacklist.invalidate_all_user_sessions settings user_id now s).1 in
  (∀ jti,
     redis_db s' !! (TokenBlacklist.KEY_PREFIX +:+ jti)
       = redis_db s !! (TokenBlacklist.KEY_PREFIX +:+ jti)
     ∨ redis_db s' !! (TokenBlacklist.KEY_PREFIX +:+ jti)
       = Some (Entry (RString "1") (Some (now + refresh_lifetime settings))))
  ∧ (∀ other, other ≠ user_id →
       redis_db s' !! (TokenBlacklist.USER_SESSIONS_PREFIX +:+ other)
       = redis_db s !! (TokenBlacklist.USER_SESSIONS_PREFIX +:+ other)).
Proof.
  intros s'. subst s'.
  unfold TokenBlacklist.invalidate_all_user_sessions, bind, redis_call,
    cmd_smembers, ret.
  destruct (lookup_live now (redis_db s) _) as [[[v|members|z] t]|];
    simpl; try (split; [intros; by left | done]).
  destruct (decide (members = ∅)) as [Hempty|Hsome]; simpl;
    [split; [intros; by left | done]|].
  destruct (Z.lt_ge_cases 0 (refresh_lifetime settings)) as [Hpos|Hbad].
  - rewrite blacklist_each_eq by done. simpl. split.
    + intros jti.
      rewrite lookup_delete_ne by (apply not_eq_sym, blacklist_key_ne_sessions_key).
      rewrite tombstones_lookup. case_bool_decide; eauto.
    + intros other Hother.
      rewrite lookup_delete_ne by (intros ?%sessions_key_inj; done).
      apply tombstones_lookup_sessions.
  - destruct (blacklist_each_refused settings (elements members) 0 now
                (State (redis_db s) (users s))) as [Hsame Hraise]; [lia|].
    destruct Hraise as [e Hraise].
    { intros Hnil%elements_empty_iff%leibniz_equiv. done. }
    destruct (TokenBlacklist.blacklist_each _ _ _ now _) as [s1 [count|e']];
      simpl in *; [done|].
    rewrite Hsame. split; [intros; by left | done].
Qed.

Lemma invalidate_all_keeps_tombstone settings expiry jti now user_id :
  expiry ≤ now + refresh_lifetime settings →
  keeps (λ s, tombstoned_until expiry s jti) now
    (TokenBlacklist.invalidate_all_user_sessions settings user_id).
Proof.
  intros Hlong s (v & x & Hkey & Hx).
  destruct (invalidate_all_writes settings user_id now s) as [Htomb _].
  destruct (Htomb jti) as [Hsame|Hnew].
  - exists v, x. by rewrite Hsame.
  - exists (RString "1"), (Some (now + refresh_lifetime settings)).
    split; [done|]. by intros t [= <-].
Qed.

Lemma invalidate_all_keeps_revocable settings expiry user_id jti now user_id' :
  expiry ≤ now + refresh_lifetime settings →
  now < expiry →
  keeps (λ s, revocable expiry s user_id jti) now
    (TokenBlacklist.invalidate_all_user_sessions settings user_id').
Proof.
  intros Hlong Hnow s [Htracked|Hdone];
    [|right; by apply invalidate_all_keeps_tombstone].
  destruct (decide (user_id' = user_id)) as [->|Hother].
  - right. destruct (tracked_is_live _ _ _ now _ Htracked Hnow) as [Hin Htyped].
    destruct (invalidate_all_effect settings user_id now s) as
      (s' & Hrun & _ & _ & Hmembers & _); [lia | done |].
    rewrite Hrun. simpl.
    exists (RString "1"), (Some (now + refresh_lifetime settings)).
    split; [by apply Hmembers|]. by intros t [= <-].
  - left. destruct Htracked as (members & x & Hkey & Hin & Hx).
    exists members, x.
    destruct (invalidate_all_writes settings user_id' now s) as [_ Hsess].
    by rewrite Hsess.
Qed.

(** *** The calls of the service *)

Lemma create_tokens_avoids_tombstone settings user a r jti :
  avoids (TokenBlacklist.KEY_PREFIX +:+ jti)
    (AuthService._create_tokens settings user a r).
Proof.
  intros now s. apply create_tokens_other.
  apply not_eq_sym, blacklist_key_ne_sessions_key.
Qed.

Lemma create_tokens_keeps_revocable settings expiry user_id jti now user a r :
  expiry ≤ now + refresh_lifetime settings →
  now < expiry →
  keeps (λ s, revocable expiry s user_id jti) now
    (AuthService._create_tokens settings user a r).
Proof.
  intros Hlong Hnow s Hinv. rewrite create_tokens_eq. simpl.
  by apply add_user_session_keeps_revocable.
Qed.

(** Unfolds the thin wrappers down to the commands they send. *)
Ltac unfold_wrappers :=
  unfold AuthService.login, AuthService.refresh_tokens, AuthService.logout,
    AuthService.logout_one, AuthService.logout_all_devices,
    AuthService.verify_token, AuthService.change_password,
    RateLimiter.check_global_limit, RateLimiter.check_login_limit,
    RateLimiter.check_rate_limit, RateLimiter.record_failed_login,
    RateLimiter.clear_failed_logins, RateLimiter.lock_account,
    RateLimiter.is_account_locked, RateLimiter.unlock_account,
    TokenBlacklist.is_blacklisted,
    RedisClient.set, RedisClient.delete, RedisClient.exists_,
    RedisClient.expire, RedisClient.ttl, RedisClient.sadd.

Ltac solve_avoids_calls :=
  unfold_wrappers;
  repeat first
    [ apply create_tokens_avoids_tombstone
    | apply avoids_repository; intros; reflexivity
    | progress solve_avoids ].

Ltac keeps_leaf :=
  first
    [ solve [apply blacklist_token_keeps_tombstone; eauto]
    | solve [apply invalidate_all_keeps_tombstone; eauto]
    | solve [apply blacklist_token_keeps_revocable; eauto]
    | solve [apply invalidate_all_keeps_revocable; eauto]
    | solve [apply create_tokens_keeps_revocable; eauto]
    | solve [apply keeps_tombstone_avoids; solve_avoids_calls]
    | solve [apply keeps_revocable_avoids; solve_avoids_calls] ].

Ltac solve_keeps :=
  unfold_wrappers;
  repeat first
    [ apply keeps_ret
    | apply keeps_raise
    | apply keeps_time
    | apply keeps_try_pass
    | keeps_leaf
    | apply keeps_bind_verify; intros ? ?
    | apply keeps_bind; [|intros ?]
    | match goal with
      | |- keeps _ _ (if ?b then _ else _) => destruct b
      | |- keeps _ _ (match ?x with _ => _ end) => destruct x
      end ].

(** A presented token with the id of [payload] does not expire before it. *)
Lemma honest_presented payload c tok :
  honest payload c → tok ∈ presented c →
  ∀ q, tok = Signed true q →
       TokenPayload.jti q = TokenPayload.jti payload →
       TokenPayload.exp payload ≤ TokenPayload.exp q.
Proof. intros Hhonest Hin q -> Hjti. by apply Hhonest. Qed.

(** Reads a goal about the state after an operation as a [keeps] goal. *)
Ltac show_keeps clock op :=
  match goal with
  | |- ∀ s : state, @?inv s → _ => change (keeps inv clock op)
  end;
  solve_keeps.

(** Once a token has its tombstone, no call of the service takes it away
    before the token expires. *)
Lemma after_keeps_tombstone settings {hasher : PasswordHasher} payload c now s :
  honest payload c →
  TokenPayload.exp payload ≤ now + refresh_lifetime settings →
  tombstoned_until (TokenPayload.exp payload) s (TokenPayload.jti payload) →
  tombstoned_until (TokenPayload.exp payload) (after settings c now s)
    (TokenPayload.jti payload).
Proof.
  intros Hhonest Hlong. revert s.
  destruct c as [data ip a r|tok a r|access refresh|uid|tok|user current new
                 |identifier|identifier|identifier|change]; simpl.
  - show_keeps now (AuthService.login settings data ip a r).
  - pose proof (honest_presented _ _ tok Hhonest (list_elem_of_here _ _)) as Htok.
    show_keeps now (AuthService.refresh_tokens settings tok a r).
  - pose proof (honest_presented _ _ access Hhonest (list_elem_of_here _ _)) as Ha.
    pose proof (honest_presented _ _ refresh Hhonest
                  (list_elem_of_further _ _ _ (list_elem_of_here _ _))) as Hr.
    show_keeps now (AuthService.logout access refresh).
  - show_keeps now (AuthService.logout_all_devices settings uid).
  - show_keeps now (AuthService.verify_token tok).
  - show_keeps now (AuthService.change_password settings user current new).
  - show_keeps now (RateLimiter.check_global_limit settings identifier).
  - show_keeps now (RateLimiter.check_login_limit settings identifier).
  - show_keeps now (RateLimiter.unlock_account identifier).
  - by intros s.
Qed.

(** A token that is tracked or has its tombstone stays so through every
    call made before it expires. *)
Lemma after_keeps_revocable settings {hasher : PasswordHasher}
    payload user_id c now s :
  honest payload c →
  TokenPayload.exp payload ≤ now + refresh_lifetime settings →
  now < TokenPayload.exp payload →
  revocable (TokenPayload.exp payload) s user_id (TokenPayload.jti payload) →
  revocable (TokenPayload.exp payload) (after settings c now s) user_id
    (TokenPayload.jti payload).
Proof.
  intros Hhonest Hlong Hnow. revert s.
  destruct c as [data ip a r|tok a r|access refresh|uid|tok|user current new
                 |identifier|identifier|identifier|change]; simpl.
  - show_keeps now (AuthService.login settings data ip a r).
  - pose proof (honest_presented _ _ tok Hhonest (list_elem_of_here _ _)) as Htok.
    show_keeps now (AuthService.refresh_tokens settings tok a r).
  - pose proof (honest_presented _ _ access Hhonest (list_elem_of_here _ _)) as Ha.
    pose proof (honest_presented _ _ refresh Hhonest
                  (list_elem_of_further _ _ _ (list_elem_of_here _ _))) as Hr.
    show_keeps now (AuthService.logout access refresh).
  - show_keeps now (AuthService.logout_all_devices settings uid).
  - show_keeps now (AuthService.verify_token tok).
  - show_keeps now (AuthService.change_password settings user current new).
  - show_keeps now (RateLimiter.check_global_limit settings identifier).
  - show_keeps now (RateLimiter.check_login_limit settings identifier).
  - show_keeps now (RateLimiter.unlock_account identifier).
  - by intros s.
Qed.

(** *** Histories *)

Lemma run_calls_keeps_tombstone settings {hasher : PasswordHasher} payload calls s :
  Forall (λ tc, honest payload tc.2
                ∧ TokenPayload.exp payload ≤ tc.1 + refresh_lifetime settings) calls →
  tombstoned_until (TokenPayload.exp payload) s (TokenPayload.jti payload) →
  tombstoned_until (TokenPayload.exp payload) (run_calls settings calls s)
    (TokenPayload.jti payload).
Proof.
  intros Hcalls. revert s.
  induction Hcalls as [|[now c] calls [Hhonest Hlong] _ IH]; intros s Hinv; [done|].
  unfold run_calls. simpl. apply IH. by apply after_keeps_tombstone.
Qed.

Lemma run_calls_keeps_revocable settings {hasher : PasswordHasher}
    payload user_id calls s :
  Forall (λ tc, honest payload tc.2
                ∧ TokenPayload.exp payload ≤ tc.1 + refresh_lifetime settings
                ∧ tc.1 < TokenPayload.exp payload) calls →
  revocable (TokenPayload.exp payload) s user_id (TokenPayload.jti payload) →
  revocable (TokenPayload.exp payload) (run_calls settings calls s) user_id
    (TokenPayload.jti payload).
Proof.
  intros Hcalls. revert s.
  induction Hcalls as [|[now c] calls (Hhonest & Hlong & Hnow) _ IH];
    intros s Hinv; [done|].
  unfold run_calls. simpl. apply IH. by apply after_keeps_revocable.
Qed.

Lemma tombstoned_is_blacklisted expiry s jti now :
  tombstoned_until expiry s jti → now < expiry → blacklisted now s jti = true.
Proof.
  intros (v & x & Hkey & Hlong) Hnow.
  unfold blacklisted, lookup_live. rewrite Hkey.
  assert (alive now (Entry v x) = true) as ->; [|done].
  unfold alive. simpl. destruct x as [t|]; [|done].
  specialize (Hlong t eq_refl). destruct (Z.ltb_spec now t); [done | lia].
Qed.

(** A refresh token with a tombstone is refused as blacklisted until it
    expires, and as expired afterwards. *)
Lemma refresh_tokens_refused settings payload a r now s :
  (TokenPayload.type payload = "refresh" →
   tombstoned_until (TokenPayload.exp payload) s (TokenPayload.jti payload) →
   now < TokenPayload.exp payload →
   AuthService.refresh_tokens settings (Signed true payload) a r now s
     = (s, Raise TokenBlacklistedError))
  ∧ (TokenPayload.exp payload < now →
     AuthService.refresh_tokens settings (Signed true payload) a r now s
       = (s, Raise TokenExpiredError)).
Proof.
  split.
  - intros Hty Htomb Hlive.
    unfold AuthService.refresh_tokens, bind.
    rewrite jwt_verify_token_eq.
    assert (jwt_decode now (Signed true payload) = Decoded payload) as ->
      by (apply jwt_decode_Decoded; split; [done | lia]).
    rewrite Hty. cbn [String.eqb Ascii.eqb Bool.eqb negb].
    rewrite is_blacklisted_eq.
    by rewrite (tombstoned_is_blacklisted _ _ _ now Htomb Hlive).
  - intros Hdead.
    unfold AuthService.refresh_tokens, bind.
    rewrite jwt_verify_token_eq. simpl.
    destruct (Z.ltb_spec (TokenPayload.exp payload) now); [done | lia].
Qed.

(** C1, as the code has it. After one successful [refresh_tokens] call on a
    refresh token, and whatever the service is asked to do in between (by
    calls that present no other genuine token with the same id, made no
    earlier than one refresh lifetime before the token's expiry), a second
    call on the same token made strictly before the token's expiry time
    raises [TokenBlacklistedError] and changes nothing; a second call made
    after the expiry time raises [TokenExpiredError]. *)
Theorem refresh_token_rotation settings {hasher : PasswordHasher}
    payload a1 r1 a2 r2 now1 now2 s s1 response calls :
  AuthService.refresh_tokens settings (Signed true payload) a1 r1 now1 s
    = (s1, Ok response) →
  now1 ≤ now2 →
  Forall (λ tc, honest payload tc.2
                ∧ TokenPayload.exp payload ≤ tc.1 + refresh_lifetime settings) calls →
  let s2 := run_calls settings calls s1 in
  (now2 < TokenPayload.exp payload →
     AuthService.refresh_tokens settings (Signed true payload) a2 r2 now2 s2
       = (s2, Raise TokenBlacklistedError))
  ∧ (TokenPayload.exp payload < now2 →
     AuthService.refresh_tokens settings (Signed true payload) a2 r2 now2 s2
       = (s2, Raise TokenExpiredError)).
Proof.
  intros Hfirst Htime Hcalls s2.
  apply refresh_tokens_Ok in Hfirst
    as (payload' & user & [= <-] & Hexp & Hty & Hbl & Hfind & Hactive & Hs1).
  split; [|apply refresh_tokens_refused].
  intros Hlive. apply refresh_tokens_refused; [done| |done].
  apply run_calls_keeps_tombstone; [done|].
  exists (RString "1"), (Some (TokenPayload.exp payload)). split.
  - apply (f_equal fst) in Hs1. simpl in Hs1. rewrite Hs1.
    rewrite create_tokens_other by (apply not_eq_sym, blacklist_key_ne_sessions_key).
    apply blacklist_token_tombstone. lia.
  - by intros t [= <-].
Qed.

(** The session invalidation settles every token that could still be
    refused: afterwards it has its tombstone. *)
Lemma invalidate_all_settles settings expiry user_id jti now s :
  expiry ≤ now + refresh_lifetime settings →
  now < expiry →
  revocable expiry s user_id jti →
  tombstoned_until expiry
    (TokenBlacklist.invalidate_all_user_sessions settings user_id now s).1 jti.
Proof.
  intros Hlong Hnow [Htracked|Hdone];
    [|by apply invalidate_all_keeps_tombstone].
  destruct (tracked_is_live _ _ _ now _ Htracked Hnow) as [Hin Htyped].
  destruct (invalidate_all_effect settings user_id now s) as
    (s' & Hrun & _ & _ & Hmembers & _); [lia | done |].
  rewrite Hrun. simpl.
  exists (RString "1"), (Some (now + refresh_lifetime settings)).
  split; [by apply Hmembers|]. by intros t [= <-].
Qed.

(** A refresh token that [_create_tokens] issued is tracked, and through
    every history of calls made before its expiry it stays tracked or gets
    its tombstone. *)
Lemma issued_refresh_token_revocable settings {hasher : PasswordHasher}
    user a r issued s calls :
  let payload := issued_payload user "refresh" r issued
                   (refresh_token_expire_days settings * 86400) in
  sessions_well_typed issued s (User.id user) →
  0 < refresh_lifetime settings →
  Forall (λ tc, honest payload tc.2 ∧ issued ≤ tc.1 < TokenPayload.exp payload) calls →
  revocable (TokenPayload.exp payload)
    (run_calls settings calls
       (AuthService._create_tokens settings user a r issued s).1)
    (User.id user) r.
Proof.
  intros payload Htyped Hpos Hcalls.
  apply (run_calls_keeps_revocable settings payload).
  - eapply Forall_impl; [exact Hcalls|].
    intros [now c] [Hhonest Hnow]. subst payload. simpl in *.
    unfold refresh_lifetime. split; [done | lia].
  - left. rewrite create_tokens_effect by done.
    eexists _, _. simpl. rewrite lookup_insert_eq.
    split; [done|]. split; [set_solver|].
    intros t [= <-]. unfold refresh_lifetime. lia.
Qed.

(** C6, as the code has it. With a wrong current password [change_password]
    raises [InvalidCredentialsError] and leaves the whole state as it was.
    With the right one it stores the hash of the new password, blacklists every
    member of the user's session set for a full refresh lifetime and drops the
    set, whatever the set holds. A refresh token of the user that was issued
    before the change, which is therefore tracked in the set or already
    blacklisted, is then refused, whatever the service is asked to do after
    the change: with [TokenBlacklistedError] whenever it is presented strictly
    before its expiry time, and with [TokenExpiredError] after it. *)
Theorem change_password_outcome settings {hasher : PasswordHasher}
    user current new now s :
  (verify current (User.password_hash user) = false →
     AuthService.change_password settings user current new now s
       = (s, Raise (InvalidCredentialsError "Current password is incorrect")))
  ∧ (verify current (User.password_hash user) = true →
     0 < refresh_lifetime settings →
     sessions_well_typed now s (User.id user) →
     ∃ s',
       AuthService.change_password settings user current new now s = (s', Ok ())
       ∧ users s' = save_user (User.with_password_hash user (hash new)) (users s)
       ∧ sessions_of now s' (User.id user) = ∅
       ∧ (∀ jti later,
            jti ∈ sessions_of now s (User.id user) →
            later < now + refresh_lifetime settings →
            blacklisted later s' jti = true))
  ∧ (verify current (User.password_hash user) = true →
     ∀ payload calls a2 r2 later,
       revocable (TokenPayload.exp payload) s (User.id user)
         (TokenPayload.jti payload) →
       TokenPayload.type payload = "refresh" →
       TokenPayload.exp payload ≤ now + refresh_lifetime settings →
       now < TokenPayload.exp payload →
       Forall (λ tc, honest payload tc.2
                     ∧ TokenPayload.exp payload ≤ tc.1 + refresh_lifetime settings)
              calls →
       let s' := (AuthService.change_password settings user current new now s).1 in
       let s2 := run_calls settings calls s' in
       (later < TokenPayload.exp payload →
          AuthService.refresh_tokens settings (Signed true payload) a2 r2 later s2
            = (s2, Raise TokenBlacklistedError))
       ∧ (TokenPayload.exp payload < later →
          AuthService.refresh_tokens settings (Signed true payload) a2 r2 later s2
            = (s2, Raise TokenExpiredError))).
Proof.
  split; [|split].
  - intros Hverify. unfold AuthService.change_password. by rewrite Hverify.
  - intros Hverify Hpos Htyped.
    destruct (change_password_effect settings user current new now s
                Hverify Hpos Htyped)
      as (s' & Hrun & Husers & Hgone & Hin & Hnotin).
    exists s'. split; [done|]. split; [done|]. split; [done|].
    intros jti later Hmember Hlater.
    rewrite (blacklisted_tombstone later s' jti _ _ (Hin jti Hmember)).
    by rewrite bool_decide_eq_true_2.
  - intros Hverify payload calls a2 r2 later Hrevocable Hty Hissued Hnow Hcalls s' s2.
    split; [|apply refresh_tokens_refused].
    intros Hlive. apply refresh_tokens_refused; [done| |done].
    apply run_calls_keeps_tombstone; [done|].
    subst s'. rewrite change_password_eq by done. simpl.
    apply invalidate_all_settles; [done | done |].
    destruct Hrevocable as [(members & x & Hkey & Hin & Hx)|(v & x & Hkey & Hx)].
    + left. by exists members, x.
    + right. by exists v, x.
Qed.

(** ** Runs on concrete inputs *)

(** C1 as stated fails. Alice's refresh token [r0] expires at second 605800.
    Refreshed once at second 2000, it is refused at second 700000 with
    [TokenExpiredError], not [TokenBlacklistedError]; refreshed once in its
    last second, it is accepted a second time in that second. *)
Lemma consumed_refresh_token_not_always_blacklisted :
  AuthService.refresh_tokens default_settings (Signed true alice_refresh)
    "a1" "r1" 2000 logged_in
    = (rotated, Ok (issued_pair default_settings alice "a1" "r1" 2000))
  ∧ AuthService.refresh_tokens default_settings (Signed true alice_refresh)
      "a2" "r2" 700000 rotated
    = (rotated, Raise TokenExpiredError)
  ∧ AuthService.refresh_tokens default_settings (Signed true alice_refresh)
      "a1" "r1" 605800 logged_in
    = (rotated_late, Ok (issued_pair default_settings alice "a1" "r1" 605800))
  ∧ (AuthService.refresh_tokens default_settings (Signed true alice_refresh)
       "a2" "r2" 605800 rotated_late).2
    = Ok (issued_pair default_settings alice "a2" "r2" 605800).
Proof. repeat split; vm_compute; reflexivity. Qed.

Lemma busy_history_honest :
  Forall (λ tc, honest alice_refresh tc.2
                ∧ TokenPayload.exp alice_refresh
                  ≤ tc.1 + refresh_lifetime default_settings) busy_history.
Proof.
  unfold busy_history.
  repeat (apply List.Forall_cons; [split; [|vm_compute; discriminate]|]);
    [| | | |apply List.Forall_nil].
  - intros q Hin _. inversion Hin.
  - intros q Hin _. apply list_elem_of_singleton in Hin. by injection Hin as <-.
  - intros q Hin _. inversion Hin.
  - intros q Hin _. inversion Hin.
Qed.

Lemma refresh_token_rotation_witness :
  let s2 := run_calls default_settings (hasher := plain_hasher) busy_history rotated in
  AuthService.refresh_tokens default_settings (Signed true alice_refresh)
    "a2" "r2" 3000 s2
  = (s2, Raise TokenBlacklistedError).
Proof.
  refine (proj1 (refresh_token_rotation default_settings (hasher := plain_hasher)
    alice_refresh "a1" "r1" "a2" "r2" 2000 3000 logged_in rotated
    (issued_pair default_settings alice "a1" "r1" 2000) busy_history _ _ _) _).
  - vm_compute. reflexivity.
  - lia.
  - exact busy_history_honest.
  - vm_compute. reflexivity.
Defined.

Lemma verify_access_token_outcome_witness :
  (AuthService.verify_token (Signed true alice_access) 1500 logged_in).2
  = Ok alice_access.
Proof.
  apply (proj2 (proj1 (proj2
    (verify_access_token_outcome 1500 logged_in (Signed true alice_access)))
    alice_access)).
  repeat split; vm_compute; congruence.
Defined.

(** C3: a failing run. With a limit of 2 requests per 60 seconds, three
    requests of one client within the same second are all allowed: the entry
    of a second is written under the member [str(current_time)], so the
    second and third request overwrite the entry of the first and the count
    stays at 1. The login limit of the default settings (5 per 60 seconds)
    lets six requests of one second through in the same way. *)
Theorem same_second_requests_all_allowed :
  (run_all
     [(1000, RateLimiter.check_rate_limit "203.0.113.9" 2 60 RateLimiter.GLOBAL_PREFIX);
      (1000, RateLimiter.check_rate_limit "203.0.113.9" 2 60 RateLimiter.GLOBAL_PREFIX);
      (1000, RateLimiter.check_rate_limit "203.0.113.9" 2 60 RateLimiter.GLOBAL_PREFIX)]
     (State ∅ [])).2
  = [Ok (true, 1, 0); Ok (true, 0, 0); Ok (true, 0, 0)]
  ∧ (run_all
       (replicate 6 (1000, RateLimiter.check_login_limit default_settings "203.0.113.9"))
       (State ∅ [])).2
    = [Ok (true, 4, 0); Ok (true, 3, 0); Ok (true, 3, 0);
       Ok (true, 3, 0); Ok (true, 3, 0); Ok (true, 3, 0)].
Proof. split; vm_compute; reflexivity. Qed.

(** C4: a failing run. Five failed logins for alice within the same second
    all raise [InvalidCredentialsError]; the failure count stays at 1, the
    account is not locked, and a sixth attempt with the right password
    succeeds. *)
Theorem same_second_failures_do_not_lock :
  let run := run_all (replicate 5 (1000, alice_login wrong_password "a" "r"))
               registered in
  run.2 = replicate 5 (Raise (InvalidCredentialsError "Invalid email or password"))
  ∧ failure_count default_settings 1000 run.1 "alice@x.com" = 1
  ∧ locked 1000 run.1 "alice@x.com" = false
  ∧ (alice_login right_password "a0" "r0" 1000 run.1).2
    = Ok (User.with_last_login alice 1000,
          issued_pair default_settings alice "a0" "r0" 1000).
Proof. repeat split; vm_compute; reflexivity. Qed.

Lemma login_order_witness :
  let outcome := alice_login wrong_password "a" "r" 1000 registered in
  outcome.2 = Raise (InvalidCredentialsError "Invalid email or password")
  ∧ zset_at 1000 (redis_db outcome.1) (failed_key "alice@x.com") = {["1000" := 1000]}
  ∧ locked 1000 outcome.1 "alice@x.com" = false.
Proof.
  pose proof (login_order default_settings (hasher := plain_hasher)
    wrong_password "203.0.113.9" "a" "r" 1000 registered) as Horder.
  cbv zeta in Horder. destruct Horder as [_ Hunlocked].
  destruct Hunlocked as (_ & _ & Hwrong & _); [vm_compute; reflexivity|].
  cbv zeta. unfold alice_login.
  rewrite (Hwrong alice);
    [|vm_compute; reflexivity ..|vm_compute; exact I].
  repeat split; vm_compute; reflexivity.
Defined.

(** C6 as stated fails. Alice's refresh token [r0], issued at second 1000 and
    tracked in her session set, is refused after the password change of
    second 2000 with [TokenExpiredError], not [TokenBlacklistedError], when it
    is presented at second 700000. *)
Lemma refresh_after_password_change_not_always_blacklisted :
  AuthService.change_password default_settings (password_hasher := plain_hasher)
    alice "Str0ng!Pass" "N3w!Passw0rd" 2000 logged_in
    = (password_changed, Ok ())
  ∧ sessions_of 2000 logged_in (User.id alice) = {["r0"]}
  ∧ AuthService.refresh_tokens default_settings (Signed true alice_refresh)
      "a2" "r2" 700000 password_changed
    = (password_changed, Raise TokenExpiredError).
Proof. repeat split; vm_compute; reflexivity. Qed.

Lemma change_password_outcome_witness :
  let s2 := run_calls default_settings (hasher := plain_hasher) busy_history
              password_changed in
  AuthService.refresh_tokens default_settings (Signed true alice_refresh)
    "a2" "r2" 3000 s2
  = (s2, Raise TokenBlacklistedError).
Proof.
  refine (proj1 (proj2 (proj2 (change_password_outcome default_settings
    (hasher := plain_hasher) alice "Str0ng!Pass" "N3w!Passw0rd" 2000 logged_in))
    _ alice_refresh busy_history "a2" "r2" 3000 _ _ _ _ _) _).
  - vm_compute. reflexivity.
  - left. exists {["r0"]}, (Some 605800). split; [vm_compute; reflexivity|]. split.
    + by apply elem_of_singleton.
    + intros t [= <-]. vm_compute. discriminate.
  - reflexivity.
  - vm_compute. discriminate.
  - reflexivity.
  - exact busy_history_honest.
  - vm_compute. reflexivity.
Defined.

(** C7 as stated fails. Alice holds the sessions [r0] (expiring at second
    605800) and [r1]. Blacklisting [r0] for her at second 606000, after its
    expiry, changes nothing: [r0] stays in her session set. *)
Lemma blacklisting_expired_token_keeps_session :
  TokenBlacklist.blacklist_token "r0" 605800 (Some (User.id alice)) 606000
    logged_in_twice
    = (logged_in_twice, Ok ())
  ∧ sessions_of 606000 logged_in_twice (User.id alice) = {["r0"; "r1"]}.
Proof. split; vm_compute; reflexivity. Qed.

Lemma blacklist_token_effect_witness :
  sessions_of 2000
    (TokenBlacklist.blacklist_token "r0" 605800 (Some (User.id alice)) 2000
       logged_in_twice).1
    (User.id alice)
  = sessions_of 2000 logged_in_twice (User.id alice) ∖ {["r0"]}.
Proof.
  destruct (blacklist_token_effect "r0" 605800 (Some (User.id alice)) 2000
              logged_in_twice) as [_ Hwrites].
  destruct Hwrites as (_ & _ & _ & Hsessions); [lia|].
  apply (Hsessions (User.id alice)).
  - reflexivity.
  - discriminate.
  - vm_compute. exact I.
Defined.

(** C8 as stated fails. At second 605800 alice's refresh token [r0] still
    verifies, but [logout] with it changes nothing: [r0] gets no tombstone
    and stays in her session set. *)
Lemma logout_in_last_second_revokes_nothing :
  jwt_decode 605800 (Signed true alice_refresh) = Decoded alice_refresh
  ∧ AuthService.logout (Signed true alice_access) (Signed true alice_refresh)
      605800 logged_in_twice
    = (logged_in_twice, Ok ())
  ∧ blacklisted 605800 logged_in_twice "r0" = false
  ∧ sessions_of 605800 logged_in_twice (User.id alice) = {["r0"; "r1"]}.
Proof. repeat split; vm_compute; reflexivity. Qed.

Lemma logout_best_effort_witness :
  (AuthService.logout_one (Signed true alice_refresh) 2000 logged_in).2 = Ok ()
  ∧ sessions_of 2000
      (AuthService.logout_one (Signed true alice_refresh) 2000 logged_in).1
      (User.id alice)
    = sessions_of 2000 logged_in (User.id alice) ∖ {["r0"]}.
Proof.
  destruct (logout_best_effort (Signed true alice_access) (Signed true alice_refresh)
              2000 logged_in) as (_ & _ & _ & Hrevokes & _).
  destruct (Hrevokes alice_refresh logged_in) as (Hok & _ & _ & Hsessions).
  - vm_compute. reflexivity.
  - discriminate.
  - vm_compute. exact I.
  - split; [exact Hok | exact Hsessions].
Defined.

Lemma access_token_survives_invalidation_witness :
  ∃ s1 s2 count,
    AuthService._create_tokens default_settings alice "a0" "r0" 1000 registered
      = (s1, Ok (issued_pair default_settings alice "a0" "r0" 1000))
    ∧ AuthService.logout_all_devices default_settings (User.id alice) 1200 s1
      = (s2, Ok count)
    ∧ AuthService.verify_token (Signed true alice_access) 1500 s2
      = (s2, Ok alice_access).
Proof.
  destruct (access_token_survives_invalidation default_settings
              (hasher := plain_hasher) alice "a0" "r0" 1000 1200 1500 registered)
    as (s1 & Hissued & _ & _ & (s2 & count & Hlogout & _ & Hverify) & _).
  - vm_compute. reflexivity.
  - vm_compute. exact I.
  - discriminate.
  - apply (bool_decide_unpack _). vm_compute. exact I.
  - reflexivity.
  - lia.
  - lia.
  - vm_compute. discriminate.
  - exists s1, s2, count. split; [exact Hissued|]. split; [exact Hlogout|].
    exact Hverify.
Defined.

Lemma unknown_email_lock_is_deferred_witness :
  alice_login unknown_email "a" "r" 1004 four_failures
  = (five_failures, Raise (InvalidCredentialsError "Invalid email or password"))
  ∧ alice_login {| login_email := "ghost@x.com"; login_password := "another" |}
      "a" "r" 1005 five_failures
    = (five_failures,
       Raise (AccountLockedError
                "Account temporarily locked. Try again in 899 seconds.")).
Proof.
  destruct (unknown_email_lock_is_deferred default_settings (hasher := plain_hasher)
              unknown_email "203.0.113.9" "a" "r" 1004 four_failures five_failures 0)
    as [Hthis Hnext].
  - vm_compute. reflexivity.
  - vm_compute. reflexivity.
  - vm_compute. reflexivity.
  - split; [exact Hthis|].
    apply (Hnext {| login_email := "ghost@x.com"; login_password := "another" |}
             "203.0.113.9" "a" "r" 1005 five_failures).
    + reflexivity.
    + reflexivity.
    + vm_compute. reflexivity.
Defined.

(** * Further properties of the code *)

(** ** The rate limiter *)

Lemma retry_after_of_bounds now window z :
  0 < window → retry_after_of now window z ≤ window.
Proof.
  intros Hw. unfold retry_after_of.
  destruct (Z.leb_spec window 0); [lia|].
  destruct (oldest (window_after now window z)) as [first|] eqn:Hold; [|lia].
  unfold oldest in Hold.
  pose proof (zmin_least _ _ Hold (pretty now, now)) as Hleast.
  simpl in Hleast.
  assert (first.2 ≤ now); [|lia].
  apply Hleast. apply elem_of_map_to_list. unfold window_after.
  apply lookup_insert_eq.
Qed.

(** The two shapes of an answer of [check_rate_limit]. *)
Lemma check_rate_limit_cases key limit window prefix now s :
  zset_well_typed now (redis_db s) (prefix +:+ key) →
  let answer := (RateLimiter.check_rate_limit key limit window prefix now s).2 in
  (∃ remaining, answer = Ok (true, remaining, 0) ∧ 0 ≤ remaining < limit)
  ∨ (∃ retry_after,
       answer = Ok (false, 0, retry_after)
       ∧ 1 ≤ retry_after ≤ Z.max window 1).
Proof.
  intros Htyped answer. subst answer.
  rewrite check_rate_limit_eq by done. cbv zeta. simpl.
  set (z := zset_at now (redis_db s) (prefix +:+ key)).
  destruct (Z.leb_spec limit (Z.of_nat (size (purge 0 (now - window) z))))
    as [Hfull|Hroom].
  - right. eexists. split; [done|]. split; [lia|].
    destruct (Z.lt_ge_cases 0 window) as [Hw|Hw].
    + pose proof (retry_after_of_bounds now window z Hw). lia.
    + unfold retry_after_of. destruct (Z.leb_spec window 0); lia.
  - left. eexists. split; [done|]. lia.
Qed.

(** X4. Whenever the key of the window holds a sorted set or nothing,
    [check_rate_limit] answers with a triple of one of two shapes: an allowed
    request has [0 ≤ remaining < limit] and [retry_after = 0]; a denied
    request has [remaining = 0] and a [retry_after] of at least one second
    and at most the window (one second for a window that is not positive). *)
Theorem check_rate_limit_answer key limit window prefix now s :
  zset_well_typed now (redis_db s) (prefix +:+ key) →
  ∃ ok remaining retry_after,
    (RateLimiter.check_rate_limit key limit window prefix now s).2
      = Ok (ok, remaining, retry_after)
    ∧ (ok = true → 0 ≤ remaining < limit ∧ retry_after = 0)
    ∧ (ok = false → remaining = 0 ∧ 1 ≤ retry_after ≤ Z.max window 1).
Proof.
  intros Htyped. rewrite check_rate_limit_eq by done. cbv zeta. simpl.
  destruct (Z.leb_spec limit
    (Z.of_nat (size (purge 0 (now - window)
       (zset_at now (redis_db s) (prefix +:+ key)))))) as [Hfull|Hroom].
  - eexists false, 0, _. split; [done|]. split; [done|]. intros _.
    split; [done|]. split; [lia|].
    destruct (Z.lt_ge_cases 0 window) as [Hw|Hw].
    + pose proof (retry_after_of_bounds now window
        (zset_at now (redis_db s) (prefix +:+ key)) Hw). lia.
    + unfold retry_after_of. destruct (Z.leb_spec window 0); lia.
  - eexists true, _, 0. split; [done|]. split; [|done]. intros _. lia.
Qed.

Lemma check_rate_limit_answer_witness :
  ∃ ok remaining retry_after,
    (RateLimiter.check_rate_limit "203.0.113.9" 2 60
       RateLimiter.GLOBAL_PREFIX 1000 registered).2
      = Ok (ok, remaining, retry_after)
    ∧ (ok = true → 0 ≤ remaining < 2 ∧ retry_after = 0)
    ∧ (ok = false → remaining = 0 ∧ 1 ≤ retry_after ≤ Z.max 60 1).
Proof.
  apply (check_rate_limit_answer "203.0.113.9" 2 60
           RateLimiter.GLOBAL_PREFIX 1000 registered).
  vm_compute. exact I.
Defined.

(** X5. A window is forgotten once it has been idle for its length: after
    any request at [now], a request of the same client made [window] seconds
    later or more is counted as the first one. A window that is not positive
    keeps no state at all, so that every request is the first one. *)
Theorem rate_limit_window_expires key limit window prefix now later s :
  zset_well_typed now (redis_db s) (prefix +:+ key) →
  now + window ≤ later ∨ window ≤ 0 →
  0 < limit →
  (RateLimiter.check_rate_limit key limit window prefix later
     (RateLimiter.check_rate_limit key limit window prefix now s).1).2
  = Ok (true, limit - 1, 0).
Proof.
  intros Htyped Hidle Hlimit.
  rewrite (check_rate_limit_eq key limit window prefix now s) by done.
  cbv zeta. simpl.
  assert (lookup_live later
            (db_after_window (prefix +:+ key) now window (redis_db s))
            (prefix +:+ key) = None) as Hgone.
  { unfold db_after_window. destruct (Z.leb_spec window 0) as [Hw|Hw].
    - apply lookup_live_delete_eq.
    - unfold lookup_live. rewrite lookup_insert_eq. unfold alive. simpl.
      destruct (Z.ltb_spec later (now + window)); [lia | done]. }
  rewrite check_rate_limit_eq; simpl.
  - unfold zset_at. rewrite Hgone, purge_empty. simpl.
    rewrite map_size_empty. simpl.
    change (Z.of_nat 0) with 0.
    destruct (Z.leb_spec limit 0); [lia|]. repeat f_equal; lia.
  - unfold zset_well_typed. by rewrite Hgone.
Qed.

Lemma rate_limit_window_expires_witness :
  (RateLimiter.check_rate_limit "203.0.113.9" 1 60 RateLimiter.GLOBAL_PREFIX 1060
     (RateLimiter.check_rate_limit "203.0.113.9" 1 60
        RateLimiter.GLOBAL_PREFIX 1000 registered).1).2
  = Ok (true, 1 - 1, 0).
Proof.
  apply (rate_limit_window_expires "203.0.113.9" 1 60
           RateLimiter.GLOBAL_PREFIX 1000 1060 registered).
  - vm_compute. exact I.
  - left. lia.
  - lia.
Defined.

Lemma check_rate_limit_avoids key limit window prefix key' :
  prefix +:+ key ≠ key' →
  avoids key' (RateLimiter.check_rate_limit key limit window prefix).
Proof.
  intros Hne. unfold RateLimiter.check_rate_limit.
  repeat first [ progress solve_avoids | exact Hne ].
Qed.

(** X6. The windows of different clients are independent: a request counted
    under one key never changes what the limiter answers under another key,
    whatever the limits and the times. *)
Theorem rate_limit_windows_are_independent
    key limit window prefix key' limit' window' prefix' now later s :
  prefix +:+ key ≠ prefix' +:+ key' →
  zset_well_typed later (redis_db s) (prefix' +:+ key') →
  (RateLimiter.check_rate_limit key' limit' window' prefix' later
     (RateLimiter.check_rate_limit key limit window prefix now s).1).2
  = (RateLimiter.check_rate_limit key' limit' window' prefix' later s).2.
Proof.
  intros Hne Htyped.
  pose proof (check_rate_limit_avoids key limit window prefix _ Hne now s) as Hsame.
  set (s1 := (RateLimiter.check_rate_limit key limit window prefix now s).1) in *.
  assert (lookup_live later (redis_db s1) (prefix' +:+ key')
          = lookup_live later (redis_db s) (prefix' +:+ key')) as Hlive
    by (unfold lookup_live; by rewrite Hsame).
  rewrite !check_rate_limit_eq; [|done|].
  - cbv zeta. simpl. unfold retry_after_of, zset_at. by rewrite Hlive.
  - unfold zset_well_typed. by rewrite Hlive.
Qed.

Lemma rate_limit_windows_are_independent_witness :
  (RateLimiter.check_rate_limit "198.51.100.7" 2 60 RateLimiter.GLOBAL_PREFIX 1001
     (RateLimiter.check_rate_limit "203.0.113.9" 2 60
        RateLimiter.GLOBAL_PREFIX 1000 registered).1).2
  = (RateLimiter.check_rate_limit "198.51.100.7" 2 60
       RateLimiter.GLOBAL_PREFIX 1001 registered).2.
Proof.
  apply (rate_limit_windows_are_independent "203.0.113.9" 2 60
           RateLimiter.GLOBAL_PREFIX "198.51.100.7" 2 60
           RateLimiter.GLOBAL_PREFIX 1000 1001 registered).
  - discriminate.
  - vm_compute. exact I.
Defined.

(** One counted request moves the window on. *)
Lemma check_rate_limit_tracks key limit window prefix now counted rest s :
  0 < window →
  window_tracks (prefix +:+ key) (redis_db s) counted (now :: rest) →
  (∀ t, t ∈ counted → now - window < t) →
  (∀ t, t ∈ rest → t < now + window) →
  let s1 := (RateLimiter.check_rate_limit key limit window prefix now s).1 in
  window_tracks (prefix +:+ key) (redis_db s1) (now :: counted) rest
  ∧ users s1 = users s
  ∧ ∀ key', prefix +:+ key ≠ key' → redis_db s1 !! key' = redis_db s !! key'.
Proof.
  intros Hw Htracks Hyoung Hsoon s1.
  destruct (Htracks now (list_elem_of_here _ _)) as [Htyped Hz].
  subst s1. rewrite check_rate_limit_eq by done. cbv zeta. simpl.
  split; [by apply window_tracks_step|]. split; [done|].
  intros key' Hne. by apply db_after_window_other.
Qed.

(** X7. The login limiter and the failed-attempt counter share their key
    space: the window that [check_login_limit] keeps for the identifier
    ["failed:" + email] is the failed-attempt window of [email]. Four login
    attempts counted by the limiter under that identifier, in distinct seconds
    of one window, make the first wrong password for [email] lock the account. *)
Theorem login_limit_counts_as_failed_attempts settings {hasher : PasswordHasher}
    data client_ip a r user t1 t2 t3 t4 t5 s :
  0 < login_rate_limit_window settings →
  user_by_email s (login_email data) = Some user →
  User.is_active user = true →
  verify (login_password data) (User.password_hash user) = false →
  lookup_live t1 (redis_db s) (failed_key (login_email data)) = None →
  lookup_live t1 (redis_db s) (lock_key (login_email data)) = None →
  t1 < t2 < t3 ∧ t3 < t4 < t5 →
  t5 < t1 + login_rate_limit_window settings →
  let s4 :=
    (run_all ((λ t, (t, RateLimiter.check_login_limit settings
                          ("failed:" +:+ login_email data)))
                <$> [t1; t2; t3; t4]) s).1 in
  (AuthService.login settings data client_ip a r t5 s4).2
  = Raise (AccountLockedError
             "Too many failed attempts. Account temporarily locked.").
Proof.
  intros Hw Hfound Hactive Hwrong Hfresh Hunlocked Horder Hsoon. cbv zeta.
  unfold RateLimiter.check_login_limit. cbn [fmap list_fmap run_all].
  set (email := login_email data) in *.
  set (window := login_rate_limit_window settings) in *.
  assert (RateLimiter.LOGIN_PREFIX +:+ ("failed:" +:+ email) = failed_key email)
    as Hkey by done.
  assert (failed_key email ≠ lock_key email) as Hne
    by apply not_eq_sym, lock_key_ne_failed_key.
  assert (window_tracks (failed_key email) (redis_db s) [] [t1; t2; t3; t4; t5])
    as Htracks0.
  { intros t Hin.
    assert (t1 ≤ t) by (set_unfold; lia).
    pose proof (lookup_live_None_later _ _ _ _ Hfresh H) as Hnone.
    unfold zset_well_typed, zset_at. by rewrite Hnone. }
  destruct (RateLimiter.check_rate_limit ("failed:" +:+ email)
              (login_rate_limit_requests settings) window
              RateLimiter.LOGIN_PREFIX t1 s) as [s1 r1] eqn:H1.
  destruct (RateLimiter.check_rate_limit ("failed:" +:+ email)
              (login_rate_limit_requests settings) window
              RateLimiter.LOGIN_PREFIX t2 s1) as [s2 r2] eqn:H2.
  destruct (RateLimiter.check_rate_limit ("failed:" +:+ email)
              (login_rate_limit_requests settings) window
              RateLimiter.LOGIN_PREFIX t3 s2) as [s3 r3] eqn:H3.
  destruct (RateLimiter.check_rate_limit ("failed:" +:+ email)
              (login_rate_limit_requests settings) window
              RateLimiter.LOGIN_PREFIX t4 s3) as [s4' r4] eqn:H4.
  cbn [fst snd].
  destruct (check_rate_limit_tracks ("failed:" +:+ email)
              (login_rate_limit_requests settings) window
              RateLimiter.LOGIN_PREFIX t1 [] [t2; t3; t4; t5] s Hw)
    as (Htracks1 & Husers1 & Hother1);
    [by rewrite Hkey | set_solver | set_unfold; lia |].
  rewrite H1 in Htracks1, Husers1, Hother1.
  simpl in Htracks1, Husers1, Hother1.
  destruct (check_rate_limit_tracks ("failed:" +:+ email)
              (login_rate_limit_requests settings) window
              RateLimiter.LOGIN_PREFIX t2 [t1] [t3; t4; t5] s1 Hw)
    as (Htracks2 & Husers2 & Hother2);
    [done | set_unfold; lia | set_unfold; lia |].
  rewrite H2 in Htracks2, Husers2, Hother2.
  simpl in Htracks2, Husers2, Hother2.
  destruct (check_rate_limit_tracks ("failed:" +:+ email)
              (login_rate_limit_requests settings) window
              RateLimiter.LOGIN_PREFIX t3 [t2; t1] [t4; t5] s2 Hw)
    as (Htracks3 & Husers3 & Hother3);
    [done | set_unfold; lia | set_unfold; lia |].
  rewrite H3 in Htracks3, Husers3, Hother3.
  simpl in Htracks3, Husers3, Hother3.
  destruct (check_rate_limit_tracks ("failed:" +:+ email)
              (login_rate_limit_requests settings) window
              RateLimiter.LOGIN_PREFIX t4 [t3; t2; t1] [t5] s3 Hw)
    as (Htracks4 & Husers4 & Hother4);
    [done | set_unfold; lia | set_unfold; lia |].
  rewrite H4 in Htracks4, Husers4, Hother4.
  simpl in Htracks4, Husers4, Hother4.
  rewrite Hkey in *.
  destruct (Htracks4 t5 (list_elem_of_here _ _)) as [Htyped Hz].
  assert (locked t5 s4' email = false) as Hopen.
  { assert (redis_db s4' !! lock_key email = redis_db s !! lock_key email) as Hl
      by (by rewrite (Hother4 _ Hne), (Hother3 _ Hne), (Hother2 _ Hne),
                     (Hother1 _ Hne)).
    assert (t1 ≤ t5) as Hle by lia.
    pose proof (lookup_live_None_later _ _ _ _ Hunlocked Hle) as Hnone.
    unfold locked, lookup_live in *. unfold lock_key in *.
    by rewrite Hl, Hnone. }
  rewrite (login_unlocked settings data client_ip a r t5 s4' Hopen).
  fold email.
  assert (user_by_email s4' email = Some user) as ->.
  { unfold user_by_email. rewrite Husers4, Husers3, Husers2, Husers1. done. }
  rewrite Hactive, Hwrong. simpl.
  rewrite (record_failed_login_counts settings email t5 s4' [t4; t3; t2; t1]);
    [done | done | done | done | | set_unfold; lia].
  repeat (apply NoDup_cons; split; [set_unfold; lia|]). apply NoDup_nil_2.
Qed.

Lemma login_limit_counts_as_failed_attempts_witness :
  (AuthService.login default_settings (password_hasher := plain_hasher)
     wrong_password "203.0.113.9" "a" "r" 1004
     (run_all ((λ t, (t, RateLimiter.check_login_limit default_settings
                           ("failed:" +:+ login_email wrong_password)))
                 <$> [1000; 1001; 1002; 1003]) registered).1).2
  = Raise (AccountLockedError
             "Too many failed attempts. Account temporarily locked.").
Proof.
  apply (login_limit_counts_as_failed_attempts default_settings
           (hasher := plain_hasher) wrong_password "203.0.113.9" "a" "r" alice
           1000 1001 1002 1003 1004 registered).
  - reflexivity.
  - reflexivity.
  - reflexivity.
  - reflexivity.
  - reflexivity.
  - reflexivity.
  - lia.
  - vm_compute. reflexivity.
Defined.

(** ** The lock flag of an account *)

(** X8. A lock set at [now] answers [is_account_locked] with the seconds
    that are left of its 900, and is gone by itself once they have passed:
    nothing has to unlock the account. *)
Theorem lock_expires_by_itself identifier now later s :
  let s1 := (RateLimiter.lock_account identifier now s).1 in
  RateLimiter.is_account_locked identifier later s1
  = (s1, Ok (if later <? now + RateLimiter.LOCKOUT_DURATION
             then (true, Some (now + RateLimiter.LOCKOUT_DURATION - later))
             else (false, None))).
Proof.
  intros s1. rewrite is_account_locked_eq. f_equal. f_equal.
  subst s1. unfold locked, lock_ttl, lock_key, lookup_live.
  unfold RateLimiter.lock_account, RedisClient.set, redis_call. simpl.
  rewrite lookup_insert_eq. unfold alive. simpl.
  destruct (Z.ltb_spec later (now + RateLimiter.LOCKOUT_DURATION)); [|done].
  cbn [expire_at]. do 2 f_equal. lia.
Qed.

(** X9. [unlock_account] removes the lock flag and the failed-attempt window
    together: whatever they held, the account is not locked afterwards, the
    right password logs in at once, and a wrong password is answered with
    [InvalidCredentialsError] as the first failure of a new window. *)
Theorem unlock_account_lifts_lock settings {hasher : PasswordHasher}
    data client_ip a r user now later s :
  user_by_email s (login_email data) = Some user →
  User.is_active user = true →
  sessions_well_typed later s (User.id user) →
  0 < refresh_lifetime settings →
  let s1 := (RateLimiter.unlock_account (login_email data) now s).1 in
  RateLimiter.is_account_locked (login_email data) later s1 = (s1, Ok (false, None))
  ∧ (verify (login_password data) (User.password_hash user) = true →
     (AuthService.login settings data client_ip a r later s1).2
     = Ok (User.with_last_login user later,
           issued_pair settings (User.with_last_login user later) a r later))
  ∧ (verify (login_password data) (User.password_hash user) = false →
     (AuthService.login settings data client_ip a r later s1).2
     = Raise (InvalidCredentialsError "Invalid email or password")).
Proof.
  intros Hfound Hactive Htyped Hlife s1.
  set (email := login_email data) in *.
  assert (s1 = State (delete (failed_key email) (delete (lock_key email) (redis_db s)))
                     (users s)) as Hs1 by done.
  assert (locked later s1 email = false) as Hopen.
  { rewrite Hs1. unfold locked. fold (lock_key email). simpl.
    rewrite lookup_live_delete_ne by apply not_eq_sym, lock_key_ne_failed_key.
    by rewrite lookup_live_delete_eq. }
  assert (user_by_email s1 email = Some user) as Hfound1 by (by rewrite Hs1).
  assert (lookup_live later (redis_db s1) (failed_key email) = None) as Hclean
    by (rewrite Hs1; apply lookup_live_delete_eq).
  split; [|split].
  - rewrite is_account_locked_eq. by rewrite Hopen.
  - intros Hright.
    rewrite (login_unlocked settings data client_ip a r later s1 Hopen).
    fold email. rewrite Hfound1, Hactive, Hright. cbv zeta. cbn [negb].
    rewrite create_tokens_effect; [done| |done].
    unfold sessions_well_typed in *. cbn [redis_db User.with_last_login User.id].
    rewrite Hs1. cbn [redis_db].
    rewrite !lookup_live_delete_ne by discriminate. done.
  - intros Hwrong.
    rewrite (login_unlocked settings data client_ip a r later s1 Hopen).
    fold email. rewrite Hfound1, Hactive, Hwrong. cbn [negb].
    rewrite record_failed_login_eq
      by (unfold zset_well_typed; by rewrite Hclean).
    cbv zeta. unfold failure_count, zset_at. rewrite Hclean.
    unfold window_after. rewrite purge_empty, insert_empty, map_size_singleton.
    done.
Qed.

Lemma unlock_account_lifts_lock_witness :
  (AuthService.login default_settings (password_hasher := plain_hasher)
     right_password "203.0.113.9" "a1" "r1" 1011
     (RateLimiter.unlock_account (login_email right_password) 1010 alice_locked).1).2
  = Ok (User.with_last_login alice 1011,
        issued_pair default_settings (User.with_last_login alice 1011)
          "a1" "r1" 1011).
Proof.
  refine (proj1 (proj2 (unlock_account_lifts_lock default_settings
    (hasher := plain_hasher) right_password "203.0.113.9" "a1" "r1" alice
    1010 1011 alice_locked _ _ _ _)) _).
  - reflexivity.
  - reflexivity.
  - vm_compute. exact I.
  - reflexivity.
  - reflexivity.
Defined.

(** ** Issued tokens *)

(** What a successful [login] went through. *)
Lemma login_Ok settings {hasher : PasswordHasher} data client_ip a r now s s1 user tokens :
  AuthService.login settings data client_ip a r now s = (s1, Ok (user, tokens)) →
  ∃ row,
    locked now s (login_email data) = false
    ∧ user_by_email s (login_email data) = Some row
    ∧ User.is_active row = true
    ∧ verify (login_password data) (User.password_hash row) = true
    ∧ user = User.with_last_login row now
    ∧ AuthService._create_tokens settings user a r now
        (State (delete (failed_key (login_email data)) (redis_db s))
               (save_user user (users s)))
      = (s1, Ok tokens).
Proof.
  intros Hlogin.
  destruct (locked now s (login_email data)) eqn:Hlocked.
  { by rewrite login_locked in Hlogin. }
  rewrite login_unlocked in Hlogin by done.
  destruct (user_by_email s (login_email data)) as [row|] eqn:Hrow.
  2: { by destruct (RateLimiter.record_failed_login _ _ _ _) as [? [?|?]]. }
  destruct (User.is_active row) eqn:Hactive; [|done].
  destruct (verify (login_password data) (User.password_hash row)) eqn:Hpw.
  2: { by destruct (RateLimiter.record_failed_login _ _ _ _)
         as [? [[[] ?]|?]]. }
  cbn [negb] in Hlogin. cbv zeta in Hlogin.
  destruct (AuthService._create_tokens _ _ _ _ _ _) as [s' [tokens'|e]] eqn:Hct;
    [|done].
  injection Hlogin as <- <- <-.
  exists row. by repeat split.
Qed.

(** What [_create_tokens] returns when it returns. *)
Lemma create_tokens_Ok settings user a r now s s1 pair :
  AuthService._create_tokens settings user a r now s = (s1, Ok pair) →
  pair = issued_pair settings user a r now.
Proof.
  rewrite create_tokens_eq. cbv zeta.
  destruct (TokenBlacklist.add_user_session _ _ _ _ _).2; [|done].
  by intros [= _ <-].
Qed.

(** X10. The two tokens of a pair cannot stand in for each other. The
    access token of a pair that [_create_tokens] issued is never accepted by
    [refresh_tokens], and the refresh token is never accepted by
    [verify_token]: each is refused with [TokenInvalidError] for its type
    until it expires and with [TokenExpiredError] afterwards, in every state
    and without a change of the state. *)
Theorem token_types_do_not_mix settings user a r issued s0 s1 pair a' r' now s :
  AuthService._create_tokens settings user a r issued s0 = (s1, Ok pair) →
  AuthService.refresh_tokens settings (access_token pair) a' r' now s
  = (s, Raise (if issued + access_token_expire_minutes settings * 60 <? now
               then TokenExpiredError
               else TokenInvalidError "Invalid token type"))
  ∧ AuthService.verify_token (refresh_token pair) now s
    = (s, Raise (if issued + refresh_token_expire_days settings * 86400 <? now
                 then TokenExpiredError
                 else TokenInvalidError "Invalid token type")).
Proof.
  intros ->%create_tokens_Ok. split.
  - unfold AuthService.refresh_tokens, bind. rewrite jwt_verify_token_eq.
    simpl. by destruct (_ <? now).
  - rewrite verify_token_eq. simpl. by destruct (_ <? now).
Qed.

Lemma token_types_do_not_mix_witness :
  AuthService.refresh_tokens default_settings
    (access_token (issued_pair default_settings alice "a0" "r0" 1000))
    "a1" "r1" 1500 logged_in
  = (logged_in,
     Raise (if 1000 + access_token_expire_minutes default_settings * 60 <? 1500
            then TokenExpiredError
            else TokenInvalidError "Invalid token type"))
  ∧ AuthService.verify_token
      (refresh_token (issued_pair default_settings alice "a0" "r0" 1000))
      1500 logged_in
    = (logged_in,
       Raise (if 1000 + refresh_token_expire_days default_settings * 86400 <? 1500
              then TokenExpiredError
              else TokenInvalidError "Invalid token type")).
Proof.
  apply (token_types_do_not_mix default_settings alice "a0" "r0" 1000
           registered
           (AuthService._create_tokens default_settings alice "a0" "r0" 1000
              registered).1).
  vm_compute. reflexivity.
Defined.

(** X11. The access token that a successful [login] returns verifies, in
    the state the login left, at every time up to [expires_in] seconds after
    the login, provided its id was not blacklisted before; the payload names
    the user who logged in, and [expires_in] is the token's real lifetime. *)
Theorem login_then_verify settings {hasher : PasswordHasher}
    data client_ip a r issued s s1 user tokens now :
  AuthService.login settings data client_ip a r issued s = (s1, Ok (user, tokens)) →
  redis_db s !! (TokenBlacklist.KEY_PREFIX +:+ a) = None →
  now ≤ issued + expires_in tokens →
  ∃ payload,
    AuthService.verify_token (access_token tokens) now s1 = (s1, Ok payload)
    ∧ TokenPayload.sub payload = User.id user
    ∧ TokenPayload.email payload = User.email user
    ∧ TokenPayload.role payload = role_value (User.role user)
    ∧ TokenPayload.jti payload = a
    ∧ TokenPayload.iat payload = issued
    ∧ TokenPayload.exp payload = issued + expires_in tokens.
Proof.
  intros (row & _ & _ & _ & _ & -> & Hct)%login_Ok Hfresh Hnow.
  pose proof (create_tokens_Ok _ _ _ _ _ _ _ _ Hct) as ->.
  simpl in Hnow.
  exists (issued_payload (User.with_last_login row issued) "access" a issued
            (access_token_expire_minutes settings * 60)).
  split; [|by repeat split].
  rewrite verify_token_eq. simpl.
  destruct (Z.ltb_spec (issued + access_token_expire_minutes settings * 60) now);
    [lia|].
  unfold issued_payload. simpl.
  rewrite (blacklisted_absent now s1 a); [done|].
  apply (f_equal fst) in Hct. simpl in Hct. rewrite <- Hct.
  rewrite create_tokens_other by (apply not_eq_sym, blacklist_key_ne_sessions_key).
  simpl. rewrite lookup_delete_ne; [done | discriminate].
Qed.

Lemma login_then_verify_witness :
  ∃ payload,
    AuthService.verify_token
      (access_token (issued_pair default_settings alice_at_1000 "a0" "r0" 1000))
      1500 logged_in
    = (logged_in, Ok payload)
    ∧ TokenPayload.sub payload = User.id alice_at_1000
    ∧ TokenPayload.email payload = User.email alice_at_1000
    ∧ TokenPayload.role payload = role_value (User.role alice_at_1000)
    ∧ TokenPayload.jti payload = "a0"
    ∧ TokenPayload.iat payload = 1000
    ∧ TokenPayload.exp payload
      = 1000 + expires_in (issued_pair default_settings alice_at_1000 "a0" "r0" 1000).
Proof.
  apply (login_then_verify default_settings (hasher := plain_hasher)
           right_password "203.0.113.9" "a0" "r0" 1000 registered logged_in
           alice_at_1000
           (issued_pair default_settings alice_at_1000 "a0" "r0" 1000) 1500).
  - vm_compute. reflexivity.
  - reflexivity.
  - vm_compute. discriminate.
Defined.

Lemma find_save_user_id (u : User.t) rows :
  (∃ row, row ∈ rows ∧ User.id row = User.id u) →
  find (λ x, bool_decide (User.id x = User.id u)) (save_user u rows) = Some u.
Proof.
  intros (row & Hin & Hid). induction rows as [|x rows IH]; [by inversion Hin|].
  simpl. destruct (bool_decide (User.id x = User.id u)) eqn:Hx.
  - simpl. by rewrite bool_decide_eq_true_2.
  - simpl. rewrite Hx. apply IH.
    apply elem_of_cons in Hin as [->|Hin]; [|done].
    apply bool_decide_eq_false in Hx. done.
Qed.

Lemma find_elem {A} (f : A → bool) l x : find f l = Some x → x ∈ l ∧ f x = true.
Proof.
  induction l as [|y l IH]; [done|]. simpl.
  destruct (f y) eqn:Hf.
  - intros [= ->]. split; [apply list_elem_of_here | done].
  - intros [Hin Hx]%IH. split; [by apply list_elem_of_further | done].
Qed.

(** [_create_tokens] returns only when the key of the session set holds a
    set or nothing. *)
Lemma create_tokens_Ok_typed settings user a r now s s1 pair :
  AuthService._create_tokens settings user a r now s = (s1, Ok pair) →
  sessions_well_typed now s (User.id user).
Proof.
  rewrite create_tokens_eq. cbv zeta.
  unfold TokenBlacklist.add_user_session, RedisClient.sadd, RedisClient.expire,
    bind, redis_call, cmd_sadd, sessions_well_typed.
  destruct (lookup_live now (redis_db s) _) as [[[v|members|z] t]|]; try done.
Qed.

(** Blacklisting a token leaves every session set a set. *)
Lemma blacklist_token_keeps_typed jti exp owner now user_id s :
  sessions_well_typed now s user_id →
  sessions_well_typed now (TokenBlacklist.blacklist_token jti exp owner now s).1
    user_id.
Proof.
  intros Htyped. destruct (Z.lt_ge_cases now exp) as [Hlt|Hge].
  2: { by rewrite blacklist_token_expired. }
  rewrite blacklist_token_unexpired by done. cbv zeta.
  set (db1 := <[TokenBlacklist.KEY_PREFIX +:+ jti := _]> (redis_db s)).
  assert (lookup_live now db1 (TokenBlacklist.USER_SESSIONS_PREFIX +:+ user_id)
          = lookup_live now (redis_db s)
              (TokenBlacklist.USER_SESSIONS_PREFIX +:+ user_id)) as Hdb1.
  { subst db1. apply lookup_live_insert_ne, blacklist_key_ne_sessions_key. }
  assert (sessions_well_typed now (State db1 (users s)) user_id) as Htyped1
    by (unfold sessions_well_typed in *; simpl; by rewrite Hdb1).
  destruct owner as [uid|]; [|done]. destruct (truthy uid); [|done].
  destruct (cmd_srem _ jti now db1) as [db2 res] eqn:Hsrem. simpl.
  destruct (decide (uid = user_id)) as [->|Hne].
  - unfold cmd_srem in Hsrem. unfold sessions_well_typed in *. simpl in *.
    destruct (lookup_live now db1 _) as [[[v|members|z] t]|] eqn:Hlive;
      try done.
    + injection Hsrem as <- <-. destruct (decide (members ∖ {[jti]} = ∅)).
      * by rewrite lookup_live_delete_eq.
      * unfold lookup_live. rewrite lookup_insert_eq.
        unfold lookup_live in Hlive.
        destruct (db1 !! _) as [e|]; [|done].
        destruct (alive now e) eqn:Halive; [|done].
        injection Hlive as ->. unfold alive in *. simpl in *.
        by rewrite Halive.
    + injection Hsrem as <- <-. by rewrite Hlive.
  - unfold sessions_well_typed in *. simpl in *. unfold lookup_live in *.
    pose proof (cmd_srem_other (TokenBlacklist.USER_SESSIONS_PREFIX +:+ uid) jti now
      db1 (TokenBlacklist.USER_SESSIONS_PREFIX +:+ user_id)) as Hother.
    rewrite Hsrem in Hother. simpl in Hother. rewrite Hother; [done|].
    intros Heq. apply Hne. by apply sessions_key_inj in Heq.
Qed.

(** What [refresh_tokens] does with a token that passes its checks. *)
Lemma refresh_tokens_accepted settings payload a r now s user :
  now ≤ TokenPayload.exp payload →
  TokenPayload.type payload = "refresh" →
  blacklisted now s (TokenPayload.jti payload) = false →
  find (λ u, bool_decide (User.id u = TokenPayload.sub payload)) (users s)
    = Some user →
  User.is_active user = true →
  AuthService.refresh_tokens settings (Signed true payload) a r now s =
  match TokenBlacklist.blacklist_token (TokenPayload.jti payload)
          (TokenPayload.exp payload) (Some (TokenPayload.sub payload)) now s with
  | (s', Ok _) => AuthService._create_tokens settings user a r now s'
  | (s', Raise e) => (s', Raise e)
  end.
Proof.
  intros Hexp Hty Hclean Hfind Hactive.
  unfold AuthService.refresh_tokens, bind. rewrite jwt_verify_token_eq.
  assert (jwt_decode now (Signed true payload) = Decoded payload) as ->
    by (by apply jwt_decode_Decoded).
  rewrite Hty. cbn [String.eqb Ascii.eqb Bool.eqb negb].
  rewrite is_blacklisted_eq, Hclean.
  unfold user_repo_get. rewrite Hfind, Hactive. cbn [negb].
  by destruct (TokenBlacklist.blacklist_token _ _ _ now s) as [s' [[]|e]].
Qed.

(** X12. The refresh token that a successful [login] returns is accepted by
    [refresh_tokens], in the state the login left, at every time before its
    expiry, when its id was not blacklisted before: the call returns a new
    pair for the same user, blacklists the old id until the old expiry, and
    replaces it by the id of the new refresh token in the session set. *)
Theorem login_then_refresh settings {hasher : PasswordHasher}
    data client_ip a r issued s s1 user tokens a2 r2 now :
  AuthService.login settings data client_ip a r issued s = (s1, Ok (user, tokens)) →
  redis_db s !! (TokenBlacklist.KEY_PREFIX +:+ r) = None →
  User.id user ≠ "" →
  0 < refresh_lifetime settings →
  issued ≤ now < issued + refresh_lifetime settings →
  let run := AuthService.refresh_tokens settings (refresh_token tokens)
               a2 r2 now s1 in
  run.2 = Ok (issued_pair settings user a2 r2 now)
  ∧ r ∈ sessions_of now s1 (User.id user)
  ∧ sessions_of now run.1 (User.id user)
    = sessions_of now s1 (User.id user) ∖ {[r]} ∪ {[r2]}
  ∧ ∀ later, blacklisted later run.1 r
             = bool_decide (later < issued + refresh_lifetime settings).
Proof.
  intros (row & _ & Hrow & Hactive & _ & Huser & Hct)%login_Ok
    Hfresh Hid Hlife Hnow run.
  pose proof (create_tokens_Ok _ _ _ _ _ _ _ _ Hct) as ->.
  pose proof (create_tokens_Ok_typed _ _ _ _ _ _ _ _ Hct) as Htyped0.
  rewrite create_tokens_effect in Hct by done.
  injection Hct as Hs1. cbn [redis_db users] in Hs1.
  set (uid := User.id user) in *.
  set (cleared := State (delete (failed_key (login_email data)) (redis_db s))
                        (save_user user (users s))) in *.
  set (exp := issued + refresh_token_expire_days settings * 86400).
  assert (exp = issued + refresh_lifetime settings) as Hexp
    by (unfold exp, refresh_lifetime; lia).
  (* the state after the login *)
  assert (sessions_of now s1 uid = sessions_of issued cleared uid ∪ {[r]})
    as Hsessions1.
  { rewrite (sessions_of_entry now s1 uid _ (issued + refresh_lifetime settings))
      by (rewrite <- Hs1; apply lookup_insert_eq).
    rewrite bool_decide_eq_true_2; [done | lia]. }
  assert (sessions_well_typed now s1 uid) as Htyped1.
  { eapply sessions_well_typed_entry. rewrite <- Hs1. apply lookup_insert_eq. }
  assert (blacklisted now s1 r = false) as Hclean.
  { apply blacklisted_absent. rewrite <- Hs1. simpl.
    rewrite lookup_insert_ne by (apply not_eq_sym, blacklist_key_ne_sessions_key).
    rewrite lookup_delete_ne; [done | discriminate]. }
  assert (find (λ u, bool_decide (User.id u = uid)) (users s1) = Some user)
    as Hfind.
  { rewrite <- Hs1. simpl. apply find_save_user_id.
    apply find_elem in Hrow as [Hin _]. exists row. split; [done|].
    by rewrite Huser. }
  assert (User.is_active user = true) as Hactive' by (by rewrite Huser).
  (* the refresh *)
  destruct (blacklist_token_writes r exp (Some uid) now s1) as
    (_ & Hbl & Husers & Hsess); [lia|].
  destruct (Hsess uid eq_refl Hid Htyped1) as [Hok Hmembers].
  pose proof (blacklist_token_keeps_typed r exp (Some uid) now uid s1 Htyped1)
    as Htyped2.
  assert (run = AuthService._create_tokens settings user a2 r2 now
                  (TokenBlacklist.blacklist_token r exp (Some uid) now s1).1)
    as ->.
  { subst run.
    change (refresh_token (issued_pair settings user a r issued))
      with (Signed true (issued_payload user "refresh" r issued
              (refresh_token_expire_days settings * 86400))).
    rewrite (refresh_tokens_accepted settings
               (issued_payload user "refresh" r issued
                  (refresh_token_expire_days settings * 86400))
               a2 r2 now s1 user); try done.
    - simpl. fold exp. fold uid.
      destruct (TokenBlacklist.blacklist_token r exp (Some uid) now s1)
        as [s1' res]. simpl in Hok. by subst res.
    - simpl. fold exp. lia. }
  destruct (TokenBlacklist.blacklist_token r exp (Some uid) now s1)
    as [s1' res] eqn:Hbt.
  simpl in Hok, Hmembers, Htyped2, Hbl, Husers. subst res.
  rewrite create_tokens_effect by done. simpl.
  split; [done|]. split; [rewrite Hsessions1; set_solver|]. split.
  - rewrite (sessions_of_entry now _ uid _ (now + refresh_lifetime settings))
      by apply lookup_insert_eq.
    rewrite bool_decide_eq_true_2 by lia. fold uid. by rewrite Hmembers.
  - intros later. rewrite <- Hexp, <- Hbl.
    apply blacklisted_same_entry. simpl.
    apply lookup_insert_ne, not_eq_sym, blacklist_key_ne_sessions_key.
Qed.

Lemma login_then_refresh_witness :
  let run := AuthService.refresh_tokens default_settings
               (refresh_token
                  (issued_pair default_settings alice_at_1000 "a0" "r0" 1000))
               "a1" "r1" 2000 logged_in in
  run.2 = Ok (issued_pair default_settings alice_at_1000 "a1" "r1" 2000)
  ∧ "r0" ∈ sessions_of 2000 logged_in (User.id alice_at_1000)
  ∧ sessions_of 2000 run.1 (User.id alice_at_1000)
    = sessions_of 2000 logged_in (User.id alice_at_1000) ∖ {["r0"]} ∪ {["r1"]}
  ∧ ∀ later, blacklisted later run.1 "r0"
             = bool_decide (later < 1000 + refresh_lifetime default_settings).
Proof.
  apply (login_then_refresh default_settings (hasher := plain_hasher)
           right_password "203.0.113.9" "a0" "r0" 1000 registered logged_in
           alice_at_1000
           (issued_pair default_settings alice_at_1000 "a0" "r0" 1000)
           "a1" "r1" 2000).
  - vm_compute. reflexivity.
  - reflexivity.
  - discriminate.
  - reflexivity.
  - vm_compute. split; [discriminate | reflexivity].
Defined.

(** ** Logout *)

(** A token with a tombstone is refused by [verify_token] as blacklisted
    until it expires, and as expired afterwards. *)
Lemma verify_token_refused payload now s :
  (TokenPayload.type payload = "access" →
   tombstoned_until (TokenPayload.exp payload) s (TokenPayload.jti payload) →
   now < TokenPayload.exp payload →
   AuthService.verify_token (Signed true payload) now s
     = (s, Raise TokenBlacklistedError))
  ∧ (TokenPayload.exp payload < now →
     AuthService.verify_token (Signed true payload) now s
       = (s, Raise TokenExpiredError)).
Proof.
  split.
  - intros Hty Htomb Hlive. rewrite verify_token_eq.
    assert (jwt_decode now (Signed true payload) = Decoded payload) as ->
      by (apply jwt_decode_Decoded; split; [done | lia]).
    rewrite Hty. cbn [String.eqb Ascii.eqb Bool.eqb negb].
    by rewrite (tombstoned_is_blacklisted _ _ _ now Htomb Hlive).
  - intros Hdead. rewrite verify_token_eq. simpl.
    destruct (Z.ltb_spec (TokenPayload.exp payload) now); [done | lia].
Qed.



(** X14. [logout_all_devices] returns the number of ids in the live session
    set of the user, blacklists each of them for a full refresh lifetime and
    drops the set; the session sets of other users stay as they are; and a
    second call finds nothing: it returns 0 and changes nothing. *)
Theorem logout_all_devices_outcome settings user_id now s :
  0 < refresh_lifetime settings →
  sessions_well_typed now s user_id →
  let run := AuthService.logout_all_devices settings user_id now s in
  run.2 = Ok (Z.of_nat (size (sessions_of now s user_id)))
  ∧ users run.1 = users s
  ∧ sessions_of now run.1 user_id = ∅
  ∧ (∀ jti later,
       jti ∈ sessions_of now s user_id →
       later < now + refresh_lifetime settings →
       blacklisted later run.1 jti = true)
  ∧ (∀ other later,
       other ≠ user_id →
       sessions_of later run.1 other = sessions_of later s other)
  ∧ AuthService.logout_all_devices settings user_id now run.1 = (run.1, Ok 0).
Proof.
  intros Hlife Htyped run. subst run. unfold AuthService.logout_all_devices.
  destruct (invalidate_all_effect settings user_id now s Hlife Htyped)
    as (s' & Hrun & Husers & Hgone & Hin & _).
  pose proof (invalidate_all_writes settings user_id now s) as [_ Hothers].
  rewrite Hrun in *. simpl in *.
  split; [done|]. split; [done|]. split; [done|]. split; [|split].
  - intros jti later Hmember Hlater.
    rewrite (blacklisted_tombstone later s' jti _ _ (Hin jti Hmember)).
    by rewrite bool_decide_eq_true_2.
  - intros other later Hne. unfold sessions_of, lookup_live.
    by rewrite (Hothers other Hne).
  - assert (sessions_well_typed now s' user_id) as Htyped'.
    { rewrite invalidate_all_eq in Hrun by done. cbv zeta in Hrun.
      destruct (decide (sessions_of now s user_id = ∅)).
      - by injection Hrun as <-.
      - injection Hrun as <-. unfold sessions_well_typed. simpl.
        by rewrite lookup_live_delete_eq. }
    rewrite invalidate_all_eq by done. cbv zeta. rewrite Hgone.
    by rewrite decide_True.
Qed.



Lemma logout_all_devices_outcome_witness :
  let run := AuthService.logout_all_devices default_settings (User.id alice)
               2000 logged_in_twice in
  run.2 = Ok (Z.of_nat (size (sessions_of 2000 logged_in_twice (User.id alice))))
  ∧ users run.1 = users logged_in_twice
  ∧ sessions_of 2000 run.1 (User.id alice) = ∅
  ∧ (∀ jti later,
       jti ∈ sessions_of 2000 logged_in_twice (User.id alice) →
       later < 2000 + refresh_lifetime default_settings →
       blacklisted later run.1 jti = true)
  ∧ (∀ other later,
       other ≠ User.id alice →
       sessions_of later run.1 other = sessions_of later logged_in_twice other)
  ∧ AuthService.logout_all_devices default_settings (User.id alice) 2000 run.1
    = (run.1, Ok 0).
Proof.
  apply (logout_all_devices_outcome default_settings (User.id alice) 2000
           logged_in_twice).
  - reflexivity.
  - vm_compute. exact I.
Defined.

(** X15. Logging out of all devices revokes the refresh tokens that were
    issued to the user, until they expire. Whatever the service was asked to
    do between the issuance of a token and the call of [logout_all_devices],
    and whatever it is asked to do afterwards, [refresh_tokens] then refuses
    the token with [TokenBlacklistedError] at every time before its expiry
    and with [TokenExpiredError] at every time after it. Nothing is stated
    for the second of the expiry itself. *)
Theorem logout_all_revokes_issued_refresh_tokens
    settings {hasher : PasswordHasher}
    user a r issued s0 s1 pair payload before now after later a' r' :
  AuthService._create_tokens settings user a r issued s0 = (s1, Ok pair) →
  refresh_token pair = Signed true payload →
  0 < refresh_lifetime settings →
  Forall (λ tc, honest payload tc.2
                ∧ issued ≤ tc.1 < TokenPayload.exp payload) before →
  issued ≤ now < TokenPayload.exp payload →
  Forall (λ tc, honest payload tc.2
                ∧ TokenPayload.exp payload ≤ tc.1 + refresh_lifetime settings)
         after →
  let s2 := run_calls settings before s1 in
  let s3 := (AuthService.logout_all_devices settings (User.id user) now s2).1 in
  let s4 := run_calls settings after s3 in
  (later < TokenPayload.exp payload →
     AuthService.refresh_tokens settings (refresh_token pair) a' r' later s4
       = (s4, Raise TokenBlacklistedError))
  ∧ (TokenPayload.exp payload < later →
     AuthService.refresh_tokens settings (refresh_token pair) a' r' later s4
       = (s4, Raise TokenExpiredError)).
Proof.
  intros Hct Htoken Hlife Hbefore Hnow Hafter s2 s3 s4.
  pose proof (create_tokens_Ok_typed _ _ _ _ _ _ _ _ Hct) as Htyped.
  pose proof (create_tokens_Ok _ _ _ _ _ _ _ _ Hct) as ->.
  injection Htoken as <-.
  set (payload := issued_payload user "refresh" r issued
                    (refresh_token_expire_days settings * 86400)) in *.
  assert (TokenPayload.exp payload = issued + refresh_lifetime settings) as Hexp
    by (unfold payload, refresh_lifetime; simpl; lia).
  pose proof (issued_refresh_token_revocable settings user a r issued s0 before
                Htyped Hlife Hbefore) as Hrevocable.
  rewrite Hct in Hrevocable. fold payload in Hrevocable. fold s2 in Hrevocable.
  assert (tombstoned_until (TokenPayload.exp payload) s3 (TokenPayload.jti payload))
    as Hs3.
  { apply invalidate_all_settles; [lia | lia | done]. }
  assert (tombstoned_until (TokenPayload.exp payload) s4 (TokenPayload.jti payload))
    as Hs4 by (by apply run_calls_keeps_tombstone).
  cbn [refresh_token issued_pair]. fold payload.
  split; [|apply refresh_tokens_refused].
  intros Hlive. by apply refresh_tokens_refused.
Qed.

(** ** Password change *)

Lemma find_email_save_user (u u' : User.t) rows :
  find (λ x, bool_decide (User.email x = User.email u)) rows = Some u →
  User.id u' = User.id u →
  User.email u' = User.email u →
  find (λ x, bool_decide (User.email x = User.email u)) (save_user u' rows)
  = Some u'.
Proof.
  intros Hfind Hid Hemail. induction rows as [|x rows IH]; [done|].
  simpl in *. destruct (bool_decide (User.email x = User.email u)) eqn:Hx.
  - injection Hfind as ->.
    rewrite (bool_decide_eq_true_2 (User.id u = User.id u')) by done.
    simpl. by rewrite bool_decide_eq_true_2.
  - destruct (bool_decide (User.id x = User.id u')) eqn:Hix; simpl.
    + by rewrite bool_decide_eq_true_2.
    + rewrite Hx. by apply IH.
Qed.

Lemma blacklist_each_avoids settings key jtis count :
  (∀ jti, TokenBlacklist.KEY_PREFIX +:+ jti ≠ key) →
  avoids key (TokenBlacklist.blacklist_each settings jtis count).
Proof.
  intros Hne. revert count. induction jtis as [|jti jtis IH]; intros count.
  - apply avoids_ret.
  - simpl. apply avoids_bind; [|intros _; apply IH].
    unfold RedisClient.set. apply avoids_redis_call, cmd_avoids_set, Hne.
Qed.

(** Invalidating sessions writes tombstones and one session set, nothing
    else. *)
Lemma invalidate_all_avoids settings key user_id :
  (∀ jti, TokenBlacklist.KEY_PREFIX +:+ jti ≠ key) →
  TokenBlacklist.USER_SESSIONS_PREFIX +:+ user_id ≠ key →
  avoids key (TokenBlacklist.invalidate_all_user_sessions settings user_id).
Proof.
  intros Hne Hsessions. unfold TokenBlacklist.invalidate_all_user_sessions.
  apply avoids_bind; [apply avoids_redis_call, cmd_avoids_smembers|].
  intros members. destruct (decide (members = ∅)); [apply avoids_ret|].
  apply avoids_bind; [by apply blacklist_each_avoids|]. intros count.
  apply avoids_bind; [|intros _; apply avoids_ret].
  unfold RedisClient.delete. by apply avoids_redis_call, cmd_avoids_delete.
Qed.

(** X16. After a password change the new password logs in and the old one
    does not. For a user whose row the email finds, who is active and not
    locked: a [login] with the new password, in the state that
    [change_password] left, returns a token pair (the hasher verifying what
    it hashed); a [login] with a password that the new hash does not verify,
    the old one for instance, never returns. *)
Theorem change_password_then_login settings {hasher : PasswordHasher}
    user current new client_ip a r now later s :
  verify current (User.password_hash user) = true →
  verify new (hash new) = true →
  user_by_email s (User.email user) = Some user →
  User.is_active user = true →
  0 < refresh_lifetime settings →
  sessions_well_typed now s (User.id user) →
  now ≤ later →
  locked later s (User.email user) = false →
  let s1 := (AuthService.change_password settings user current new now s).1 in
  let user' := User.with_last_login (User.with_password_hash user (hash new)) later in
  (AuthService.login settings
     {| login_email := User.email user; login_password := new |}
     client_ip a r later s1).2
  = Ok (user', issued_pair settings user' a r later)
  ∧ ∀ old client_ip' a' r' at_,
      verify old (hash new) = false →
      ∀ res,
        (AuthService.login settings
           {| login_email := User.email user; login_password := old |}
           client_ip' a' r' at_ s1).2 ≠ Ok res.
Proof.
  intros Hcurrent Hnew Hfound Hactive Hlife Htyped Hlater Hopen s1 user'.
  destruct (change_password_effect settings user current new now s
              Hcurrent Hlife Htyped)
    as (s' & Hrun & Husers & Hgone & _ & _).
  pose proof (change_password_eq settings user current new now s Hcurrent) as Heq.
  cbv zeta in Heq.
  pose proof (invalidate_all_writes settings (User.id user) now
                (State (redis_db s)
                   (save_user (User.with_password_hash user (hash new)) (users s))))
    as [Htomb Hothers].
  cbv zeta in Htomb, Hothers.
  assert (s1 = s') as -> by (subst s1; by rewrite Hrun).
  assert (s' = (TokenBlacklist.invalidate_all_user_sessions settings (User.id user)
                  now (State (redis_db s)
                         (save_user (User.with_password_hash user (hash new))
                            (users s)))).1) as Hs'
    by (rewrite Hrun in Heq; by injection Heq as ->).
  assert (user_by_email s' (User.email user)
          = Some (User.with_password_hash user (hash new))) as Hfound'.
  { unfold user_by_email. rewrite Husers.
    by apply find_email_save_user. }
  split.
  - assert (locked later s' (User.email user) = false) as Hopen'.
    { unfold locked, lookup_live in *.
      assert (redis_db s' !! (RateLimiter.ACCOUNT_LOCK_PREFIX +:+ User.email user)
              = redis_db s !! (RateLimiter.ACCOUNT_LOCK_PREFIX +:+ User.email user))
        as ->; [|done].
      rewrite Hs'.
      apply (invalidate_all_avoids settings
               (RateLimiter.ACCOUNT_LOCK_PREFIX +:+ User.email user) (User.id user)
               ltac:(discriminate) ltac:(discriminate) now (State _ _)). }
    rewrite (login_unlocked settings
               {| login_email := User.email user; login_password := new |}
               client_ip a r later s' Hopen').
    cbn [login_email login_password].
    rewrite Hfound'. cbn [User.is_active User.with_password_hash
                           User.password_hash].
    rewrite Hactive, Hnew. cbn [negb]. cbv zeta.
    rewrite create_tokens_effect; [done| |done].
    unfold sessions_well_typed. simpl.
    rewrite lookup_live_delete_ne by discriminate.
    assert (lookup_live later (redis_db s')
              (TokenBlacklist.USER_SESSIONS_PREFIX +:+ User.id user) = None
            ∨ lookup_live later (redis_db s')
                (TokenBlacklist.USER_SESSIONS_PREFIX +:+ User.id user)
              = lookup_live later (redis_db s)
                  (TokenBlacklist.USER_SESSIONS_PREFIX +:+ User.id user))
      as [->| ->]; [|done|].
    + rewrite Hs'. rewrite invalidate_all_eq by done. cbv zeta.
      destruct (decide (_ = ∅)); [by right|]. left. simpl.
      apply lookup_live_delete_eq.
    + unfold sessions_well_typed, lookup_live in *.
      destruct (redis_db s !! _) as [[v t]|]; [|done].
      unfold alive in *. simpl in *. destruct t as [t|]; [|done].
      destruct (Z.ltb_spec later t); [|done].
      destruct (Z.ltb_spec now t); [done | lia].
  - intros old client_ip' a' r' at_ Hold res.
    destruct (locked at_ s' (User.email user)) eqn:Hl.
    + by rewrite (login_locked settings
                    {| login_email := User.email user; login_password := old |}
                    client_ip' a' r' at_ s' Hl).
    + rewrite (login_unlocked settings
                 {| login_email := User.email user; login_password := old |}
                 client_ip' a' r' at_ s' Hl).
      cbn [login_email login_password].
      rewrite Hfound'. cbn [User.is_active User.with_password_hash
                             User.password_hash].
      rewrite Hactive, Hold. cbn [negb].
      by destruct (RateLimiter.record_failed_login _ _ _ _) as [? [[[] ?]|?]].
Qed.

Lemma busy_history_in_lifetime :
  Forall (λ tc, honest alice_refresh tc.2
                ∧ 1000 ≤ tc.1 < TokenPayload.exp alice_refresh) busy_history.
Proof.
  unfold busy_history.
  repeat (apply List.Forall_cons;
          [split; [|vm_compute; split; [discriminate | reflexivity]]|]);
    [| | | |apply List.Forall_nil].
  all: intros q Hin Hjti; try (by inversion Hin).
  apply list_elem_of_singleton in Hin. injection Hin as Hq. by subst q.
Qed.

Lemma logout_all_revokes_issued_refresh_tokens_witness :
  let pair := issued_pair default_settings alice "a0" "r0" 1000 in
  let s1 := (AuthService._create_tokens default_settings alice "a0" "r0" 1000
               registered).1 in
  let s2 := run_calls default_settings (hasher := plain_hasher) busy_history s1 in
  let s3 := (AuthService.logout_all_devices default_settings (User.id alice)
               3000 s2).1 in
  let s4 := run_calls default_settings (hasher := plain_hasher) busy_history s3 in
  (4000 < TokenPayload.exp alice_refresh →
     AuthService.refresh_tokens default_settings (refresh_token pair)
       "a5" "r5" 4000 s4
       = (s4, Raise TokenBlacklistedError))
  ∧ (TokenPayload.exp alice_refresh < 4000 →
     AuthService.refresh_tokens default_settings (refresh_token pair)
       "a5" "r5" 4000 s4
       = (s4, Raise TokenExpiredError)).
Proof.
  apply (logout_all_revokes_issued_refresh_tokens default_settings
           (hasher := plain_hasher) alice "a0" "r0" 1000 registered
           (AuthService._create_tokens default_settings alice "a0" "r0" 1000
              registered).1
           (issued_pair default_settings alice "a0" "r0" 1000) alice_refresh
           busy_history 3000 busy_history 4000 "a5" "r5").
  - vm_compute. reflexivity.
  - reflexivity.
  - reflexivity.
  - exact busy_history_in_lifetime.
  - vm_compute. split; [discriminate | reflexivity].
  - exact busy_history_honest.
Defined.

Lemma change_password_then_login_witness :
  let user' := User.with_last_login
                 (User.with_password_hash alice_at_1000
                    (hash (PasswordHasher := plain_hasher) "N3w!Passw0rd"))
                 2100 in
  (AuthService.login default_settings (password_hasher := plain_hasher)
     {| login_email := User.email alice_at_1000; login_password := "N3w!Passw0rd" |}
     "203.0.113.9" "a1" "r1" 2100
     (AuthService.change_password default_settings (password_hasher := plain_hasher)
        alice_at_1000 "Str0ng!Pass" "N3w!Passw0rd" 2000 logged_in).1).2
  = Ok (user', issued_pair default_settings user' "a1" "r1" 2100).
Proof.
  refine (proj1 (change_password_then_login default_settings
    (hasher := plain_hasher) alice_at_1000 "Str0ng!Pass" "N3w!Passw0rd"
    "203.0.113.9" "a1" "r1" 2000 2100 logged_in _ _ _ _ _ _ _ _)).
  - reflexivity.
  - reflexivity.
  - reflexivity.
  - reflexivity.
  - reflexivity.
  - vm_compute. exact I.
  - discriminate.
  - reflexivity.
Defined.

Lemma sliding_window_distinct_seconds_witness :
  (run_all ((λ t, (t, RateLimiter.check_rate_limit "203.0.113.9" 2 60
                        RateLimiter.GLOBAL_PREFIX))
              <$> 1000 :: [1001; 1002]) registered).2 !! 2%nat
  = Some (if 2 <=? Z.of_nat 2
          then Ok (false, 0, 1000 + 60 - 1002)
          else Ok (true, 2 - Z.of_nat 2 - 1, 0))
  ∧ 0 < 1000 + 60 - 1002.
Proof.
  apply (sliding_window_distinct_seconds "203.0.113.9" 2 60
           RateLimiter.GLOBAL_PREFIX 1000 [1001; 1002] registered).
  - reflexivity.
  - reflexivity.
  - repeat (apply SSorted_cons; [|repeat (apply List.Forall_cons; [reflexivity|]);
                                  apply List.Forall_nil]).
    apply SSorted_nil.
  - intros t Hin. set_unfold. lia.
  - reflexivity.
Defined.

Lemma default_global_limit_never_denies_witness :
  Forall allowed
    (run_all ((λ t, (t, RateLimiter.check_global_limit default_settings
                          "203.0.113.9"))
                <$> [1000; 1000; 1001]) registered).2.
Proof.
  apply (default_global_limit_never_denies "203.0.113.9" [1000; 1000; 1001]
           registered).
  - reflexivity.
  - repeat (apply Sorted_cons; [|first [apply HdRel_nil
                                        | apply HdRel_cons; discriminate]]).
    apply Sorted_nil.
  - intros t Hin. set_unfold. lia.
Defined.

Lemma five_distinct_failures_lock_witness :
  (run_all ((λ t, (t, AuthService.login default_settings
                        (password_hasher := plain_hasher)
                        wrong_password "203.0.113.9" "a" "r"))
              <$> [1000; 1001; 1002; 1003; 1004]) registered).2
  = [Raise (InvalidCredentialsError "Invalid email or password");
     Raise (InvalidCredentialsError "Invalid email or password");
     Raise (InvalidCredentialsError "Invalid email or password");
     Raise (InvalidCredentialsError "Invalid email or password");
     Raise (AccountLockedError
              "Too many failed attempts. Account temporarily locked.")].
Proof.
  refine (proj1 (five_distinct_failures_lock default_settings
    (hasher := plain_hasher) wrong_password "203.0.113.9" "a" "r" alice
    1000 1001 1002 1003 1004 registered _ _ _ _ _ _ _ _)).
  - reflexivity.
  - reflexivity.
  - reflexivity.
  - reflexivity.
  - reflexivity.
  - reflexivity.
  - lia.
  - reflexivity.
Defined.

(** ** Registration *)

Lemma find_ext_true {A} (f g : A → bool) l :
  (∀ x, f x = g x) → find f l = find g l.
Proof.
  intros Hfg. induction l as [|x l IH]; [done|]. simpl. by rewrite Hfg, IH.
Qed.

Lemma email_exists_eq email now s :
  user_repo_email_exists email None now s
  = (s, Ok (if user_by_email s email is Some _ then true else false)).
Proof.
  unfold user_repo_email_exists, user_by_email. do 2 f_equal.
  rewrite (find_ext_true _ (λ u, bool_decide (User.email u = email))); [done|].
  intros u. simpl. by rewrite andb_true_r.
Qed.

Lemma username_exists_eq username now s :
  user_repo_username_exists username None now s
  = (s, Ok (if user_by_username s username is Some _ then true else false)).
Proof.
  unfold user_repo_username_exists, user_by_username. do 2 f_equal.
  rewrite (find_ext_true _ (λ u, bool_decide (User.username u = username)));
    [done|].
  intros u. simpl. by rewrite andb_true_r.
Qed.

Lemma register_eq {hasher : PasswordHasher} data new_id now s :
  AuthService.register data new_id now s =
  match user_by_email s (register_email data),
        user_by_username s (register_username data) with
  | Some _, _ => (s, Raise (DuplicateError "email" (register_email data)))
  | None, Some _ =>
      (s, Raise (DuplicateError "username" (register_username data)))
  | None, None =>
      (State (redis_db s) (users s ++ [registered_user data new_id]),
       Ok (registered_user data new_id))
  end.
Proof.
  unfold AuthService.register, bind. rewrite email_exists_eq.
  destruct (user_by_email s _); [done|].
  rewrite username_exists_eq.
  by destruct (user_by_username s _).
Qed.

Lemma find_None_all {A} (f : A → bool) l :
  find f l = None ↔ ∀ x, x ∈ l → f x = false.
Proof.
  induction l as [|y l IH]; simpl.
  - split; [intros _ x Hin; by inversion Hin | done].
  - destruct (f y) eqn:Hy.
    + split; [done|]. intros Hall.
      specialize (Hall y (list_elem_of_here _ _)). congruence.
    + rewrite IH. split.
      * intros Hall x [->|Hin]%elem_of_cons; [done | by apply Hall].
      * intros Hall x Hin. by apply Hall, list_elem_of_further.
Qed.

(** X17. [register] checks the email before the username: an email that is
    taken raises [DuplicateError] for the email, also when the username is
    taken too; a free email with a taken username raises it for the username;
    in both cases nothing changes. Otherwise one row is appended: an active
    developer with the hash of the password, who has never logged in; the
    store is not touched and no token is issued. *)
Theorem register_outcome {hasher : PasswordHasher} data new_id now s :
  (is_Some (user_by_email s (register_email data)) →
     AuthService.register data new_id now s
     = (s, Raise (DuplicateError "email" (register_email data))))
  ∧ (user_by_email s (register_email data) = None →
     is_Some (user_by_username s (register_username data)) →
     AuthService.register data new_id now s
     = (s, Raise (DuplicateError "username" (register_username data))))
  ∧ (user_by_email s (register_email data) = None →
     user_by_username s (register_username data) = None →
     ∃ user,
       AuthService.register data new_id now s
       = (State (redis_db s) (users s ++ [user]), Ok user)
       ∧ User.id user = new_id
       ∧ User.username user = register_username data
       ∧ User.email user = register_email data
       ∧ User.password_hash user = hash (register_password data)
       ∧ User.role user = DEVELOPER
       ∧ User.is_active user = true
       ∧ User.last_login user = None).
Proof.
  rewrite register_eq. split; [|split].
  - by intros [u ->].
  - by intros -> [u ->].
  - intros -> ->. by exists (registered_user data new_id).
Qed.

Lemma register_outcome_witness :
  ∃ user,
    AuthService.register (password_hasher := plain_hasher) bob_request bob_id
      3000 logged_in
    = (State (redis_db logged_in) (users logged_in ++ [user]), Ok user)
    ∧ User.id user = bob_id
    ∧ User.username user = register_username bob_request
    ∧ User.email user = register_email bob_request
    ∧ User.password_hash user
      = hash (PasswordHasher := plain_hasher) (register_password bob_request)
    ∧ User.role user = DEVELOPER
    ∧ User.is_active user = true
    ∧ User.last_login user = None.
Proof.
  refine (proj2 (proj2 (register_outcome (hasher := plain_hasher) bob_request
    bob_id 3000 logged_in)) _ _).
  - reflexivity.
  - reflexivity.
Defined.

(** X18. [register] keeps the user table free of duplicate emails and
    duplicate usernames, whether it creates the account or refuses. *)
Theorem register_keeps_identities_unique {hasher : PasswordHasher}
    data new_id now s :
  unique_identities (users s) →
  unique_identities (users (AuthService.register data new_id now s).1).
Proof.
  intros [Hemails Hnames]. rewrite register_eq.
  destruct (user_by_email s _) eqn:Hemail; [done|].
  destruct (user_by_username s _) eqn:Hname; [done|].
  simpl. unfold unique_identities. rewrite !fmap_app. simpl.
  unfold user_by_email in Hemail. unfold user_by_username in Hname.
  pose proof (proj1 (find_None_all _ _) Hemail) as Hemails'.
  pose proof (proj1 (find_None_all _ _) Hname) as Hnames'.
  split; apply NoDup_app; (split; [done|]); (split; [|apply NoDup_singleton]).
  - intros e [u [-> Hin]]%list_elem_of_fmap Hnew.
    apply list_elem_of_singleton in Hnew.
    specialize (Hemails' u Hin). simpl in Hemails'.
    by apply bool_decide_eq_false in Hemails'.
  - intros n [u [-> Hin]]%list_elem_of_fmap Hnew.
    apply list_elem_of_singleton in Hnew.
    specialize (Hnames' u Hin). simpl in Hnames'.
    by apply bool_decide_eq_false in Hnames'.
Qed.

Lemma register_keeps_identities_unique_witness :
  unique_identities
    (users (AuthService.register (password_hasher := plain_hasher) bob_request
              bob_id 3000 logged_in).1).
Proof.
  apply (register_keeps_identities_unique (hasher := plain_hasher) bob_request
           bob_id 3000 logged_in).
  split; vm_compute; apply NoDup_singleton.
Defined.

Lemma find_app_None {A} (f : A → bool) l x :
  find f l = None → f x = true → find f (l ++ [x]) = Some x.
Proof.
  intros Hnone Hx. induction l as [|y l IH]; simpl in *; [by rewrite Hx|].
  destruct (f y); [done|]. by apply IH.
Qed.

(** X19. An account that [register] created can log in with the password it
    was registered with: in the state the registration left, and when the
    hasher verifies what it hashed, [login] with that email and password
    returns the new user and a token pair. *)
Theorem register_then_login settings {hasher : PasswordHasher}
    data new_id registered_at s s1 user client_ip a r now :
  AuthService.register data new_id registered_at s = (s1, Ok user) →
  verify (register_password data) (hash (register_password data)) = true →
  locked now s (register_email data) = false →
  sessions_well_typed now s new_id →
  0 < refresh_lifetime settings →
  (AuthService.login settings
     {| login_email := register_email data;
        login_password := register_password data |}
     client_ip a r now s1).2
  = Ok (User.with_last_login user now,
        issued_pair settings (User.with_last_login user now) a r now).
Proof.
  intros Hregister Hhash Hopen Htyped Hlife.
  rewrite register_eq in Hregister.
  destruct (user_by_email s _) eqn:Hemail; [done|].
  destruct (user_by_username s _) eqn:Hname; [done|].
  injection Hregister as <- <-.
  set (s1 := State (redis_db s) (users s ++ [registered_user data new_id])).
  assert (locked now s1 (register_email data) = false) as Hopen' by done.
  rewrite (login_unlocked settings
             {| login_email := register_email data;
                login_password := register_password data |}
             client_ip a r now s1 Hopen').
  cbn [login_email login_password].
  assert (user_by_email s1 (register_email data)
          = Some (registered_user data new_id)) as ->.
  { unfold user_by_email, s1. simpl. apply find_app_None; [done|].
    simpl. by rewrite bool_decide_eq_true_2. }
  cbn [registered_user User.is_active User.password_hash negb].
  rewrite Hhash. cbn [negb]. cbv zeta.
  rewrite create_tokens_effect; [done| |done].
  unfold sessions_well_typed in *. simpl.
  by rewrite lookup_live_delete_ne by discriminate.
Qed.

Lemma register_then_login_witness :
  (AuthService.login default_settings (password_hasher := plain_hasher)
     {| login_email := register_email bob_request;
        login_password := register_password bob_request |}
     "198.51.100.7" "a7" "r7" 3100
     (AuthService.register (password_hasher := plain_hasher) bob_request bob_id
        3000 logged_in).1).2
  = Ok (User.with_last_login
          (registered_user (hasher := plain_hasher) bob_request bob_id) 3100,
        issued_pair default_settings
          (User.with_last_login
             (registered_user (hasher := plain_hasher) bob_request bob_id) 3100)
          "a7" "r7" 3100).
Proof.
  apply (register_then_login default_settings (hasher := plain_hasher)
           bob_request bob_id 3000 logged_in
           (AuthService.register (password_hasher := plain_hasher) bob_request
              bob_id 3000 logged_in).1
           (registered_user (hasher := plain_hasher) bob_request bob_id)
           "198.51.100.7" "a7" "r7" 3100).
  - reflexivity.
  - reflexivity.
  - reflexivity.
  - vm_compute. exact I.
  - reflexivity.
Defined.

(** ** Deactivated accounts *)

Lemma set_active_eq user_id active now s :
  (let* user := UserService.get_user user_id in
   lift (user_repo_update_is_active user active)) now s
  = match find (λ u, bool_decide (User.id u = user_id)) (users s) with
    | None => (s, Thrown (NotFoundError "User" user_id))
    | Some row =>
        (State (redis_db s) (save_user (User.with_is_active row active) (users s)),
         Returned (User.with_is_active row active))
    end.
Proof.
  unfold UserService.get_user, hbind, lift, user_repo_get. simpl.
  by destruct (find _ (users s)).
Qed.

Lemma blacklist_token_Ok jti exp user_id now s :
  sessions_well_typed now s user_id →
  (TokenBlacklist.blacklist_token jti exp (Some user_id) now s).2 = Ok ().
Proof.
  intros Htyped. destruct (Z.lt_ge_cases now exp) as [Hlt|Hge].
  2: { by rewrite blacklist_token_expired. }
  rewrite blacklist_token_unexpired by done. cbv zeta.
  destruct (truthy user_id); [|done].
  set (db1 := <[TokenBlacklist.KEY_PREFIX +:+ jti := _]> (redis_db s)).
  assert (sessions_well_typed now (State db1 (users s)) user_id) as Htyped1.
  { unfold sessions_well_typed in *. simpl. subst db1.
    by rewrite lookup_live_insert_ne by apply blacklist_key_ne_sessions_key. }
  destruct (cmd_srem _ jti now db1) as [db2 res] eqn:Hsrem.
  destruct (cmd_srem_members user_id jti now (State db1 (users s)) db2 res
              Htyped1 Hsrem) as [[n ->] _].
  done.
Qed.

(** What [refresh_tokens] answers for a token that passes its checks, when
    the session set of its owner is a set or nothing. *)
Lemma refresh_tokens_returns settings payload a r now s user :
  now ≤ TokenPayload.exp payload →
  TokenPayload.type payload = "refresh" →
  blacklisted now s (TokenPayload.jti payload) = false →
  find (λ u, bool_decide (User.id u = TokenPayload.sub payload)) (users s)
    = Some user →
  User.is_active user = true →
  User.id user = TokenPayload.sub payload →
  sessions_well_typed now s (TokenPayload.sub payload) →
  0 < refresh_lifetime settings →
  (AuthService.refresh_tokens settings (Signed true payload) a r now s).2
  = Ok (issued_pair settings user a r now).
Proof.
  intros Hexp Hty Hclean Hfind Hactive Hid Htyped Hlife.
  rewrite (refresh_tokens_accepted settings payload a r now s user) by done.
  pose proof (blacklist_token_Ok (TokenPayload.jti payload)
                (TokenPayload.exp payload) (TokenPayload.sub payload) now s Htyped)
    as Hok.
  pose proof (blacklist_token_keeps_typed (TokenPayload.jti payload)
                (TokenPayload.exp payload) (Some (TokenPayload.sub payload)) now
                (TokenPayload.sub payload) s Htyped) as Htyped'.
  destruct (TokenBlacklist.blacklist_token _ _ _ now s) as [s' res].
  simpl in Hok, Htyped'. subst res.
  rewrite create_tokens_effect; [done| |done]. by rewrite Hid.
Qed.

Lemma NoDup_fmap_eq {A B} (f : A → B) l x y :
  NoDup (f <$> l) → x ∈ l → y ∈ l → f x = f y → x = y.
Proof.
  induction l as [|z l IH]; [by inversion 2|].
  rewrite fmap_cons. intros [Hnotin Hnodup]%NoDup_cons.
  intros [->|Hx]%elem_of_cons [->|Hy]%elem_of_cons Heq; try done.
  - destruct Hnotin. rewrite Heq. by apply list_elem_of_fmap_2.
  - destruct Hnotin. rewrite <- Heq. by apply list_elem_of_fmap_2.
  - by apply IH.
Qed.

(** X20. A deactivated account is shut out at once, although
    [deactivate_user] touches neither tombstones nor session sets: in the
    state it leaves, [refresh_tokens] raises for every token of that user
    and consumes nothing, and [login] for the user's email raises, for an
    unlocked account with "Account is deactivated" whatever the password,
    without counting a failed attempt. *)
Theorem deactivated_user_is_shut_out settings {hasher : PasswordHasher}
    user_id at_ s s1 user :
  UserService.deactivate_user user_id at_ s = (s1, Returned user) →
  redis_db s1 = redis_db s
  ∧ User.is_active user = false
  ∧ (∀ payload a r now,
       TokenPayload.sub payload = user_id →
       ∃ e, AuthService.refresh_tokens settings (Signed true payload) a r now s1
            = (s1, Raise e))
  ∧ (∀ data client_ip a r now row,
       NoDup (User.id <$> users s) →
       user_by_email s (login_email data) = Some row →
       User.id row = user_id →
       ∃ e, AuthService.login settings data client_ip a r now s1 = (s1, Raise e)
            ∧ (locked now s1 (login_email data) = false →
               e = AuthenticationError "Account is deactivated")).
Proof.
  unfold UserService.deactivate_user. rewrite set_active_eq.
  destruct (find _ (users s)) as [found|] eqn:Hfound; [|done].
  intros [= <- <-]. split; [done|]. split; [done|].
  set (user := User.with_is_active found false).
  set (s1 := State (redis_db s) (save_user user (users s))).
  pose proof (find_elem _ _ _ Hfound) as [Hin Hid%bool_decide_eq_true].
  split.
  - intros payload a r now Hsub.
    unfold AuthService.refresh_tokens, bind. rewrite jwt_verify_token_eq.
    destruct (jwt_decode now (Signed true payload)) as [claims| |why] eqn:Hdec;
      [|by eexists..].
    apply jwt_decode_Decoded in Hdec as [[= <-] _].
    destruct (negb (TokenPayload.type payload =? "refresh")%string);
      [by eexists|].
    rewrite is_blacklisted_eq.
    destruct (blacklisted now s1 (TokenPayload.jti payload)); [by eexists|].
    unfold user_repo_get. rewrite Hsub.
    assert (find (λ u, bool_decide (User.id u = user_id)) (users s1) = Some user)
      as ->.
    { rewrite <- Hid. apply (find_save_user_id user). by exists found. }
    by eexists.
  - intros data client_ip a r now row Hnodup Hrow Hrowid.
    destruct (locked now s1 (login_email data)) eqn:Hlocked.
    + rewrite login_locked by done. by eexists.
    + rewrite login_unlocked by done.
      apply find_elem in Hrow as Hrow'. destruct Hrow' as [Hrowin _].
      assert (row = found) as ->
        by (apply (NoDup_fmap_eq User.id (users s)); congruence).
      assert (user_by_email s1 (login_email data) = Some user) as ->.
      { unfold user_by_email in *. simpl.
        pose proof (find_elem _ _ _ Hrow) as [_ Hemail%bool_decide_eq_true].
        rewrite <- Hemail.
        by apply (find_email_save_user found user); [rewrite Hemail|..]. }
      simpl. by eexists.
Qed.

(** X21. Deactivation revokes nothing: once [activate_user] has brought the
    account back, a refresh token that was issued before the deactivation
    and is still good (unexpired, not blacklisted) is accepted again, and the
    store is as it was. *)
Theorem deactivation_revokes_nothing settings {hasher : PasswordHasher}
    user_id t1 t2 s s1 s2 u1 u2 payload a r now :
  UserService.deactivate_user user_id t1 s = (s1, Returned u1) →
  UserService.activate_user user_id t2 s1 = (s2, Returned u2) →
  TokenPayload.sub payload = user_id →
  TokenPayload.type payload = "refresh" →
  now ≤ TokenPayload.exp payload →
  blacklisted now s (TokenPayload.jti payload) = false →
  sessions_well_typed now s user_id →
  0 < refresh_lifetime settings →
  redis_db s2 = redis_db s
  ∧ (AuthService.refresh_tokens settings (Signed true payload) a r now s2).2
    = Ok (issued_pair settings u2 a r now).
Proof.
  unfold UserService.deactivate_user, UserService.activate_user.
  rewrite !set_active_eq.
  destruct (find _ (users s)) as [found|] eqn:Hfound; [|done].
  intros [= <- <-].
  pose proof (find_elem _ _ _ Hfound) as [Hin Hid%bool_decide_eq_true].
  assert (find (λ u, bool_decide (User.id u = user_id))
            (save_user (User.with_is_active found false) (users s))
          = Some (User.with_is_active found false)) as Hfound1.
  { rewrite <- Hid. apply (find_save_user_id (User.with_is_active found false)).
    by exists found. }
  cbn [users redis_db]. rewrite Hfound1.
  intros [= <- <-] Hsub Hty Hexp Hclean Htyped Hlife.
  split; [done|].
  pose proof (find_elem _ _ _ Hfound1) as [Hin1 _].
  apply refresh_tokens_returns; try done.
  - simpl. rewrite Hsub, <- Hid.
    apply (find_save_user_id
             (User.with_is_active (User.with_is_active found false) true)).
    by exists (User.with_is_active found false).
  - simpl. by rewrite Hsub.
  - by rewrite Hsub.
Qed.

Lemma deactivated_user_is_shut_out_witness :
  let s1 := (UserService.deactivate_user (User.id alice) 1600 logged_in).1 in
  redis_db s1 = redis_db logged_in
  ∧ User.is_active (User.with_is_active alice_at_1000 false) = false
  ∧ (∀ payload a r now,
       TokenPayload.sub payload = User.id alice →
       ∃ e, AuthService.refresh_tokens default_settings (Signed true payload)
              a r now s1
            = (s1, Raise e))
  ∧ (∀ data client_ip a r now row,
       NoDup (User.id <$> users logged_in) →
       user_by_email logged_in (login_email data) = Some row →
       User.id row = User.id alice →
       ∃ e, AuthService.login default_settings (password_hasher := plain_hasher)
              data client_ip a r now s1
            = (s1, Raise e)
            ∧ (locked now s1 (login_email data) = false →
               e = AuthenticationError "Account is deactivated")).
Proof.
  apply (deactivated_user_is_shut_out default_settings (hasher := plain_hasher)
           (User.id alice) 1600 logged_in
           (UserService.deactivate_user (User.id alice) 1600 logged_in).1
           (User.with_is_active alice_at_1000 false)).
  vm_compute. reflexivity.
Defined.

Lemma deactivation_revokes_nothing_witness :
  let s1 := (UserService.deactivate_user (User.id alice) 1600 logged_in).1 in
  let s2 := (UserService.activate_user (User.id alice) 1700 s1).1 in
  let alice' :=
    User.with_is_active (User.with_is_active alice_at_1000 false) true in
  redis_db s2 = redis_db logged_in
  ∧ (AuthService.refresh_tokens default_settings (Signed true alice_refresh)
       "a1" "r1" 2000 s2).2
    = Ok (issued_pair default_settings alice' "a1" "r1" 2000).
Proof.
  apply (deactivation_revokes_nothing default_settings (hasher := plain_hasher)
           (User.id alice) 1600 1700 logged_in
           (UserService.deactivate_user (User.id alice) 1600 logged_in).1
           (UserService.activate_user (User.id alice) 1700
              (UserService.deactivate_user (User.id alice) 1600 logged_in).1).1
           (User.with_is_active alice_at_1000 false)
           (User.with_is_active (User.with_is_active alice_at_1000 false) true)
           alice_refresh "a1" "r1" 2000).
  - vm_compute. reflexivity.
  - vm_compute. reflexivity.
  - reflexivity.
  - reflexivity.
  - vm_compute. discriminate.
  - reflexivity.
  - vm_compute. exact I.
  - reflexivity.
Defined.

(** ** The identity of a client *)

Lemma lstrip_clean s : clean_left (str.lstrip s).
Proof.
  induction s as [|c s IH]; [done|]. simpl.
  by destruct (str.isspace c) eqn:Hc.
Qed.

Lemma lstrip_id s : clean_left s → str.lstrip s = s.
Proof. destruct s as [|c s]; [done|]. simpl. by intros ->. Qed.

Lemma rstrip_clean s : clean_left s → clean_left (str.rstrip s).
Proof.
  destruct s as [|c s]; [done|]. simpl. intros Hc.
  destruct (str.rstrip s); [by rewrite Hc | done].
Qed.

Lemma rstrip_idem s : str.rstrip (str.rstrip s) = str.rstrip s.
Proof.
  induction s as [|c s IH]; [done|]. simpl.
  destruct (str.rstrip s) as [|k kept] eqn:Hs.
  - destruct (str.isspace c) eqn:Hc; [done|]. simpl. by rewrite Hc.
  - change (str.rstrip (String c (String k kept)))
      with (match str.rstrip (String k kept) with
            | EmptyString =>
                if str.isspace c then EmptyString else String c EmptyString
            | kept' => String c kept'
            end).
    by rewrite IH.
Qed.

Lemma strip_idem s : str.strip (str.strip s) = str.strip s.
Proof.
  unfold str.strip.
  rewrite (lstrip_id (str.rstrip (str.lstrip s)))
    by apply rstrip_clean, lstrip_clean.
  apply rstrip_idem.
Qed.

Lemma occurs_lstrip c s : occurs c (str.lstrip s) = true → occurs c s = true.
Proof.
  induction s as [|c' s IH]; [done|]. simpl.
  destruct (str.isspace c'); [|done].
  intros ->%IH. apply orb_true_r.
Qed.

Lemma occurs_rstrip c s : occurs c (str.rstrip s) = true → occurs c s = true.
Proof.
  induction s as [|c' s IH]; [done|]. simpl.
  destruct (str.rstrip s) as [|k kept].
  - destruct (str.isspace c'); [done|]. simpl.
    rewrite orb_false_r. by intros ->.
  - cbn [occurs]. intros [->| Hin]%orb_true_iff; [done|].
    rewrite IH; [apply orb_true_r | done].
Qed.

Lemma occurs_strip c s : occurs c (str.strip s) = true → occurs c s = true.
Proof. intros Hin. by apply occurs_lstrip, occurs_rstrip. Qed.

Lemma split_head_no_sep sep s :
  occurs sep (default "" (head (str.split sep s))) = false.
Proof.
  induction s as [|c s IH]; [done|]. simpl.
  destruct (Ascii.eqb c sep) eqn:Hc; [done|].
  destruct (str.split sep s) as [|first others]; simpl in *.
  - by rewrite Hc.
  - by rewrite Hc, IH.
Qed.

Lemma split_no_sep sep s : occurs sep s = false → str.split sep s = [s].
Proof.
  induction s as [|c s IH]; [done|]. simpl.
  intros [Hc Hs]%orb_false_iff. rewrite Hc. by rewrite IH.
Qed.

(** X22. A non-empty [X-Forwarded-For] header decides the identity under
    which a client is rate-limited, in both copies of [get_client_ip]. The
    address of the peer plays no part; the identity is the first field of the
    header with the white space around it removed, so it holds no comma and
    nothing more can be stripped from it; and a header that is one such clean
    value is taken as it stands. *)
Theorem forwarded_header_decides_identity request forwarded :
  Headers.get "X-Forwarded-For" (request_headers request) = Some forwarded →
  forwarded ≠ "" →
  let ip := Deps.get_client_ip request in
  (∀ host,
     Deps.get_client_ip {| url_path := url_path request;
                           request_headers := request_headers request;
                           client_host := host |} = ip)
  ∧ RateLimitMiddleware.get_client_ip request = ip
  ∧ occurs ","%char ip = false
  ∧ str.strip ip = ip
  ∧ (occurs ","%char forwarded = false → str.strip forwarded = forwarded →
     ip = forwarded).
Proof.
  intros Hheader Hnonempty ip.
  assert (truthy forwarded = true) as Htruthy by (by destruct forwarded).
  assert (ip = str.strip (default "" (head (str.split "," forwarded)))) as Hip.
  { subst ip. unfold Deps.get_client_ip. by rewrite Hheader, Htruthy. }
  split; [|split; [|split; [|split]]].
  - intros host. unfold Deps.get_client_ip. simpl.
    by rewrite Hheader, Htruthy.
  - unfold RateLimitMiddleware.get_client_ip. by rewrite Hheader, Htruthy.
  - rewrite Hip. destruct (occurs _ (str.strip _)) eqn:Hin; [|done].
    apply occurs_strip in Hin. by rewrite split_head_no_sep in Hin.
  - rewrite Hip. apply strip_idem.
  - intros Hplain Hclean. rewrite Hip, split_no_sep by done. done.
Qed.

Lemma forwarded_header_decides_identity_witness :
  let ip := Deps.get_client_ip forwarded_request in
  (∀ host,
     Deps.get_client_ip {| url_path := url_path forwarded_request;
                           request_headers := request_headers forwarded_request;
                           client_host := host |} = ip)
  ∧ RateLimitMiddleware.get_client_ip forwarded_request = ip
  ∧ occurs ","%char ip = false
  ∧ str.strip ip = ip
  ∧ (occurs ","%char " 198.51.100.7 , 203.0.113.9" = false →
     str.strip " 198.51.100.7 , 203.0.113.9" = " 198.51.100.7 , 203.0.113.9" →
     ip = " 198.51.100.7 , 203.0.113.9").
Proof.
  apply (forwarded_header_decides_identity forwarded_request
           " 198.51.100.7 , 203.0.113.9").
  - reflexivity.
  - discriminate.
Defined.

(** ** The rate-limit middleware and the rate-limit dependencies *)

Lemma headers_get_set name v headers :
  Headers.get name (Headers.set name v headers) = Some v.
Proof.
  unfold Headers.get, Headers.set.
  induction headers as [|kv rest IH]; simpl.
  - by rewrite String.eqb_refl.
  - destruct (String.eqb kv.1 (str.lower name)) eqn:Hkv; simpl.
    + by rewrite String.eqb_refl.
    + by rewrite Hkv.
Qed.

(** X23. [dispatch] lets the excluded paths through without touching the
    limiter. For every other path it counts the request under the identity of
    the client; a request that the limiter allows is handed to the
    application, and the response comes back with [X-RateLimit-Remaining] set
    to a number from 0 to [limit - 1]; a request that the limiter denies never
    reaches the application and is answered 429 with a [Retry-After] of at
    least one second and at most the window. *)
Theorem dispatch_outcome settings request call_next now s :
  (url_path request ∈ RateLimitMiddleware.EXCLUDED_PATHS →
     RateLimitMiddleware.dispatch settings request call_next now s
     = call_next request now s)
  ∧ (url_path request ∉ RateLimitMiddleware.EXCLUDED_PATHS →
     zset_well_typed now (redis_db s)
       (RateLimiter.GLOBAL_PREFIX +:+ RateLimitMiddleware.get_client_ip request) →
     let limited :=
       RateLimiter.check_global_limit settings
         (RateLimitMiddleware.get_client_ip request) now s in
     (∃ remaining,
        limited.2 = Ok (true, remaining, 0)
        ∧ 0 ≤ remaining < rate_limit_requests settings
        ∧ RateLimitMiddleware.dispatch settings request call_next now s
          = match call_next request now limited.1 with
            | (s', Returned response) =>
                (s', Returned (with_header "X-RateLimit-Remaining"
                                 (pretty remaining) response))
            | (s', Thrown x) => (s', Thrown x)
            end
        ∧ ∀ s' response,
            call_next request now limited.1 = (s', Returned response) →
            Headers.get "X-RateLimit-Remaining"
              (response_headers
                 (with_header "X-RateLimit-Remaining" (pretty remaining) response))
            = Some (pretty remaining))
     ∨ (∃ retry_after response,
          limited.2 = Ok (false, 0, retry_after)
          ∧ 1 ≤ retry_after ≤ Z.max (rate_limit_window settings) 1
          ∧ RateLimitMiddleware.dispatch settings request call_next now s
            = (limited.1, Returned response)
          ∧ status_code response = 429
          ∧ Headers.get "Retry-After" (response_headers response)
            = Some (pretty retry_after))).
Proof.
  split.
  - intros Hin. unfold RateLimitMiddleware.dispatch.
    by rewrite bool_decide_eq_true_2.
  - intros Hnotin Htyped limited.
    unfold RateLimitMiddleware.dispatch.
    rewrite bool_decide_eq_false_2 by done.
    pose proof (check_rate_limit_cases (RateLimitMiddleware.get_client_ip request)
                  (rate_limit_requests settings) (rate_limit_window settings)
                  RateLimiter.GLOBAL_PREFIX now s Htyped) as Hcases.
    cbv zeta in Hcases.
    fold (RateLimiter.check_global_limit settings
            (RateLimitMiddleware.get_client_ip request) now s) in Hcases.
    fold limited in Hcases.
    unfold hbind, lift. fold limited.
    destruct limited as [s1 res] eqn:Hlimited. simpl in Hcases.
    destruct Hcases as [(remaining & -> & Hrange)|(retry_after & -> & Hrange)].
    + left. exists remaining.
      split; [done|]. split; [done|]. split.
      * simpl. by destruct (call_next request now s1) as [s' [response|x]].
      * intros s' response _. simpl. apply headers_get_set.
    + right.
      eexists retry_after, _. split; [done|]. split; [done|].
      split; [done|]. split; [done|]. simpl. done.
Qed.

(** X24. With the default settings the global limit rejects nothing. When
    the window of the client holds what the limiter itself left there (one
    entry per second, none from the future), the middleware hands every
    request on to the application, and [rate_limit_check] returns: a window of
    60 seconds never holds the 100 entries of the limit. *)
Theorem default_global_limit_rejects_nothing request call_next now s :
  tidy now (redis_db s)
    (RateLimiter.GLOBAL_PREFIX +:+ RateLimitMiddleware.get_client_ip request) →
  (∃ s1 (remaining : Z),
     RateLimitMiddleware.dispatch default_settings request call_next now s
     = match call_next request now s1 with
       | (s', Returned response) =>
           (s', Returned (if bool_decide (url_path request
                                           ∈ RateLimitMiddleware.EXCLUDED_PATHS)
                          then response
                          else with_header "X-RateLimit-Remaining"
                                 (pretty remaining) response))
       | (s', Thrown x) => (s', Thrown x)
       end)
  ∧ (Deps.rate_limit_check default_settings request now s).2 = Returned ().
Proof.
  intros Htidy.
  pose proof (check_rate_limit_never_full
                (RateLimitMiddleware.get_client_ip request) 100 60
                RateLimiter.GLOBAL_PREFIX now s Htidy ltac:(lia))
    as [remaining Hallowed].
  split.
  - unfold RateLimitMiddleware.dispatch.
    destruct (bool_decide (url_path request ∈ _)).
    + exists s, 0. by destruct (call_next request now s) as [s' [response|x]].
    + unfold hbind, lift, RateLimiter.check_global_limit. simpl.
      destruct (RateLimiter.check_rate_limit _ 100 60 _ now s) as [s1 res].
      simpl in Hallowed. subst res. simpl.
      exists s1, remaining.
      by destruct (call_next request now s1) as [s' [response|x]].
  - unfold Deps.rate_limit_check, hbind, lift, RateLimiter.check_global_limit.
    simpl.
    change (Deps.get_client_ip request)
      with (RateLimitMiddleware.get_client_ip request).
    destruct (RateLimiter.check_rate_limit _ 100 60 _ now s) as [s1 res].
    simpl in Hallowed. by subst res.
Qed.

Lemma dispatch_outcome_witness :
  let limited :=
    RateLimiter.check_global_limit default_settings
      (RateLimitMiddleware.get_client_ip forwarded_request) 1000 three_requests in
  (∃ remaining,
     limited.2 = Ok (true, remaining, 0)
     ∧ 0 ≤ remaining < rate_limit_requests default_settings
     ∧ RateLimitMiddleware.dispatch default_settings forwarded_request ok_handler
         1000 three_requests
       = match ok_handler forwarded_request 1000 limited.1 with
         | (s', Returned response) =>
             (s', Returned (with_header "X-RateLimit-Remaining"
                              (pretty remaining) response))
         | (s', Thrown x) => (s', Thrown x)
         end
     ∧ ∀ s' response,
         ok_handler forwarded_request 1000 limited.1 = (s', Returned response) →
         Headers.get "X-RateLimit-Remaining"
           (response_headers
              (with_header "X-RateLimit-Remaining" (pretty remaining) response))
         = Some (pretty remaining))
  ∨ (∃ retry_after response,
       limited.2 = Ok (false, 0, retry_after)
       ∧ 1 ≤ retry_after ≤ Z.max (rate_limit_window default_settings) 1
       ∧ RateLimitMiddleware.dispatch default_settings forwarded_request
           ok_handler 1000 three_requests
         = (limited.1, Returned response)
       ∧ status_code response = 429
       ∧ Headers.get "Retry-After" (response_headers response)
         = Some (pretty retry_after)).
Proof.
  apply (proj2 (dispatch_outcome default_settings forwarded_request ok_handler
                  1000 three_requests)).
  - apply (bool_decide_unpack _). vm_compute. exact I.
  - vm_compute. exact I.
Defined.

Lemma default_global_limit_rejects_nothing_witness :
  (∃ s1 (remaining : Z),
     RateLimitMiddleware.dispatch default_settings forwarded_request ok_handler
       1000 three_requests
     = match ok_handler forwarded_request 1000 s1 with
       | (s', Returned response) =>
           (s', Returned (if bool_decide (url_path forwarded_request
                                           ∈ RateLimitMiddleware.EXCLUDED_PATHS)
                          then response
                          else with_header "X-RateLimit-Remaining"
                                 (pretty remaining) response))
       | (s', Thrown x) => (s', Thrown x)
       end)
  ∧ (Deps.rate_limit_check default_settings forwarded_request 1000
       three_requests).2 = Returned ().
Proof.
  apply (default_global_limit_rejects_nothing forwarded_request ok_handler 1000
           three_requests).
  split; [vm_compute; exact I|].
  exists [1000]. split; [vm_compute; reflexivity|].
  intros c Hc. set_unfold. lia.
Defined.

(** ** Who is asking: the dependencies of the routes *)

(** [get_current_user] as one case analysis. *)
Lemma get_current_user_eq codec authorization now s :
  Deps.get_current_user codec authorization now s =
  (s,
   if negb (str.startswith authorization "Bearer ") then
     Thrown (HTTPException 401 "Invalid authorization header format"
               Deps.WWW_AUTHENTICATE)
   else
     match (AuthService.verify_token
              (codec (nth 1 (str.split " " authorization) "")) now s).2 with
     | Raise e => Thrown (HTTPException 401 (message e) Deps.WWW_AUTHENTICATE)
     | Ok payload =>
         match find (λ u, bool_decide (User.id u = TokenPayload.sub payload))
                 (users s) with
         | None => Thrown (HTTPException 401 "User not found" Deps.WWW_AUTHENTICATE)
         | Some user =>
             if User.is_active user then Returned user
             else Thrown (HTTPException 401 "User account is deactivated"
                            Deps.WWW_AUTHENTICATE)
         end
     end).
Proof.
  unfold Deps.get_current_user.
  destruct (str.startswith authorization "Bearer "); [|done]. simpl.
  unfold try_except, hbind, lift. rewrite verify_token_eq.
  destruct (jwt_decode now _) as [payload| |why]; simpl; [|done..].
  destruct (negb (TokenPayload.type payload =? "access")%string); [done|].
  destruct (blacklisted now s (TokenPayload.jti payload)); [done|]. simpl.
  unfold user_repo_get. simpl.
  destruct (find _ (users s)) as [found|]; [|done]. simpl.
  by destruct (User.is_active found).
Qed.

(** X25. [get_current_user] only reads. It returns a user exactly when the
    header starts with "Bearer ", the word after the first space is a token
    that [verify_token] accepts, and the user it names exists and is active;
    then that user is returned. Every failure, whatever its cause (header,
    signature, expiry, type, revocation, unknown or deactivated user), is an
    [HTTPException] with status 401 and the [WWW-Authenticate: Bearer]
    header. *)
Theorem get_current_user_outcome codec authorization now s :
  let tok := codec (nth 1 (str.split " " authorization) "") in
  (Deps.get_current_user codec authorization now s).1 = s
  ∧ (∀ user,
       (Deps.get_current_user codec authorization now s).2 = Returned user
       ↔ str.startswith authorization "Bearer " = true
         ∧ ∃ payload,
             (AuthService.verify_token tok now s).2 = Ok payload
             ∧ find (λ u, bool_decide (User.id u = TokenPayload.sub payload))
                 (users s) = Some user
             ∧ User.is_active user = true)
  ∧ (∀ x,
       (Deps.get_current_user codec authorization now s).2 = Thrown x →
       ∃ detail, x = HTTPException 401 detail Deps.WWW_AUTHENTICATE).
Proof.
  intros tok. rewrite get_current_user_eq. fold tok. simpl.
  split; [done|].
  destruct (str.startswith authorization "Bearer "); simpl.
  2: { split.
       - intros user. split; [done | by intros [? _]].
       - intros x [= <-]. by eexists. }
  destruct (AuthService.verify_token tok now s).2 as [payload|e].
  2: { split.
       - intros user. split; [done | by intros [_ (? & ? & _)]].
       - intros x [= <-]. by eexists. }
  destruct (find _ (users s)) as [found|] eqn:Hfound.
  2: { split.
       - intros user. split; [done|]. intros [_ (p & [= <-] & Hf & _)].
         congruence.
       - intros x [= <-]. by eexists. }
  destruct (User.is_active found) eqn:Hactive.
  - split; [|done]. intros user. split.
    + intros [= <-]. split; [done|]. by exists payload.
    + intros [_ (p & [= <-] & Hf & _)]. congruence.
  - split.
    + intros user. split; [done|]. intros [_ (p & [= <-] & Hf & Ha)].
      congruence.
    + intros x [= <-]. by eexists.
Qed.

(** X26. [get_optional_user] never raises and never changes the state: it
    returns the user that [get_current_user] returns for the header, and
    nothing when there is no header, an empty one, or one that
    [get_current_user] refuses. *)
Theorem get_optional_user_never_raises codec authorization now s :
  ∃ found,
    Deps.get_optional_user codec authorization now s = (s, Returned found)
    ∧ ∀ user,
        found = Some user
        ↔ ∃ header,
            authorization = Some header
            ∧ header ≠ ""
            ∧ (Deps.get_current_user codec header now s).2 = Returned user.
Proof.
  unfold Deps.get_optional_user.
  destruct authorization as [header|].
  2: { exists None. split; [done|]. intros user.
       split; [done | by intros (? & ? & _)]. }
  destruct header as [|c header]; simpl.
  { exists None. split; [done|]. intros user.
    split; [done | by intros (? & [= <-] & ? & _)]. }
  unfold try_except, hbind. rewrite get_current_user_eq.
  set (answer := if negb _ then _ else _).
  assert (∀ user, (s, answer).2 = Returned user
                  ↔ ∃ h, Some (String c header) = Some h ∧ h ≠ ""
                         ∧ (Deps.get_current_user codec h now s).2 = Returned user)
    as Hiff.
  { intros user. split.
    - intros Hr. exists (String c header). by rewrite get_current_user_eq.
    - intros (h & [= <-] & _ & Hr). by rewrite get_current_user_eq in Hr. }
  assert ((∃ user, answer = Returned user)
          ∨ ∃ detail, answer = Thrown (HTTPException 401 detail
                                         Deps.WWW_AUTHENTICATE)) as Hshape.
  { subst answer. destruct (negb _); [right; by eexists|].
    destruct (AuthService.verify_token _ now s).2; [|right; by eexists].
    destruct (find _ (users s)) as [found|]; [|right; by eexists].
    destruct (User.is_active found); [left; by eexists | right; by eexists]. }
  destruct Hshape as [[user Ha]|[detail Ha]]; rewrite Ha in *; simpl.
  - exists (Some user). split; [done|]. intros user'. rewrite <- Hiff. simpl.
    split; congruence.
  - exists None. split; [done|]. intros user'. rewrite <- Hiff. simpl.
    split; congruence.
Qed.

Lemma get_current_user_outcome_witness :
  (Deps.get_current_user toy_codec "Bearer alice.access" 1500 logged_in).2
  = Returned alice_at_1000.
Proof.
  apply (proj2 (proj1 (proj2 (get_current_user_outcome toy_codec
           "Bearer alice.access" 1500 logged_in)) alice_at_1000)).
  split; [reflexivity|]. exists alice_access.
  split; [vm_compute; reflexivity|]. split; reflexivity.
Defined.

(** X27. The role checks form a ladder. Every user passes
    [RequireDeveloper]; a user passes [RequireManager] exactly when the model
    lets them create projects; whoever passes [RequireAdmin] passes
    [RequireManager]. A check that fails raises an [HTTPException] with
    status 403 whose detail lists the roles asked for; no check touches the
    state. *)
Theorem role_checks_form_a_ladder user now s :
  Deps.RequireDeveloper user now s = (s, Returned user)
  ∧ (Deps.RequireManager user now s = (s, Returned user)
     ↔ User.can_create_project user = true)
  ∧ (Deps.RequireAdmin user now s = (s, Returned user)
     ↔ User.is_admin user = true)
  ∧ (User.is_admin user = true → User.can_create_project user = true)
  ∧ (User.can_create_project user = false →
     Deps.RequireManager user now s
     = (s, Thrown (HTTPException 403
                     "Requires one of roles: ['manager', 'admin']" None)))
  ∧ (User.is_admin user = false →
     Deps.RequireAdmin user now s
     = (s, Thrown (HTTPException 403 "Requires one of roles: ['admin']" None))).
Proof.
  unfold Deps.RequireDeveloper, Deps.RequireManager, Deps.RequireAdmin,
    Deps.require_roles, User.can_create_project, User.is_admin.
  destruct (User.role user) eqn:Hrole; vm_compute; repeat split; try done.
Qed.

(** ** The routes *)

Lemma prefix_occurs c p s :
  String.prefix p s = true → occurs c p = true → occurs c s = true.
Proof.
  revert s. induction p as [|a p IH]; intros s; [done|].
  destruct s as [|b s]; [done|]. simpl.
  destruct (Ascii.ascii_dec a b) as [->|Hne]; [|done].
  intros Hprefix [Hb|Hp]%orb_true_iff.
  - by rewrite Hb.
  - rewrite (IH s Hprefix Hp). apply orb_true_r.
Qed.

Lemma remove_no_space t :
  occurs " " t = false → str.remove_from "Bearer " 0 t = t.
Proof.
  induction t as [|c t IH]; [done|].
  intros Hspace.
  assert (String.prefix "Bearer " (String c t) = false) as Hprefix.
  { destruct (String.prefix "Bearer " (String c t)) eqn:Hp; [|done].
    apply (prefix_occurs " ") in Hp; [congruence | done]. }
  cbn [str.remove_from]. rewrite Hprefix.
  simpl in Hspace. apply orb_false_iff in Hspace as [_ Hspace].
  by rewrite IH.
Qed.

(** The two ways in which the routes read the token out of the header
    agree on a token without a space. *)
Lemma bearer_token_read_alike t :
  occurs " " t = false →
  nth 1 (str.split " " ("Bearer " +:+ t)) "" = t
  ∧ str.remove "Bearer " ("Bearer " +:+ t) = t.
Proof.
  intros Hspace.
  change ("Bearer " +:+ t)
    with (String "B" (String "e" (String "a" (String "r" (String "e"
            (String "r" (String " " t))))))).
  split.
  - cbn [str.split Ascii.eqb Bool.eqb]. rewrite split_no_sep by done. done.
  - unfold str.remove. cbn [str.remove_from String.prefix]. simpl.
    assert (String.prefix "" t = true) as -> by (by destruct t).
    by apply remove_no_space.
Qed.

(** X28. The logout route revokes the token that authenticated the request.
    For a header "Bearer t" with no space in [t], the route hands to [logout]
    the very token that [get_current_user] verified, although the two read
    the header in different ways; and once the route has run on an access
    token with lifetime left, [get_current_user] refuses the same header with
    401 "Token has been revoked" until the token expires. *)
Theorem logout_route_revokes_the_presented_token
    codec request refresh_text current_user t pa now later s :
  Headers.get "Authorization" (request_headers request) = Some ("Bearer " +:+ t) →
  occurs " " t = false →
  codec t = Signed true pa →
  TokenPayload.type pa = "access" →
  now < TokenPayload.exp pa →
  (∀ pr, codec refresh_text = Signed true pr →
         TokenPayload.jti pr ≠ TokenPayload.jti pa) →
  later < TokenPayload.exp pa →
  let run := AuthRouter.logout codec request refresh_text current_user now s in
  run = lift (AuthService.logout (codec t) (codec refresh_text)) now s
  ∧ Deps.get_current_user codec ("Bearer " +:+ t) later run.1
    = (run.1, Thrown (HTTPException 401 "Token has been revoked"
                        Deps.WWW_AUTHENTICATE)).
Proof.
  intros Hheader Hspace Hcodec Hty Hlive Hother Hlater run.
  destruct (bearer_token_read_alike t Hspace) as [Hsplit Hremove].
  assert (run = lift (AuthService.logout (codec t) (codec refresh_text)) now s)
    as Hrun.
  { subst run. unfold AuthRouter.logout. rewrite Hheader. simpl default.
    by rewrite Hremove. }
  split; [done|].
  assert (tombstoned_until (TokenPayload.exp pa) run.1 (TokenPayload.jti pa))
    as Htomb.
  { rewrite Hrun. unfold lift.
    assert (tombstoned_until (TokenPayload.exp pa)
              (AuthService.logout (codec t) (codec refresh_text) now s).1
              (TokenPayload.jti pa)) as Hlogout.
    { rewrite logout_eq, logout_one_eq, Hcodec.
      assert (jwt_decode now (Signed true pa) = Decoded pa) as ->
        by (apply jwt_decode_Decoded; split; [done | lia]).
      pose proof (blacklist_token_tombstone (TokenPayload.jti pa)
                    (TokenPayload.exp pa) (Some (TokenPayload.sub pa)) now s Hlive)
        as Hfirst.
      destruct (TokenBlacklist.blacklist_token (TokenPayload.jti pa) _ _ now s)
        as [sa [[]|e]]; simpl in Hfirst.
      2: { exists (RString "1"), (Some (TokenPayload.exp pa)).
           split; [done|]. by intros ? [= <-]. }
      assert (tombstoned_until (TokenPayload.exp pa) sa (TokenPayload.jti pa))
        as Hsa.
      { exists (RString "1"), (Some (TokenPayload.exp pa)).
        split; [done|]. by intros ? [= <-]. }
      rewrite logout_one_eq.
      destruct (jwt_decode now (codec refresh_text)) as [pr| |why] eqn:Hdec;
        [|done..].
      apply jwt_decode_Decoded in Hdec as [Hpr _].
      apply (blacklist_token_keeps_tombstone (TokenPayload.exp pa)
               (TokenPayload.jti pa) now (TokenPayload.jti pr)
               (TokenPayload.exp pr) (Some (TokenPayload.sub pr))); [|done].
      intros Heq. by destruct (Hother pr Hpr). }
    by destruct (AuthService.logout (codec t) (codec refresh_text) now s)
      as [s' [[]|e]]. }
  rewrite get_current_user_eq. rewrite Hsplit, Hcodec.
  assert (str.startswith ("Bearer " +:+ t) "Bearer " = true) as ->.
  { unfold str.startswith.
    change ("Bearer " +:+ t)
      with (String "B" (String "e" (String "a" (String "r" (String "e"
              (String "r" (String " " t))))))).
    simpl. by destruct t. }
  cbn [negb].
  destruct (verify_token_refused pa later run.1) as [Hrefused _].
  by rewrite Hrefused.
Qed.

Lemma logout_route_revokes_the_presented_token_witness :
  let run := AuthRouter.logout toy_codec logout_request "alice.refresh"
               alice_at_1000 1500 logged_in in
  run = lift (AuthService.logout (toy_codec "alice.access")
                (toy_codec "alice.refresh")) 1500 logged_in
  ∧ Deps.get_current_user toy_codec ("Bearer " +:+ "alice.access") 1600 run.1
    = (run.1, Thrown (HTTPException 401 "Token has been revoked"
                        Deps.WWW_AUTHENTICATE)).
Proof.
  apply (logout_route_revokes_the_presented_token toy_codec logout_request
           "alice.refresh" alice_at_1000 "alice.access" alice_access
           1500 1600 logged_in).
  - reflexivity.
  - reflexivity.
  - reflexivity.
  - reflexivity.
  - reflexivity.
  - intros pr [= <-]. discriminate.
  - reflexivity.
Defined.

(** X29. [login_rate_limit_check] counts the request in the login window of
    the client and does nothing else: the user table stays as it is, and so
    do the lock flag and the failed-attempt window of every account, except
    for a client whose identity is "failed:" followed by the email. It returns
    when the limiter allows the request, and raises an [HTTPException] with
    status 429, "Too many login attempts" and a [Retry-After] of at least
    one second and at most the window when the limiter denies it. *)
Theorem login_rate_limit_check_outcome settings request now s :
  let ip := Deps.get_client_ip request in
  zset_well_typed now (redis_db s) (RateLimiter.LOGIN_PREFIX +:+ ip) →
  let limited := RateLimiter.check_login_limit settings ip now s in
  let run := Deps.login_rate_limit_check settings request now s in
  run.1 = limited.1
  ∧ users run.1 = users s
  ∧ (∀ email,
       ip ≠ "failed:" +:+ email →
       redis_db run.1 !! failed_key email = redis_db s !! failed_key email
       ∧ redis_db run.1 !! lock_key email = redis_db s !! lock_key email)
  ∧ ((∃ remaining, limited.2 = Ok (true, remaining, 0) ∧ run.2 = Returned ())
     ∨ (∃ retry_after,
          limited.2 = Ok (false, 0, retry_after)
          ∧ 1 ≤ retry_after ≤ Z.max (login_rate_limit_window settings) 1
          ∧ run.2 = Thrown (HTTPException 429 "Too many login attempts"
                              (Some [("Retry-After", pretty retry_after)])))).
Proof.
  intros ip Htyped limited run.
  pose proof (check_rate_limit_cases ip (login_rate_limit_requests settings)
                (login_rate_limit_window settings) RateLimiter.LOGIN_PREFIX now s
                Htyped) as Hcases.
  cbv zeta in Hcases.
  fold (RateLimiter.check_login_limit settings ip now s) in Hcases.
  fold limited in Hcases.
  assert (run.1 = limited.1) as Hstate.
  { subst run limited. unfold Deps.login_rate_limit_check, hbind, lift.
    fold ip. destruct (RateLimiter.check_login_limit settings ip now s)
      as [s1 [[[[] ?] ?]|e]]; done. }
  assert (users limited.1 = users s) as Husers.
  { subst limited. unfold RateLimiter.check_login_limit.
    by rewrite check_rate_limit_eq. }
  assert (∀ key, RateLimiter.LOGIN_PREFIX +:+ ip ≠ key →
                 redis_db limited.1 !! key = redis_db s !! key) as Hframe.
  { intros key Hne. subst limited. unfold RateLimiter.check_login_limit.
    by apply check_rate_limit_avoids. }
  split; [done|]. rewrite Hstate. split; [done|]. split.
  - intros email Hne. split; apply Hframe.
    + unfold failed_key. intros Heq. apply Hne.
      by simplify_eq/=.
    + discriminate.
  - subst run. unfold Deps.login_rate_limit_check, hbind, lift. fold ip.
    fold limited. destruct limited as [s1 res]. simpl in Hcases.
    destruct Hcases as [(remaining & -> & Hrange)|(retry_after & -> & Hrange)].
    + left. by exists remaining.
    + right. by exists retry_after.
Qed.

Lemma login_rate_limit_check_outcome_witness :
  let ip := Deps.get_client_ip forwarded_request in
  let limited := RateLimiter.check_login_limit default_settings ip 1000
                   registered in
  let run := Deps.login_rate_limit_check default_settings forwarded_request
               1000 registered in
  run.1 = limited.1
  ∧ users run.1 = users registered
  ∧ (∀ email,
       ip ≠ "failed:" +:+ email →
       redis_db run.1 !! failed_key email = redis_db registered !! failed_key email
       ∧ redis_db run.1 !! lock_key email = redis_db registered !! lock_key email)
  ∧ ((∃ remaining, limited.2 = Ok (true, remaining, 0) ∧ run.2 = Returned ())
     ∨ (∃ retry_after,
          limited.2 = Ok (false, 0, retry_after)
          ∧ 1 ≤ retry_after ≤ Z.max (login_rate_limit_window default_settings) 1
          ∧ run.2 = Thrown (HTTPException 429 "Too many login attempts"
                              (Some [("Retry-After", pretty retry_after)])))).
Proof.
  apply (login_rate_limit_check_outcome default_settings forwarded_request 1000
           registered).
  vm_compute. exact I.
Defined.

(** X30. The login route turns what [login] raises into a status: 423 with
    the message of the exception exactly when [login] raised
    [AccountLockedError], 401 with the message for every other
    authentication failure, never anything else for them; any other
    exception passes through as it is; and the route returns the token pair
    exactly when [login] returns. The state is the one [login] left. *)
Theorem login_route_statuses settings {hasher : PasswordHasher}
    request data a r now s :
  let served := AuthService.login settings data (Deps.get_client_ip request)
                  a r now s in
  let run := AuthRouter.login settings request data a r now s in
  run.1 = served.1
  ∧ (∀ tokens, run.2 = Returned tokens ↔ ∃ user, served.2 = Ok (user, tokens))
  ∧ (∀ detail headers,
       run.2 = Thrown (HTTPException 423 detail headers)
       ↔ served.2 = Raise (AccountLockedError detail) ∧ headers = None)
  ∧ (∀ status detail headers,
       run.2 = Thrown (HTTPException status detail headers) →
       status = 423
       ∨ status = 401
         ∧ ∃ e, served.2 = Raise e ∧ is_authentication_error e = true
                ∧ detail = message e)
  ∧ (∀ x, run.2 = Thrown x →
          (∃ status detail, x = HTTPException status detail None)
          ∨ ∃ e, x = CoreError e ∧ served.2 = Raise e
                 ∧ is_authentication_error e = false).
Proof.
  intros served run. subst run. unfold AuthRouter.login, try_except, hbind, lift.
  fold served. destruct served as [s1 [[user tokens]|e]]; simpl.
  - split; [done|]. split; [|split; [|split]]; try done.
    + intros tokens'. split; [intros [= <-]; by exists user|].
      by intros [u [= _ <-]].
    + intros detail headers. split; [done | by intros [? _]].
  - split; [by destruct e|]. split; [|split; [|split]].
    + intros tokens. split; [by destruct e|]. by intros [? ?].
    + intros detail headers.
      destruct e; simpl; (split; [intros ?|intros [? ?]]); by simplify_eq.
    + intros status detail headers.
      destruct e; simpl; try done.
      all: intros Heq; simplify_eq.
      all: try (by left).
      all: right; split; [done|].
      all: eexists; split; [reflexivity|].
      all: by split.
    + intros x. destruct e; simpl; intros [= <-];
        first [left; by eexists _, _
              | right; eexists; split; [reflexivity|]; by split].
Qed.

